(** * Introspection of a state machine: [shared/src/introspectMachine.ts]

    A shallow embedding of [introspectMachine], of the [ItemMap] registry
    class and of [makeSubStateFromNode], with the properties of the report
    they build; and of [writeToTypegenFile]
    ([packages/shared/src/writeToTypegenFile.ts]), which saves the types
    generated from such reports.

    Conventions of the embedding.
    - A JavaScript object used as a dictionary ([ItemMap.map], [nodeMap],
      the object built by [reduce]) is an association list over its own
      string keys, with at most one entry per key, enumerated in insertion
      order; the engine's rule that enumerates keys that are array indices
      first is left out, and no statement below depends on the order
      between two keys.  The tables of [machine.options] are only read by
      key: they are [gmap]s.
    - The key [__proto__] of [nodeMap]: the assignment
      [nodeMap["__proto__"] = entry] sets the prototype of [nodeMap] and
      creates no own key.  The list keeps that entry under the key
      [__proto__], where the reads of [nodeMap["__proto__"]] find it, and
      [Object_entries] leaves it out.  A read of a key that [nodeMap] does
      not hold ends in a [TypeError], also where the key is inherited from
      [Object.prototype].
    - Input contract of the registries and of the lookup by id: the item
      names are not names that a plain object inherits ([constructor],
      [toString], [__proto__], ...), for which [addItem] creates no slot
      and throws, and no state id starts with [#], which
      [getStateNodeById] strips before it looks the id up.
    - A JavaScript [Set] is a list in insertion order; [add] appends the
      value unless the set already holds it.  Strings are compared by
      value, objects by identity.
    - An exception aborts the run: fallible code returns [Result].
    - The recursion of [makeSubStateFromNode] runs on a budget of nested
      calls (the call stack), [None] when the budget is used up.
    - The accessors of XState that the code calls ([stateIds],
      [getStateNodeById], [pathToStateValue]) are functions of the tree of
      state nodes; the two helpers of [./getTransitionsFromNode] are
      parameters.
    - XState builds the delayed transitions of a node on the first read
      of [node.after] or of [node.transitions], and then pushes actions of
      its own onto [node.onEntry] and [node.onExit].  [introspectMachine]
      is the run that reads every node before that; [introspectMachineFrom]
      is the run on a machine that arrives with some nodes built and builds
      the others as it reads them. *)

From Stdlib Require Import String Ascii List Arith Lia.
From stdpp Require Import base option list strings gmap.

Set Warnings "-register-all".
Local Open Scope string_scope.
Local Open Scope list_scope.

(** ** Exceptions *)

Inductive Error : Type :=
| TypeErrorUndefined (key : string)
    (* a property is read from [undefined] at the lookup of [nodeMap[key]],
       a key that [nodeMap] does not hold *)
| StateNodeNotFound (stateId : string).
    (* [getStateNodeById] throws: no state node has this id *)

Inductive Result (A : Type) : Type :=
| Ok (a : A)
| Throw (e : Error).

Arguments Ok {A} a.
Arguments Throw {A} e.

Definition bind {A B : Type} (r : Result A) (k : A -> Result B) : Result B :=
  match r with
  | Ok a => k a
  | Throw e => Throw e
  end.

Notation "'let*' x ':=' r 'in' k" := (bind r (fun x => k))
  (at level 10, x name, r at level 100, k at level 200).

(** [array.forEach(f)] where [f] updates the state [s] and may throw. *)
Fixpoint forEach {A S : Type} (f : A -> S -> Result S) (l : list A) (s : S)
  : Result S :=
  match l with
  | [] => Ok s
  | x :: l' => let* s' := f x s in forEach f l' s'
  end.

(** [array.forEach(f)] where [f] cannot throw. *)
Fixpoint forEachPure {A S : Type} (f : A -> S -> S) (l : list A) (s : S) : S :=
  match l with
  | [] => s
  | x :: l' => forEachPure f l' (f x s)
  end.

(** [array.map(f)] where [f] may throw. *)
Fixpoint mapM {A B : Type} (f : A -> Result B) (l : list A) : Result (list B) :=
  match l with
  | [] => Ok []
  | x :: l' => let* y := f x in let* ys := mapM f l' in Ok (y :: ys)
  end.

(** ** Objects as ordered dictionaries, sets as ordered lists *)

Section Obj.
Context {V : Type}.

(** [o[k]] *)
Fixpoint obj_get (k : string) (o : list (string * V)) : option V :=
  match o with
  | [] => None
  | (k', v) :: o' => if decide (k = k') then Some v else obj_get k o'
  end.

(** [o[k] = v]: an existing key keeps its place, a new key goes last. *)
Fixpoint obj_set (k : string) (v : V) (o : list (string * V))
  : list (string * V) :=
  match o with
  | [] => [(k, v)]
  | (k', v') :: o' =>
      if decide (k = k') then (k, v) :: o' else (k', v') :: obj_set k v o'
  end.

(** In-place mutation of the value stored under [k], if there is one. *)
Fixpoint obj_alter (f : V -> V) (k : string) (o : list (string * V))
  : list (string * V) :=
  match o with
  | [] => []
  | (k', v) :: o' =>
      if decide (k = k') then (k', f v) :: o' else (k', v) :: obj_alter f k o'
  end.

Definition obj_keys (o : list (string * V)) : list string := map fst o.
End Obj.

(** [set.add(x)] on a [Set<string>]. *)
Definition set_add (x : string) (s : list string) : list string :=
  if decide (x ∈ s) then s else s ++ [x].

(** ** Strings: the two regular expressions and [JSON.stringify] *)

(** [/\./.test(name)] *)
Fixpoint hasDot (s : string) : bool :=
  match s with
  | EmptyString => false
  | String c s' => if Ascii.eqb c "."%char then true else hasDot s'
  end.

(** [xstateRegex.test(s)] with [xstateRegex = /^xstate\./] *)
Definition xstateRegex_test (s : string) : bool := String.prefix "xstate." s.

(** [Boolean(s)] on a string. *)
Definition truthy (s : string) : bool :=
  match s with
  | EmptyString => false
  | String _ _ => true
  end.

Definition dquote : ascii := ascii_of_nat 34.
Definition backslash : ascii := ascii_of_nat 92.

Definition hexDigit (n : nat) : ascii :=
  match n with
  | 0 => "0" | 1 => "1" | 2 => "2" | 3 => "3" | 4 => "4" | 5 => "5"
  | 6 => "6" | 7 => "7" | 8 => "8" | 9 => "9" | 10 => "a" | 11 => "b"
  | 12 => "c" | 13 => "d" | 14 => "e" | _ => "f"
  end%char.

(** One character of a JSON string literal. *)
Definition quoteChar (c : ascii) : string :=
  let n := nat_of_ascii c in
  if Nat.eqb n 34 then String backslash (String dquote EmptyString)
  else if Nat.eqb n 92 then String backslash (String backslash EmptyString)
  else if Nat.eqb n 8 then String backslash "b"
  else if Nat.eqb n 9 then String backslash "t"
  else if Nat.eqb n 10 then String backslash "n"
  else if Nat.eqb n 12 then String backslash "f"
  else if Nat.eqb n 13 then String backslash "r"
  else if Nat.ltb n 32 then
    String backslash
      ("u00" +:+ String (hexDigit (n / 16)) (String (hexDigit (n mod 16)) EmptyString))
  else String c EmptyString.

Fixpoint quoteChars (s : string) : string :=
  match s with
  | EmptyString => EmptyString
  | String c s' => quoteChar c +:+ quoteChars s'
  end.

(** [JSON.stringify(s)] on a string. *)
Definition quoteJSON (s : string) : string :=
  String dquote (quoteChars s +:+ String dquote EmptyString).

(** [XState.StateValue]: a state key, or an object from keys to state
    values. *)
Inductive StateValue : Type :=
| SVString (s : string)
| SVObject (fields : list (string * StateValue)).

(** The loop of [pathToStateValue] (xstate/lib/utils), on a path that is
    not of length 1: the last two keys become [{k: "last"}], every earlier
    key wraps what follows. *)
Fixpoint pathToObject (statePath : list string) : list (string * StateValue) :=
  match statePath with
  | [] => []
  | k :: rest =>
      match rest with
      | [] => []
      | [lastKey] => [(k, SVString lastKey)]
      | _ :: _ :: _ => [(k, SVObject (pathToObject rest))]
      end
  end.

Definition pathToStateValue (statePath : list string) : StateValue :=
  match statePath with
  | [k] => SVString k
  | _ => SVObject (pathToObject statePath)
  end.

Fixpoint joinComma (parts : list string) : string :=
  match parts with
  | [] => EmptyString
  | [p] => p
  | p :: ps => p +:+ "," +:+ joinComma ps
  end.

(** [JSON.stringify(state)] on a state value. *)
Fixpoint JSON_stringify (v : StateValue) : string :=
  match v with
  | SVString s => quoteJSON s
  | SVObject fields =>
      "{" +:+ joinComma
               ((fix members (fs : list (string * StateValue)) : list string :=
                   match fs with
                   | [] => []
                   | (k, v') :: fs' =>
                       (quoteJSON k +:+ ":" +:+ JSON_stringify v') :: members fs'
                   end) fields)
          +:+ "}"
  end.

(** [states.add(v)] on a [Set<StateValue>]: a string is found again by
    value; an object is a fresh one at every call of [pathToStateValue],
    so it is never found. *)
Definition isSVString (s : string) (v : StateValue) : bool :=
  match v with
  | SVString s' => bool_decide (s = s')
  | SVObject _ => false
  end.

Definition states_add (v : StateValue) (set : list StateValue) : list StateValue :=
  match v with
  | SVString s => if existsb (isSVString s) set then set else set ++ [v]
  | SVObject _ => set ++ [v]
  end.

(** ** The machine definition, as the code reads it

    The fields are those of XState's [StateNode] that [introspectMachine]
    reads.  An identifier that the code tests with [typeof x === "string"]
    is either a string or something else (an inline function, an object, a
    number); a reference to another state node (the parent, a transition
    target) is the record of what the code reads through it. *)

(** [service.src] *)
Inductive InvokeSrc : Type :=
| SrcString (s : string)
| SrcOther.

Module InvokeDefinition.
Record t : Type := mk { src : InvokeSrc }.
End InvokeDefinition.

(** [delay] of a delayed transition: a named delay, or a number or a
    delay expression. *)
Inductive DelayRef : Type :=
| DelayString (s : string)
| DelayOther.

Module DelayedTransition.
Record t : Type := mk { delay : DelayRef }.
End DelayedTransition.

Module ActivityDefinition.
Record t : Type := mk { type : string }.
End ActivityDefinition.

(** One branch [{cond, actions}] of the [xstate.choose] action. *)
Inductive ChooseGuard : Type :=
| GuardString (s : string)
| GuardOther.

Inductive ChooseAction : Type :=
| ActionString (s : string)
| ActionOther.

Inductive ChooseActions : Type :=
| ActionsArray (l : list ChooseAction)
| ActionsString (s : string)
| ActionsOther.

Module ChooseCondition.
Record t : Type := mk { cond : ChooseGuard; actions : ChooseActions }.
End ChooseCondition.

(** An action object: its [type], whether it carries an inline [exec],
    and [conds] when it is an array. *)
Module ActionObject.
Record t : Type := mk {
  type : string;
  exec : bool;
  conds : option (list ChooseCondition.t)
}.
End ActionObject.

Module Guard.
Record t : Type := mk { name : string }.
End Guard.

(** A resolved transition target: the target node's [id] and [invoke]. *)
Module TargetNode.
Record t : Type := mk { id : string; invoke : list InvokeDefinition.t }.
End TargetNode.

Module Transition.
Record t : Type := mk {
  eventType : string;
  target : option (list TargetNode.t);
  cond : option Guard.t;
  actions : list ActionObject.t
}.
End Transition.

(** [node.parent], through the ids of its [initialStateNodes]. *)
Module ParentNode.
Record t : Type := mk { initialStateNodes : list string }.
End ParentNode.

Module StateNode.
Inductive t : Type := mk {
  id : string;
  key : string;
  path : list string;
  parent : option ParentNode.t;
  states : list t;        (* [Object.values(node.states)] *)
  transitions : list Transition.t;
  onEntry : list ActionObject.t;
  onExit : list ActionObject.t;
  invoke : list InvokeDefinition.t;
  activities : list ActivityDefinition.t;
  after : list DelayedTransition.t
}.

(** The node and its descendants, parents first, children in order. *)
Fixpoint subtree (node : t) : list t :=
  node :: flat_map subtree (states node).

End StateNode.

(** An implementation found in a table of [machine.options]: a function
    or an object, or, for a delay, a number, or, for a service, a string. *)
Inductive Implementation : Type :=
| ImplFunction
| ImplObject
| ImplNumber (n : nat)
| ImplString (s : string).

(** [Boolean(table[name])] *)
Definition Boolean (v : option Implementation) : bool :=
  match v with
  | None => false
  | Some ImplFunction => true
  | Some ImplObject => true
  | Some (ImplNumber n) => negb (Nat.eqb n 0)
  | Some (ImplString s) => truthy s
  end.

Module MachineOptions.
Record t : Type := mk {
  guards : gmap string Implementation;
  actions : gmap string Implementation;
  services : gmap string Implementation;
  activities : gmap string Implementation;
  delays : gmap string Implementation
}.
End MachineOptions.

(** The root state node with its options. *)
Module Machine.
Record t : Type := mk { root : StateNode.t; options : MachineOptions.t }.

(** [machine.stateIds]: the id of the node and of all its descendants. *)
Definition stateIds (machine : t) : list string :=
  map StateNode.id (StateNode.subtree (root machine)).

(** [machine.idMap]: the descendants by id; where two share an id the
    later one has overwritten the earlier. *)
Definition idMap (machine : t) (stateId : string) : option StateNode.t :=
  find (fun node => bool_decide (StateNode.id node = stateId))
    (rev (flat_map StateNode.subtree (StateNode.states (root machine)))).

(** [machine.getStateNodeById(id)], on an id that does not start with
    [#]: XState strips a leading [#] before it looks the id up. *)
Definition getStateNodeById (machine : t) (stateId : string)
  : Result StateNode.t :=
  if decide (stateId = StateNode.id (root machine)) then Ok (root machine)
  else match idMap machine stateId with
       | Some node => Ok node
       | None => Throw (StateNodeNotFound stateId)
       end.
End Machine.


(** ** The registry of one category: class [ItemMap] *)

Module ItemData.
Record t : Type := mk { events : list string; states : list StateValue }.
End ItemData.

Module ItemLine.
Record t : Type := mk {
  name : string;
  required : bool;
  events : list string;
  states : list string
}.
End ItemLine.

Module DataShape.
Record t : Type := mk { lines : list ItemLine.t; required : bool }.
End DataShape.

Module ItemMap.
Record t : Type := mk {
  map : list (string * ItemData.t);
  checkIfOptional : string -> bool
}.

(** [new ItemMap({checkIfOptional})] *)
Definition new (checkIfOptional : string -> bool) : t := mk [] checkIfOptional.

(** [addItem(itemName, nodePath)], the test [!this.map[itemName]] going by
    the own keys of [this.map]: for a name that a plain object inherits,
    outside the input contract, the code creates no slot and throws at
    [.states.add]. *)
Definition addItem (itemName : string) (nodePath : list string) (this : t) : t :=
  let map1 :=
    match obj_get itemName (map this) with
    | Some _ => map this
    | None => obj_set itemName (ItemData.mk [] []) (map this)
    end in
  mk (obj_alter
        (fun data =>
           ItemData.mk (ItemData.events data)
             (states_add (pathToStateValue nodePath) (ItemData.states data)))
        itemName map1)
     (checkIfOptional this).

(** [addEventToItem(itemName, eventType, nodePath)] *)
Definition addEventToItem (itemName eventType : string) (nodePath : list string)
  (this : t) : t :=
  let this1 := addItem itemName nodePath this in
  mk (obj_alter
        (fun data =>
           ItemData.mk (set_add eventType (ItemData.events data))
             (ItemData.states data))
        itemName (map this1))
     (checkIfOptional this1).

(** The callback of [.map] in [toDataShape], over the entries that passed
    the filter, threading the variable [isRequiredInTotal]. *)
Fixpoint mapEntries (checkIfOptional : string -> bool)
  (entries : list (string * ItemData.t)) (isRequiredInTotal : bool)
  : list ItemLine.t * bool :=
  match entries with
  | [] => ([], isRequiredInTotal)
  | (name, data) :: rest =>
      let optional := checkIfOptional name in
      let isRequiredInTotal1 := if negb optional then true else isRequiredInTotal in
      let line :=
        ItemLine.mk name (negb optional) (ItemData.events data)
          (filter (fun s => truthy s = true)
             (List.map JSON_stringify (ItemData.states data))) in
      let (lines, isRequiredInTotal2) :=
        mapEntries checkIfOptional rest isRequiredInTotal1 in
      (line :: lines, isRequiredInTotal2)
  end.

(** [toDataShape()] *)
Definition toDataShape (this : t) : DataShape.t :=
  let (lines, isRequiredInTotal) :=
    mapEntries (checkIfOptional this)
      (filter (fun entry => negb (hasDot (fst entry)) = true) (map this))
      false in
  DataShape.mk lines isRequiredInTotal.
End ItemMap.

(** ** The graph index [nodeMap] *)

Module NodeEntry.
Record t : Type := mk { sources : list string; children : list string }.
End NodeEntry.

(** The own entries of [nodeMap], and under the key [__proto__] the
    entry that is its prototype, if one was assigned. *)
Definition NodeMap : Type := list (string * NodeEntry.t).

(** [Object.entries(nodeMap)]: the own entries. *)
Definition Object_entries (nodeMap : list (string * NodeEntry.t)) : NodeMap :=
  filter (fun entry => fst entry <> "__proto__") nodeMap.

(** [nodeMap[id].sources.add(eventType)] *)
Definition addSource (stateId eventType : string) (nodeMap : NodeMap)
  : Result NodeMap :=
  match obj_get stateId nodeMap with
  | None => Throw (TypeErrorUndefined stateId)
  | Some _ =>
      Ok (obj_alter
            (fun entry =>
               NodeEntry.mk (set_add eventType (NodeEntry.sources entry))
                 (NodeEntry.children entry))
            stateId nodeMap)
  end.

(** [nodeMap[id].children.add(childId)] *)
Definition addChild (stateId childId : string) (nodeMap : NodeMap)
  : Result NodeMap :=
  match obj_get stateId nodeMap with
  | None => Throw (TypeErrorUndefined stateId)
  | Some _ =>
      Ok (obj_alter
            (fun entry =>
               NodeEntry.mk (NodeEntry.sources entry)
                 (set_add childId (NodeEntry.children entry)))
            stateId nodeMap)
  end.

(** ** The variables of one run *)

Module State.
Record t : Type := mk {
  guards : ItemMap.t;
  actions : ItemMap.t;
  services : ItemMap.t;
  activities : ItemMap.t;
  delays : ItemMap.t;
  nodeMap : NodeMap
}.

Definition onGuards (f : ItemMap.t -> ItemMap.t) (s : t) : t :=
  mk (f (guards s)) (actions s) (services s) (activities s) (delays s) (nodeMap s).
Definition onActions (f : ItemMap.t -> ItemMap.t) (s : t) : t :=
  mk (guards s) (f (actions s)) (services s) (activities s) (delays s) (nodeMap s).
Definition onServices (f : ItemMap.t -> ItemMap.t) (s : t) : t :=
  mk (guards s) (actions s) (f (services s)) (activities s) (delays s) (nodeMap s).
Definition onActivities (f : ItemMap.t -> ItemMap.t) (s : t) : t :=
  mk (guards s) (actions s) (services s) (f (activities s)) (delays s) (nodeMap s).
Definition onDelays (f : ItemMap.t -> ItemMap.t) (s : t) : t :=
  mk (guards s) (actions s) (services s) (activities s) (f (delays s)) (nodeMap s).
Definition onNodeMap (f : NodeMap -> Result NodeMap) (s : t) : Result t :=
  let* nodeMap1 := f (nodeMap s) in
  Ok (mk (guards s) (actions s) (services s) (activities s) (delays s) nodeMap1).
End State.

(** ** The traversal of [introspectMachine] *)

(** The condition "this node is an initial state of its parent, or it is
    the root state". *)
Definition isInitialOrRoot (node : StateNode.t) : bool :=
  match StateNode.parent node with
  | Some parent =>
      existsb (fun initialNodeId => bool_decide (initialNodeId = StateNode.id node))
        (ParentNode.initialStateNodes parent)
  | None => true
  end.

(** Lines 163-180: [xstate.init] for the services, the entry actions and
    the delays of such a node. *)
Definition addInitEvents (node : StateNode.t) (s : State.t) : State.t :=
  let s1 :=
    State.onServices
      (forEachPure
         (fun service services =>
            match InvokeDefinition.src service with
            | SrcString src =>
                ItemMap.addEventToItem src "xstate.init" (StateNode.path node) services
            | SrcOther => services
            end)
         (StateNode.invoke node)) s in
  let s2 :=
    State.onActions
      (forEachPure
         (fun action actions =>
            if truthy (ActionObject.type action)
            then ItemMap.addEventToItem (ActionObject.type action) "xstate.init"
                   (StateNode.path node) actions
            else actions)
         (StateNode.onEntry node)) s1 in
  State.onDelays
    (forEachPure
       (fun delayed delays =>
          match DelayedTransition.delay delayed with
          | DelayString delay =>
              ItemMap.addEventToItem delay "xstate.init" (StateNode.path node) delays
          | DelayOther => delays
          end)
       (StateNode.after node)) s2.

(** Lines 183-185: the children of the node. *)
Definition addChildren (node : StateNode.t) (s : State.t) : Result State.t :=
  State.onNodeMap
    (forEach
       (fun childNode => addChild (StateNode.id node) (StateNode.id childNode))
       (StateNode.states node)) s.

(** Lines 189-204: activities, delays and services by occurrence. *)
Definition addOccurrences (node : StateNode.t) (s : State.t) : State.t :=
  let s1 :=
    State.onActivities
      (forEachPure
         (fun activity activities =>
            if truthy (ActivityDefinition.type activity)
               && negb (bool_decide (ActivityDefinition.type activity = "xstate.invoke"))
            then ItemMap.addItem (ActivityDefinition.type activity)
                   (StateNode.path node) activities
            else activities)
         (StateNode.activities node)) s in
  let s2 :=
    State.onDelays
      (forEachPure
         (fun delayed delays =>
            match DelayedTransition.delay delayed with
            | DelayString delay => ItemMap.addItem delay (StateNode.path node) delays
            | DelayOther => delays
            end)
         (StateNode.after node)) s1 in
  State.onServices
    (forEachPure
       (fun service services =>
          match InvokeDefinition.src service with
          | SrcString src => ItemMap.addItem src (StateNode.path node) services
          | SrcOther => services
          end)
       (StateNode.invoke node)) s2.

(** Lines 207-211: the event of the transition is a source of each of its
    targets. *)
Definition addSources (transition : Transition.t) (s : State.t) : Result State.t :=
  match Transition.target transition with
  | Some targets =>
      State.onNodeMap
        (forEach
           (fun targetNode =>
              addSource (TargetNode.id targetNode) (Transition.eventType transition))
           targets) s
  | None => Ok s
  end.

(** Lines 212-220: the guard of the transition. *)
Definition addTransitionGuard (node : StateNode.t) (transition : Transition.t)
  (s : State.t) : State.t :=
  match Transition.cond transition with
  | Some cond =>
      if truthy (Guard.name cond)
      then if bool_decide (Guard.name cond = "cond") then s
           else State.onGuards
                  (ItemMap.addEventToItem (Guard.name cond)
                     (Transition.eventType transition) (StateNode.path node)) s
      else s
  | None => s
  end.

(** Lines 222-234: the services invoked by the targets. *)
Definition addTargetInvokes (node : StateNode.t) (transition : Transition.t)
  (s : State.t) : State.t :=
  match Transition.target transition with
  | Some targets =>
      State.onServices
        (forEachPure
           (fun targetNode =>
              forEachPure
                (fun service services =>
                   match InvokeDefinition.src service with
                   | SrcString src =>
                       ItemMap.addEventToItem src (Transition.eventType transition)
                         (StateNode.path node) services
                   | SrcOther => services
                   end)
                (TargetNode.invoke targetNode))
           targets) s
  | None => s
  end.

(** Lines 246-267: one branch of [xstate.choose]. *)
Definition addChooseBranch (node : StateNode.t) (transition : Transition.t)
  (branch : ChooseCondition.t) (s : State.t) : State.t :=
  let s1 :=
    match ChooseCondition.cond branch with
    | GuardString cond =>
        State.onGuards
          (ItemMap.addEventToItem cond (Transition.eventType transition)
             (StateNode.path node)) s
    | GuardOther => s
    end in
  match ChooseCondition.actions branch with
  | ActionsArray condActions =>
      State.onActions
        (forEachPure
           (fun condAction actions =>
              match condAction with
              | ActionString name =>
                  ItemMap.addEventToItem name (Transition.eventType transition)
                    (StateNode.path node) actions
              | ActionOther => actions
              end)
           condActions) s1
  | ActionsString condActions =>
      State.onActions
        (ItemMap.addEventToItem condActions (Transition.eventType transition)
           (StateNode.path node)) s1
  | ActionsOther => s1
  end.

(** Lines 237-273: one action of the transition. *)
Definition addTransitionAction (node : StateNode.t) (transition : Transition.t)
  (action : ActionObject.t) (s : State.t) : State.t :=
  let s1 :=
    if negb (xstateRegex_test (ActionObject.type action))
    then State.onActions
           (ItemMap.addEventToItem (ActionObject.type action)
              (Transition.eventType transition) (StateNode.path node)) s
    else s in
  if bool_decide (ActionObject.type action = "xstate.choose")
  then match ActionObject.conds action with
       | Some conds => forEachPure (addChooseBranch node transition) conds s1
       | None => s1
       end
  else s1.

(** Lines 206-275: one transition of the node. *)
Definition visitTransition (node : StateNode.t) (transition : Transition.t)
  (s : State.t) : Result State.t :=
  let* s1 := addSources transition s in
  let s2 := addTransitionGuard node transition s1 in
  let s3 := addTargetInvokes node transition s2 in
  Ok (forEachPure (addTransitionAction node transition)
        (Transition.actions transition) s3).

(** Lines 154-276: the first pass over one node. *)
Definition visitNode (node : StateNode.t) (s : State.t) : Result State.t :=
  let s1 := if isInitialOrRoot node then addInitEvents node s else s in
  let* s2 := addChildren node s1 in
  let s3 := addOccurrences node s2 in
  forEach (visitTransition node) (StateNode.transitions node) s3.

(** Lines 288-293: the sources of the node become triggering events of
    one entry action. *)
Definition addEntrySources (node : StateNode.t) (action : ActionObject.t)
  (s : State.t) : Result State.t :=
  match obj_get (StateNode.id node) (State.nodeMap s) with
  | None => Throw (TypeErrorUndefined (StateNode.id node))
  | Some entry =>
      Ok (State.onActions
            (forEachPure
               (fun source actions =>
                  ItemMap.addEventToItem (ActionObject.type action) source
                    (StateNode.path node) actions)
               (NodeEntry.sources entry)) s)
  end.

(** Lines 278-294: the second pass over one node. *)
Definition visitNodeActions (node : StateNode.t) (s : State.t) : Result State.t :=
  let allActions := StateNode.onExit node ++ StateNode.onEntry node in
  let s1 :=
    State.onActions
      (forEachPure
         (fun action actions =>
            if xstateRegex_test (ActionObject.type action) || ActionObject.exec action
            then actions
            else ItemMap.addItem (ActionObject.type action) (StateNode.path node) actions)
         allActions) s in
  forEach (addEntrySources node) (StateNode.onEntry node) s1.

(** Lines 147-152: an empty entry per node; for the id [__proto__] the
    entry becomes the prototype of [nodeMap]. *)
Definition initNodeMap (allStateNodes : list StateNode.t) : NodeMap :=
  forEachPure
    (fun node nodeMap => obj_set (StateNode.id node) (NodeEntry.mk [] []) nodeMap)
    allStateNodes [].

(** Lines 120-134: the five registries, each with its table. *)
Definition initState (machine : Machine.t) (allStateNodes : list StateNode.t)
  : State.t :=
  let options := Machine.options machine in
  State.mk
    (ItemMap.new (fun name => Boolean (MachineOptions.guards options !! name)))
    (ItemMap.new (fun name => Boolean (MachineOptions.actions options !! name)))
    (ItemMap.new (fun name => Boolean (MachineOptions.services options !! name)))
    (ItemMap.new (fun name => Boolean (MachineOptions.activities options !! name)))
    (ItemMap.new (fun name => Boolean (MachineOptions.delays options !! name)))
    (initNodeMap allStateNodes).

(** Lines 143-145. *)
Definition allStateNodes (machine : Machine.t) : Result (list StateNode.t) :=
  mapM (Machine.getStateNodeById machine) (Machine.stateIds machine).

(** Lines 120-294: the registries and the graph index at the end of the
    two passes. *)
Definition traverse (machine : Machine.t) : Result State.t :=
  let* nodes := allStateNodes machine in
  let* s1 := forEach visitNode nodes (initState machine nodes) in
  forEach visitNodeActions nodes s1.

(** ** The substate tree and the report *)

Module SubState.
Inductive t : Type := mk {
  targets : list string;
  sources : list string;
  states : list (string * t)
}.
End SubState.

Module StateEdge.
Record t : Type := mk { id : string; sources : list string }.
End StateEdge.

Module IntrospectMachineResult.
Record t {Matches : Type} : Type := mk {
  states : list StateEdge.t;
  stateMatches : Matches;
  subState : SubState.t;
  guards : DataShape.t;
  actions : DataShape.t;
  services : DataShape.t;
  activities : DataShape.t;
  delays : DataShape.t
}.
Arguments t : clear implicits.
End IntrospectMachineResult.

Section Introspect.

(** The two helpers of [./getTransitionsFromNode], which the report calls
    and whose results it passes on. *)
Variable getTransitionsFromNode : StateNode.t -> list string.
Context {Matches : Type}.
Variable getMatchesStates : StateNode.t -> Matches.

(** The [reduce] of lines 32-38 over the recorded children, [build]
    being the recursive call. *)
Fixpoint reduceChildren (build : StateNode.t -> option (Result SubState.t))
  (rootNode : Machine.t) (children : list string)
  (obj : list (string * SubState.t))
  : option (Result (list (string * SubState.t))) :=
  match children with
  | [] => Some (Ok obj)
  | child :: rest =>
      match Machine.getStateNodeById rootNode child with
      | Throw e => Some (Throw e)
      | Ok childNode =>
          match build childNode with
          | None => None
          | Some (Throw e) => Some (Throw e)
          | Some (Ok sub) =>
              reduceChildren build rootNode rest
                (obj_set (StateNode.key childNode) sub obj)
          end
      end
  end.

(** [makeSubStateFromNode(node, rootNode, nodeMap)], on a budget of
    [fuel] nested calls. *)
Fixpoint makeSubStateFromNode (fuel : nat) (node : StateNode.t)
  (rootNode : Machine.t) (nodeMap : NodeMap) : option (Result SubState.t) :=
  match fuel with
  | 0 => None
  | S fuel' =>
      let nodeFromMap := obj_get (StateNode.id node) nodeMap in
      match Machine.getStateNodeById rootNode (StateNode.id node) with
      | Throw e => Some (Throw e)
      | Ok stateNode =>
          let targets := getTransitionsFromNode stateNode in
          match nodeFromMap with
          | None => Some (Throw (TypeErrorUndefined (StateNode.id node)))
          | Some entry =>
              match
                reduceChildren
                  (fun childNode =>
                     makeSubStateFromNode fuel' childNode rootNode nodeMap)
                  rootNode (NodeEntry.children entry) []
              with
              | None => None
              | Some (Throw e) => Some (Throw e)
              | Some (Ok states) =>
                  Some (Ok (SubState.mk
                              (filter (fun s => truthy s = true) targets)
                              (filter (fun s => truthy s = true)
                                 (NodeEntry.sources entry))
                              states))
              end
          end
      end
  end.

(** [introspectMachine(machine)] *)
Definition introspectMachine (fuel : nat) (machine : Machine.t)
  : option (Result (IntrospectMachineResult.t Matches)) :=
  match traverse machine with
  | Throw e => Some (Throw e)
  | Ok s =>
      match makeSubStateFromNode fuel (Machine.root machine) machine (State.nodeMap s) with
      | None => None
      | Some (Throw e) => Some (Throw e)
      | Some (Ok subState) =>
          Some (Ok (IntrospectMachineResult.mk Matches
                      (map (fun entry =>
                              StateEdge.mk (fst entry) (NodeEntry.sources (snd entry)))
                         (Object_entries (State.nodeMap s)))
                      (getMatchesStates (Machine.root machine))
                      subState
                      (ItemMap.toDataShape (State.guards s))
                      (ItemMap.toDataShape (State.actions s))
                      (ItemMap.toDataShape (State.services s))
                      (ItemMap.toDataShape (State.activities s))
                      (ItemMap.toDataShape (State.delays s))))
      end
  end.

End Introspect.

(** ** The delayed transitions, built on the first read

    XState builds the delayed transitions of a state node on the first
    read of [node.after], which the first read of [node.transitions]
    makes too, and keeps them.  Building them pushes actions of XState's
    own onto the node: [xstate.send] actions onto [node.onEntry] and
    [xstate.cancel] actions onto [node.onExit].  The fields [onEntry] and
    [onExit] of a [StateNode.t] are the arrays before that.  A machine can
    reach [introspectMachine] with the delayed transitions of some of its
    nodes built, and a run builds those of every node that it visits: the
    second run on a machine does not read what the first run has read. *)

Section DelayedTransitions.

(** What building the delayed transitions of a node pushes onto its
    [onEntry] and onto its [onExit]. *)
Variables sendActions cancelActions : StateNode.t -> list ActionObject.t.

(** The node once its delayed transitions are built. *)
Definition builtNode (node : StateNode.t) : StateNode.t :=
  StateNode.mk (StateNode.id node) (StateNode.key node) (StateNode.path node)
    (StateNode.parent node) (StateNode.states node) (StateNode.transitions node)
    (StateNode.onEntry node ++ sendActions node)
    (StateNode.onExit node ++ cancelActions node)
    (StateNode.invoke node) (StateNode.activities node) (StateNode.after node).

(** The node as a read finds it, [built] being the ids of the nodes whose
    delayed transitions are built. *)
Definition nodeAsRead (built : list string) (node : StateNode.t) : StateNode.t :=
  if bool_decide (StateNode.id node ∈ built) then builtNode node else node.

(** Lines 154-276, the first pass: the visit of a node reads
    [node.onEntry] (line 169) before it reads [node.after] (lines 175 and
    199), which builds the delayed transitions of the node. *)
Fixpoint visitNodesFrom (built : list string) (nodes : list StateNode.t)
  (s : State.t) : Result State.t :=
  match nodes with
  | [] => Ok s
  | node :: rest =>
      let* s1 := visitNode (nodeAsRead built node) s in
      visitNodesFrom (StateNode.id node :: built) rest s1
  end.

(** Lines 120-294 on a machine that arrives with the delayed transitions
    of the nodes [built]: the second pass reads [onExit] and [onEntry] of
    nodes that the first pass has visited. *)
Definition traverseFrom (built : list string) (machine : Machine.t)
  : Result State.t :=
  let* nodes := allStateNodes machine in
  let* s1 := visitNodesFrom built nodes (initState machine nodes) in
  forEach visitNodeActions (map builtNode nodes) s1.

Context {Matches : Type}.
Variable getTransitionsFromNode : StateNode.t -> list string.
Variable getMatchesStates : StateNode.t -> Matches.

(** [introspectMachine(machine)] on such a machine: the helpers are called
    after the two passes, on nodes that the first pass has visited. *)
Definition introspectMachineFrom (fuel : nat) (built : list string)
  (machine : Machine.t) : option (Result (IntrospectMachineResult.t Matches)) :=
  match traverseFrom built machine with
  | Throw e => Some (Throw e)
  | Ok s =>
      match
        makeSubStateFromNode (fun node => getTransitionsFromNode (builtNode node))
          fuel (Machine.root machine) machine (State.nodeMap s)
      with
      | None => None
      | Some (Throw e) => Some (Throw e)
      | Some (Ok subState) =>
          Some (Ok (IntrospectMachineResult.mk Matches
                      (map (fun entry =>
                              StateEdge.mk (fst entry) (NodeEntry.sources (snd entry)))
                         (Object_entries (State.nodeMap s)))
                      (getMatchesStates (builtNode (Machine.root machine)))
                      subState
                      (ItemMap.toDataShape (State.guards s))
                      (ItemMap.toDataShape (State.actions s))
                      (ItemMap.toDataShape (State.services s))
                      (ItemMap.toDataShape (State.activities s))
                      (ItemMap.toDataShape (State.delays s))))
      end
  end.

End DelayedTransitions.

(** * Writing the typegen file: [packages/shared/src/writeToTypegenFile.ts]

    [writeToTypegenFile] is asynchronous and works through [prettier],
    [fs] and [console]; [getTypegenOutput] is defined elsewhere in the
    package.  What these calls do is given by a [World]: the outcome of
    each call, a value or an exception (for a call that the code awaits, a
    promise fulfilled or rejected).  The embedding returns the calls that
    change the file system or write to the console, in order, and how the
    promise of [writeToTypegenFile] settles. *)

Inductive Settled (Exn A : Type) : Type :=
| Fulfilled (a : A)
| Rejected (e : Exn).

Arguments Fulfilled {Exn A} a.
Arguments Rejected {Exn A} e.

(** A machine of the event: the field that the code reads, and the rest,
    which [getTypegenOutput] reads. *)
Module TypegenMachine.
Record t {Rest : Type} : Type := mk { hasTypesNode : bool; rest : Rest }.
Arguments t : clear implicits.
End TypegenMachine.

Module TypegenEvent.
Record t {Rest : Type} : Type := mk { machines : list (TypegenMachine.t Rest) }.
Arguments t : clear implicits.
End TypegenEvent.

Module World.
Record t {Config Exn Rest : Type} : Type := mk {
  (* [prettier.resolveConfig(filePath)]: options or [null] *)
  resolveConfig : string -> Settled Exn (option Config);
  getTypegenOutput : TypegenEvent.t Rest -> Settled Exn string;
  (* [prettier.format(source, {...config, parser: "typescript"})] *)
  format : string -> option Config -> Settled Exn string;
  (* [fs.writeFile(path, data)] *)
  writeFile : string -> string -> Settled Exn unit;
  (* [fs.unlink(path)] *)
  unlink : string -> Settled Exn unit
}.
Arguments t : clear implicits.
End World.

Inductive Effect {Exn : Type} : Type :=
| WriteFile (path data : string)
| Unlink (path : string)
| ConsoleLog (e : Exn).

Arguments Effect : clear implicits.

(** The alternatives of [/\.(cjs|mjs|js|tsx|ts|jsx)$/], in their order. *)
Definition extensions : list string := ["cjs"; "mjs"; "js"; "tsx"; "ts"; "jsx"].

(** The regular expression matches at the start of [s]: a dot, one of the
    alternatives, the end of the input. *)
Definition matchesHere (s : string) : bool :=
  match s with
  | EmptyString => false
  | String c rest => Ascii.eqb c "."%char && existsb (String.eqb rest) extensions
  end.

(** [s.replace(/\.(cjs|mjs|js|tsx|ts|jsx)$/, ".typegen.ts")]: the
    leftmost match is replaced, and the match reaches the end of [s]. *)
Fixpoint replaceExtension (s : string) : string :=
  if matchesHere s then ".typegen.ts"
  else match s with
       | EmptyString => EmptyString
       | String c rest => String c (replaceExtension rest)
       end.

Definition pathToSave (filePath : string) : string := replaceExtension filePath.

(** [writeToTypegenFile({filePath, event})] *)
Definition writeToTypegenFile {Config Exn Rest : Type}
  (world : World.t Config Exn Rest) (filePath : string)
  (event : TypegenEvent.t Rest) : list (Effect Exn) * Settled Exn unit :=
  match World.resolveConfig world filePath with
  | Rejected e => ([], Rejected e)
  | Fulfilled prettierConfig =>
      if existsb TypegenMachine.hasTypesNode (TypegenEvent.machines event)
      then
        match World.getTypegenOutput world event with
        | Rejected e => ([ConsoleLog e], Fulfilled tt)
        | Fulfilled typegenOutput =>
            match World.format world typegenOutput prettierConfig with
            | Rejected e => ([ConsoleLog e], Fulfilled tt)
            | Fulfilled data =>
                match World.writeFile world (pathToSave filePath) data with
                | Fulfilled _ =>
                    ([WriteFile (pathToSave filePath) data], Fulfilled tt)
                | Rejected e =>
                    ([WriteFile (pathToSave filePath) data; ConsoleLog e],
                     Fulfilled tt)
                end
            end
        end
      else
        match World.unlink world (pathToSave filePath) with
        | Fulfilled _ => ([Unlink (pathToSave filePath)], Fulfilled tt)
        | Rejected _ => ([Unlink (pathToSave filePath)], Fulfilled tt)
        end
  end.

(** ** The machines of the scenarios *)

Definition noOptions : MachineOptions.t := MachineOptions.mk ∅ ∅ ∅ ∅ ∅.

(** States [A] (initial) and [B] under the root [m]; [A] goes to [B] on
    [GO]; [B] has the entry action [notify] and invokes [fetchData]. *)
Definition invokeFetchData : InvokeDefinition.t :=
  InvokeDefinition.mk (SrcString "fetchData").

Definition goNodeB : StateNode.t :=
  StateNode.mk "m.B" "B" ["B"] (Some (ParentNode.mk ["m.A"])) [] []
    [ActionObject.mk "notify" false None] []
    [invokeFetchData] [ActivityDefinition.mk "xstate.invoke"] [].

Definition goNodeA : StateNode.t :=
  StateNode.mk "m.A" "A" ["A"] (Some (ParentNode.mk ["m.A"])) []
    [Transition.mk "GO" (Some [TargetNode.mk "m.B" [invokeFetchData]]) None []]
    [] [] [] [] [].

Definition goMachine : Machine.t :=
  Machine.mk (StateNode.mk "m" "m" [] None [goNodeA; goNodeB] [] [] [] [] [] [])
    noOptions.

(** The same scenario read with [A] as the root itself: [B] is the child
    of [A] and is not its initial state. *)
Definition goRootNodeB : StateNode.t :=
  StateNode.mk "A.B" "B" ["B"] (Some (ParentNode.mk ["A"])) [] []
    [ActionObject.mk "notify" false None] []
    [invokeFetchData] [ActivityDefinition.mk "xstate.invoke"] [].

Definition goRootMachine : Machine.t :=
  Machine.mk
    (StateNode.mk "A" "A" [] None [goRootNodeB]
       [Transition.mk "GO" (Some [TargetNode.mk "A.B" [invokeFetchData]]) None []]
       [] [] [] [] [])
    noOptions.

(** The root [A] alone, with the entry action [boot]. *)
Definition bootMachine : Machine.t :=
  Machine.mk
    (StateNode.mk "A" "A" [] None [] [] [ActionObject.mk "boot" false None]
       [] [] [] [])
    noOptions.

(** The root [A] alone, whose transition on [GO] targets a node [ghost]
    that the machine does not hold. *)
Definition danglingMachine : Machine.t :=
  Machine.mk
    (StateNode.mk "A" "A" [] None []
       [Transition.mk "GO" (Some [TargetNode.mk "ghost" []]) None []]
       [] [] [] [] [])
    noOptions.

(** The root [m], whose transition on [PICK] carries [xstate.choose] with
    two branches: guard [cond] with the action [one], guard [isReady] with
    the actions [two] and [three]. *)
Definition chooseAction : ActionObject.t :=
  ActionObject.mk "xstate.choose" false
    (Some [ChooseCondition.mk (GuardString "cond") (ActionsString "one");
           ChooseCondition.mk (GuardString "isReady")
             (ActionsArray [ActionString "two"; ActionOther; ActionString "three"])]).

Definition chooseTransition : Transition.t :=
  Transition.mk "PICK" None None [chooseAction].

Definition chooseRoot : StateNode.t :=
  StateNode.mk "m" "m" [] None [] [chooseTransition] [] [] [] [] [].

Definition chooseMachine : Machine.t := Machine.mk chooseRoot noOptions.

(** The root [m] with a delayed transition after the delay [SHORT], which
    the options implement as 0 milliseconds. *)
Definition zeroDelayMachine : Machine.t :=
  Machine.mk
    (StateNode.mk "m" "m" [] None [] [] [] [] [] []
       [DelayedTransition.mk (DelayString "SHORT")])
    (MachineOptions.mk ∅ ∅ ∅ ∅ {[ "SHORT" := ImplNumber 0 ]}).

(** A root whose only child carries the root's own id. *)
Definition echoMachine : Machine.t :=
  Machine.mk
    (StateNode.mk "m" "m" [] None
       [StateNode.mk "m" "a" ["a"] (Some (ParentNode.mk ["m"])) [] [] [] [] [] [] []]
       [] [] [] [] [] [])
    noOptions.

(** The root [m] with the entry actions [audit.log] and [boot]. *)
Definition dottedMachine : Machine.t :=
  Machine.mk
    (StateNode.mk "m" "m" [] None [] []
       [ActionObject.mk "audit.log" false None; ActionObject.mk "boot" false None]
       [] [] [] [])
    noOptions.

(** A root with the id [__proto__] and its child state [A]. *)
Definition protoMachine : Machine.t :=
  Machine.mk
    (StateNode.mk "__proto__" "__proto__" [] None
       [StateNode.mk "__proto__.A" "A" ["A"] (Some (ParentNode.mk ["__proto__.A"]))
          [] [] [] [] [] [] []]
       [] [] [] [] [] [])
    noOptions.

(** The helpers of the scenarios: no descriptor, no match. *)
Definition noTransitions (node : StateNode.t) : list string := [].
Definition noMatches (node : StateNode.t) : list string := [].

(** [JSON.stringify] of the state values of the scenarios. *)
Definition quotedA : string := String dquote ("A" +:+ String dquote EmptyString).
Definition quotedB : string := String dquote ("B" +:+ String dquote EmptyString).

(** A traffic light: [green] (initial) goes to [red] on [TIMER], guarded
    by [canGo], with the action [log]; [green] invokes [ticker], has the
    entry action [enterGreen] and the delay [GREEN_TIME]; [red] invokes
    [alarm], has the entry action [enterRed], the exit action [leaveRed]
    and the activity [beeping]. *)
Definition invokeAlarm : InvokeDefinition.t := InvokeDefinition.mk (SrcString "alarm").

Definition invokeTicker : InvokeDefinition.t :=
  InvokeDefinition.mk (SrcString "ticker").

Definition lightTarget : TargetNode.t := TargetNode.mk "light.red" [invokeAlarm].

Definition lightTimer : Transition.t :=
  Transition.mk "TIMER" (Some [lightTarget]) (Some (Guard.mk "canGo"))
    [ActionObject.mk "log" false None].

Definition lightGreen : StateNode.t :=
  StateNode.mk "light.green" "green" ["green"] (Some (ParentNode.mk ["light.green"]))
    [] [lightTimer] [ActionObject.mk "enterGreen" false None] []
    [invokeTicker] [ActivityDefinition.mk "xstate.invoke"]
    [DelayedTransition.mk (DelayString "GREEN_TIME")].

Definition lightRed : StateNode.t :=
  StateNode.mk "light.red" "red" ["red"] (Some (ParentNode.mk ["light.green"]))
    [] [] [ActionObject.mk "enterRed" false None]
    [ActionObject.mk "leaveRed" false None]
    [invokeAlarm]
    [ActivityDefinition.mk "beeping"; ActivityDefinition.mk "xstate.invoke"] [].

Definition lightMachine : Machine.t :=
  Machine.mk
    (StateNode.mk "light" "light" [] None [lightGreen; lightRed] [] [] [] [] [] [])
    noOptions.

(** ** Vocabulary of the statements *)

(** The triggering events that a registry holds for an item. *)
Definition eventsOf (this : ItemMap.t) (itemName : string) : list string :=
  match obj_get itemName (ItemMap.map this) with
  | Some data => ItemData.events data
  | None => []
  end.

(** The item is in the registry with this triggering event. *)
Definition registered (this : ItemMap.t) (itemName eventType : string) : Prop :=
  eventType ∈ eventsOf this itemName.

(** The item is in the registry. *)
Definition hasItem (this : ItemMap.t) (itemName : string) : Prop :=
  itemName ∈ obj_keys (ItemMap.map this).

(** The node is the one that the machine's lookup returns for its id:
    the traversal visits exactly these nodes. *)
Definition visited (machine : Machine.t) (node : StateNode.t) : Prop :=
  Machine.getStateNodeById machine (StateNode.id node) = Ok node.

(** [branch] is a branch of an [xstate.choose] action of the transition
    whose [conds] is an array. *)
Definition chooseBranchOf (transition : Transition.t) (branch : ChooseCondition.t)
  : Prop :=
  exists action conds,
    action ∈ Transition.actions transition
    /\ ActionObject.type action = "xstate.choose"
    /\ ActionObject.conds action = Some conds
    /\ branch ∈ conds.

(** [name] is a string-valued action of the branch. *)
Definition branchAction (branch : ChooseCondition.t) (name : string) : Prop :=
  match ChooseCondition.actions branch with
  | ActionsArray condActions => ActionString name ∈ condActions
  | ActionsString condActions => condActions = name
  | ActionsOther => False
  end.

(** The transition itself is guarded by [name], a name that is neither
    empty nor the name [cond]. *)
Definition transitionGuard (transition : Transition.t) (name : string) : Prop :=
  exists cond,
    Transition.cond transition = Some cond /\ Guard.name cond = name
    /\ name <> EmptyString /\ name <> "cond".

(** A branch of the transition is guarded by the string [name]. *)
Definition branchGuard (transition : Transition.t) (name : string) : Prop :=
  exists branch,
    chooseBranchOf transition branch
    /\ ChooseCondition.cond branch = GuardString name.

(** Every registration of the first registry is in the second. *)
Definition extends (this this' : ItemMap.t) : Prop :=
  forall itemName eventType,
    registered this itemName eventType -> registered this' itemName eventType.

(** The guards and the actions registered in [s] are registered in [s']. *)
Definition stateExtends (s s' : State.t) : Prop :=
  extends (State.guards s) (State.guards s')
  /\ extends (State.actions s) (State.actions s').

(** The string guard and the string actions of the branch are registered
    in [s] with the event of the transition. *)
Definition branchRegistered (transition : Transition.t)
  (branch : ChooseCondition.t) (s : State.t) : Prop :=
  (forall name,
     ChooseCondition.cond branch = GuardString name ->
     registered (State.guards s) name (Transition.eventType transition))
  /\ (forall name,
        branchAction branch name ->
        registered (State.actions s) name (Transition.eventType transition)).

(** A target of the transition has an id outside [ids]. *)
Definition danglingTarget (ids : list string) (transition : Transition.t) : Prop :=
  exists targets targetNode,
    Transition.target transition = Some targets
    /\ targetNode ∈ targets
    /\ TargetNode.id targetNode ∉ ids.


(** The lines of the five categories of a report. *)
Definition allLines {Matches : Type} (report : IntrospectMachineResult.t Matches)
  : list ItemLine.t :=
  DataShape.lines (IntrospectMachineResult.guards report)
  ++ DataShape.lines (IntrospectMachineResult.actions report)
  ++ DataShape.lines (IntrospectMachineResult.services report)
  ++ DataShape.lines (IntrospectMachineResult.activities report)
  ++ DataShape.lines (IntrospectMachineResult.delays report).

(** The ids of the edges of a report. *)
Definition edgeIds {Matches : Type} (report : IntrospectMachineResult.t Matches)
  : list string :=
  map StateEdge.id (IntrospectMachineResult.states report).

(** The five injected predicates [checkIfOptional] of a state. *)
Definition checksOf (s : State.t) : list (string -> bool) :=
  [ItemMap.checkIfOptional (State.guards s);
   ItemMap.checkIfOptional (State.actions s);
   ItemMap.checkIfOptional (State.services s);
   ItemMap.checkIfOptional (State.activities s);
   ItemMap.checkIfOptional (State.delays s)].

(** What the report of a category says of [required], for its table of
    implementations: a line is required when [Boolean(table[name])] is
    false, the category when one of its lines is. *)
Definition requiredBy (table : gmap string Implementation) (shape : DataShape.t)
  : Prop :=
  (forall line,
     line ∈ DataShape.lines shape ->
     ItemLine.required line = negb (Boolean (table !! ItemLine.name line)))
  /\ (DataShape.required shape = true <->
      exists line, line ∈ DataShape.lines shape /\ ItemLine.required line = true).

(** The node map records the event as a source of the state. *)
Definition hasSource (nodeMap : NodeMap) (stateId eventType : string) : Prop :=
  exists entry,
    obj_get stateId nodeMap = Some entry /\ eventType ∈ NodeEntry.sources entry.

(** Every source of the first node map is a source in the second. *)
Definition keepsSources (nodeMap nodeMap' : NodeMap) : Prop :=
  forall stateId eventType,
    hasSource nodeMap stateId eventType -> hasSource nodeMap' stateId eventType.

(** The error is a failed lookup in [nodeMap] of an id outside [ids]. *)
Definition failedLookupOutside (ids : list string) (e : Error) : Prop :=
  exists key, e = TypeErrorUndefined key /\ key ∉ ids.

(** The line of the report for one entry of a registry. *)
Definition lineOf (checkIfOptional : string -> bool) (entry : string * ItemData.t)
  : ItemLine.t :=
  ItemLine.mk (fst entry) (negb (checkIfOptional (fst entry)))
    (ItemData.events (snd entry))
    (filter (fun s => truthy s = true)
       (map JSON_stringify (ItemData.states (snd entry)))).

(** The five registries of [s'] are related to those of [s], each by the
    relation of its category. *)
Definition registriesRelatedBy (Rg Ra Rs Rv Rd : ItemMap.t -> ItemMap.t -> Prop)
  (s s' : State.t) : Prop :=
  Rg (State.guards s) (State.guards s')
  /\ Ra (State.actions s) (State.actions s')
  /\ Rs (State.services s) (State.services s')
  /\ Rv (State.activities s) (State.activities s')
  /\ Rd (State.delays s) (State.delays s').

(** The same relation for the five categories. *)
Definition registriesRelated (R : ItemMap.t -> ItemMap.t -> Prop) (s s' : State.t)
  : Prop :=
  registriesRelatedBy R R R R R s s'.

(** The second registry holds every item and every registration of the
    first. *)
Definition registryGrows (this this' : ItemMap.t) : Prop :=
  (forall itemName, hasItem this itemName -> hasItem this' itemName)
  /\ extends this this'.

(** The second registry has the property if the first has it. *)
Definition keepsProperty (P : ItemMap.t -> Prop) (this this' : ItemMap.t) : Prop :=
  P this -> P this'.

(** The report of a category has a line for the item. *)
Definition reportsItem (shape : DataShape.t) (itemName : string) : Prop :=
  exists line, line ∈ DataShape.lines shape /\ ItemLine.name line = itemName.

(** The report of a category has a line for the item, with the event
    among its triggering events. *)
Definition reportsEvent (shape : DataShape.t) (itemName eventType : string) : Prop :=
  exists line,
    line ∈ DataShape.lines shape /\ ItemLine.name line = itemName
    /\ eventType ∈ ItemLine.events line.

(** ** What can cause a registration

    The pairs of a name and an event that the code registers for one
    transition, and for one state node in the first pass. *)

(** The transition has [name] as its guard, or as the guard of a branch. *)
Definition guardCauseOf (transition : Transition.t) (name : string) : Prop :=
  transitionGuard transition name \/ branchGuard transition name.

(** The transition has an action of type [name] that is not an [xstate.]
    action, or a branch with the string action [name]. *)
Definition actionCauseOf (transition : Transition.t) (name : string) : Prop :=
  (exists action,
     action ∈ Transition.actions transition /\ ActionObject.type action = name
     /\ xstateRegex_test name = false)
  \/ (exists branch, chooseBranchOf transition branch /\ branchAction branch name).

(** A target of the transition invokes the service [name]. *)
Definition serviceCauseOf (transition : Transition.t) (name : string) : Prop :=
  exists targets targetNode service,
    Transition.target transition = Some targets
    /\ targetNode ∈ targets
    /\ service ∈ TargetNode.invoke targetNode
    /\ InvokeDefinition.src service = SrcString name.

Definition guardCauseAt (node : StateNode.t) (name eventType : string) : Prop :=
  exists transition,
    transition ∈ StateNode.transitions node
    /\ Transition.eventType transition = eventType
    /\ guardCauseOf transition name.

Definition actionCauseAt (node : StateNode.t) (name eventType : string) : Prop :=
  (eventType = "xstate.init" /\ isInitialOrRoot node = true
   /\ name <> EmptyString
   /\ exists action,
        action ∈ StateNode.onEntry node /\ ActionObject.type action = name)
  \/ (exists transition,
        transition ∈ StateNode.transitions node
        /\ Transition.eventType transition = eventType
        /\ actionCauseOf transition name).

Definition serviceCauseAt (node : StateNode.t) (name eventType : string) : Prop :=
  (eventType = "xstate.init" /\ isInitialOrRoot node = true
   /\ exists service,
        service ∈ StateNode.invoke node
        /\ InvokeDefinition.src service = SrcString name)
  \/ (exists transition,
        transition ∈ StateNode.transitions node
        /\ Transition.eventType transition = eventType
        /\ serviceCauseOf transition name).

Definition delayCauseAt (node : StateNode.t) (name eventType : string) : Prop :=
  eventType = "xstate.init" /\ isInitialOrRoot node = true
  /\ exists delayed,
       delayed ∈ StateNode.after node
       /\ DelayedTransition.delay delayed = DelayString name.

(** In the second pass: [name] is the type of an entry action of the
    node, and the event is a source of the node in [nodeMap]. *)
Definition entryCauseAt (nodeMap : NodeMap) (node : StateNode.t)
  (name eventType : string) : Prop :=
  (exists action,
     action ∈ StateNode.onEntry node /\ ActionObject.type action = name)
  /\ hasSource nodeMap (StateNode.id node) eventType.


(** The second registry has no registration beyond those of the first
    and the pairs of [C]. *)
Definition addsOnly (C : string -> string -> Prop) (this this' : ItemMap.t) : Prop :=
  forall itemName eventType,
    registered this' itemName eventType ->
    registered this itemName eventType \/ C itemName eventType.

Definition noPair (itemName eventType : string) : Prop := False.

(** The second node map has no source beyond those of the first and the
    pairs of [C]. *)
Definition sourcesFrom (C : string -> string -> Prop) (nodeMap nodeMap' : NodeMap)
  : Prop :=
  forall stateId eventType,
    hasSource nodeMap' stateId eventType ->
    hasSource nodeMap stateId eventType \/ C stateId eventType.

(** The transition has the event and a target with the id. *)
Definition targetsWith (transition : Transition.t) (stateId eventType : string)
  : Prop :=
  exists targets targetNode,
    Transition.target transition = Some targets
    /\ targetNode ∈ targets
    /\ TargetNode.id targetNode = stateId
    /\ Transition.eventType transition = eventType.

(** A transition of a state node of the machine has the event and a
    target with the id. *)
Definition sourceCause (machine : Machine.t) (stateId eventType : string) : Prop :=
  exists node transition,
    visited machine node
    /\ transition ∈ StateNode.transitions node
    /\ targetsWith transition stateId eventType.





(** ** Where an item occurs *)

Definition activityOccursAt (node : StateNode.t) (name : string) : Prop :=
  exists activity,
    activity ∈ StateNode.activities node
    /\ ActivityDefinition.type activity = name
    /\ name <> EmptyString /\ name <> "xstate.invoke".

Definition delayOccursAt (node : StateNode.t) (name : string) : Prop :=
  exists delayed,
    delayed ∈ StateNode.after node
    /\ DelayedTransition.delay delayed = DelayString name.

Definition serviceOccursAt (node : StateNode.t) (name : string) : Prop :=
  exists service,
    service ∈ StateNode.invoke node
    /\ InvokeDefinition.src service = SrcString name.

(** [name] is the type of an exit or entry action of the node that is
    not an [xstate.] action and has no inline [exec]. *)
Definition actionOccursAt (node : StateNode.t) (name : string) : Prop :=
  exists action,
    action ∈ StateNode.onExit node ++ StateNode.onEntry node
    /\ ActionObject.type action = name
    /\ xstateRegex_test name = false
    /\ ActionObject.exec action = false.

(** The state values that a registry holds for an item. *)
Definition statesOf (this : ItemMap.t) (itemName : string) : list StateValue :=
  match obj_get itemName (ItemMap.map this) with
  | Some data => ItemData.states data
  | None => []
  end.

(** The second registry has no state value beyond those of the first and
    the pairs of [P]. *)
Definition statesFrom (P : string -> StateValue -> Prop) (this this' : ItemMap.t)
  : Prop :=
  forall itemName v,
    v ∈ statesOf this' itemName -> v ∈ statesOf this itemName \/ P itemName v.

(** ** Where an item is carried

    The state nodes whose path the code passes for an item of each
    category. *)

(** A transition of the node has the guard, itself or in a branch. *)
Definition guardAt (node : StateNode.t) (name : string) : Prop :=
  exists transition,
    transition ∈ StateNode.transitions node /\ guardCauseOf transition name.

(** The node invokes the service, or a transition of the node has a
    target that invokes it. *)
Definition serviceAt (node : StateNode.t) (name : string) : Prop :=
  serviceOccursAt node name
  \/ exists transition,
       transition ∈ StateNode.transitions node /\ serviceCauseOf transition name.

(** The node has an exit or entry action of this type that is not an
    [xstate.] action and has no inline [exec]; or a transition of the node
    has the action, itself or in a branch; or the node has an entry action
    of this type and is an initial state or the root (the type not being
    empty) or the target of a transition. *)
Definition actionAt (machine : Machine.t) (node : StateNode.t) (name : string)
  : Prop :=
  actionOccursAt node name
  \/ (exists transition,
        transition ∈ StateNode.transitions node /\ actionCauseOf transition name)
  \/ exists action,
       action ∈ StateNode.onEntry node /\ ActionObject.type action = name
       /\ ((name <> EmptyString /\ isInitialOrRoot node = true)
           \/ exists eventType, sourceCause machine (StateNode.id node) eventType).

(** The state value is that of the path of a state node of the machine
    that carries the item in the sense of [carries]. *)
Definition carriedAt (machine : Machine.t) (carries : StateNode.t -> string -> Prop)
  (name : string) (v : StateValue) : Prop :=
  exists node,
    visited machine node /\ carries node name
    /\ v = pathToStateValue (StateNode.path node).

(** Every state value of the first registry is in the second. *)
Definition statesGrow (this this' : ItemMap.t) : Prop :=
  forall itemName v, v ∈ statesOf this itemName -> v ∈ statesOf this' itemName.

(** The report of a category has a line for the item that lists the
    state. *)
Definition reportsState (shape : DataShape.t) (itemName state : string) : Prop :=
  exists line,
    line ∈ DataShape.lines shape /\ ItemLine.name line = itemName
    /\ state ∈ ItemLine.states line.

(** The line shows the state of a state node that carries its item. *)
Definition statesCarried (machine : Machine.t)
  (carries : StateNode.t -> string -> Prop) (shape : DataShape.t) : Prop :=
  forall line state,
    line ∈ DataShape.lines shape ->
    state ∈ ItemLine.states line ->
    exists node,
      visited machine node /\ carries node (ItemLine.name line)
      /\ state = JSON_stringify (pathToStateValue (StateNode.path node)).

(** ** Vocabulary for [writeToTypegenFile] *)

(** [s.endsWith(suffix)] *)
Fixpoint endsWith (suffix s : string) : bool :=
  String.eqb s suffix
  || match s with
     | EmptyString => false
     | String _ rest => endsWith suffix rest
     end.

(** The path ends with a dot and one of the six extensions. *)
Definition hasListedExtension (filePath : string) : bool :=
  existsb (fun ext => endsWith ("." +:+ ext) filePath) extensions.

(** The paths that the calls to [fs] name. *)
Definition touchedPaths {Exn : Type} (effects : list (Effect Exn)) : list string :=
  flat_map
    (fun effect =>
       match effect with
       | WriteFile path _ => [path]
       | Unlink path => [path]
       | ConsoleLog _ => []
       end)
    effects.

(** What the console shows. *)
Definition logged {Exn : Type} (effects : list (Effect Exn)) : list Exn :=
  flat_map
    (fun effect =>
       match effect with
       | ConsoleLog e => [e]
       | _ => []
       end)
    effects.

(** A world for the scenarios, where the configuration of a path under
    [/locked] cannot be read, no file can be deleted, and the other calls
    succeed; the output for an event is the text [types]. *)
Definition scenarioWorld : World.t unit string unit :=
  World.mk unit string unit
    (fun filePath =>
       if String.prefix "/locked" filePath then Rejected "EACCES"
       else Fulfilled None)
    (fun event => Fulfilled "types")
    (fun source config => Fulfilled source)
    (fun path data => Fulfilled tt)
    (fun path => Rejected "ENOENT").

Definition typedEvent : TypegenEvent.t unit :=
  TypegenEvent.mk unit [TypegenMachine.mk unit false tt; TypegenMachine.mk unit true tt].

Definition untypedEvent : TypegenEvent.t unit :=
  TypegenEvent.mk unit [TypegenMachine.mk unit false tt].

(** The registry is related by [R] to the outcome of a call of
    [addEventToItem], of [addItem], with these arguments. *)
Definition calledEvent (R : ItemMap.t -> ItemMap.t -> Prop) (this' : ItemMap.t)
  (itemName eventType : string) (nodePath : list string) : Prop :=
  exists this, R (ItemMap.addEventToItem itemName eventType nodePath this) this'.

Definition calledItem (R : ItemMap.t -> ItemMap.t -> Prop) (this' : ItemMap.t)
  (itemName : string) (nodePath : list string) : Prop :=
  exists this, R (ItemMap.addItem itemName nodePath this) this'.

(** ** Vocabulary for the runs on built nodes *)

(** The entries of a registry that [toDataShape] lets through. *)
Definition visible (entries : list (string * ItemData.t))
  : list (string * ItemData.t) :=
  filter (fun entry => negb (hasDot (fst entry)) = true) entries.

(** Two registries with the same table and the same visible entries. *)
Definition sameLines (a b : ItemMap.t) : Prop :=
  ItemMap.checkIfOptional a = ItemMap.checkIfOptional b
  /\ visible (ItemMap.map a) = visible (ItemMap.map b).

(** Two states of a run that differ at most in the entries of the actions
    registry that [toDataShape] drops. *)
Definition sameButHidden (s t : State.t) : Prop :=
  State.guards s = State.guards t
  /\ sameLines (State.actions s) (State.actions t)
  /\ State.services s = State.services t
  /\ State.activities s = State.activities t
  /\ State.delays s = State.delays t
  /\ State.nodeMap s = State.nodeMap t.

Definition sameOutcome (r r' : Result State.t) : Prop :=
  match r, r' with
  | Ok s, Ok t => sameButHidden s t
  | Throw e, Throw e' => e = e'
  | _, _ => False
  end.

(** One [xstate.send] per delayed transition onto [onEntry], one
    [xstate.cancel] onto [onExit]. *)
Definition sendPerDelay (node : StateNode.t) : list ActionObject.t :=
  map (fun _ => ActionObject.mk "xstate.send" false None) (StateNode.after node).

Definition cancelPerDelay (node : StateNode.t) : list ActionObject.t :=
  map (fun _ => ActionObject.mk "xstate.cancel" false None) (StateNode.after node).

(** * Properties *)

(** ** Names with a dot *)

Lemma prefix_hasDot p s : String.prefix p s = true -> hasDot p = true -> hasDot s = true.
Proof.
  revert s. induction p as [|a p IH]; intros s; simpl; [discriminate|].
  destruct s as [|b s]; [destruct (Ascii.eqb a "."); discriminate|].
  simpl. destruct (ascii_dec a b) as [->|Hne]; [|discriminate].
  intros Hprefix. destruct (Ascii.eqb b "."); [reflexivity|]. now apply IH.
Qed.

(** A name without a dot is not an [xstate.] name. *)
Lemma hasDot_false_xstateRegex s : hasDot s = false -> xstateRegex_test s = false.
Proof.
  intros Hdot. unfold xstateRegex_test.
  destruct (String.prefix "xstate." s) eqn:Hprefix; [|reflexivity].
  apply prefix_hasDot in Hprefix; [congruence|reflexivity].
Qed.

(** ** Loops *)

Lemma forEach_app {A S : Type} (f : A -> S -> Result S) (l1 l2 : list A) (s : S) :
  forEach f (l1 ++ l2) s = let* s1 := forEach f l1 s in forEach f l2 s1.
Proof.
  revert s. induction l1 as [|x l1 IH]; intros s; simpl; [reflexivity|].
  destruct (f x s); simpl; auto.
Qed.

Lemma forEachPure_app {A S : Type} (f : A -> S -> S) (l1 l2 : list A) (s : S) :
  forEachPure f (l1 ++ l2) s = forEachPure f l2 (forEachPure f l1 s).
Proof. revert s. induction l1; intros s; simpl; auto. Qed.

(** A property that every call of the body keeps holds after the loop. *)
Lemma forEach_invariant {A S : Type} (f : A -> S -> Result S) (I : S -> Prop)
  (l : list A) :
  (forall x s s', x ∈ l -> I s -> f x s = Ok s' -> I s') ->
  forall s s', I s -> forEach f l s = Ok s' -> I s'.
Proof.
  induction l as [|x l IH]; intros Hf s s' Hs Hrun; simpl in Hrun.
  - congruence.
  - destruct (f x s) as [s1|e] eqn:Hx; simpl in Hrun; [|discriminate].
    eapply IH; [| |exact Hrun].
    + intros y t t' Hy. apply Hf. now right.
    + eapply Hf; [left|exact Hs|exact Hx].
Qed.

Lemma forEachPure_invariant {A S : Type} (f : A -> S -> S) (I : S -> Prop)
  (l : list A) :
  (forall x s, x ∈ l -> I s -> I (f x s)) ->
  forall s, I s -> I (forEachPure f l s).
Proof.
  induction l as [|x l IH]; intros Hf s Hs; simpl; [exact Hs|].
  apply IH.
  - intros y t Hy. apply Hf. now right.
  - apply Hf; [left|exact Hs].
Qed.

(** The body runs on every element: the loop splits around it. *)
Lemma forEach_elem {A S : Type} (f : A -> S -> Result S) (l : list A) (x : A)
  (s s' : S) :
  x ∈ l -> forEach f l s = Ok s' ->
  exists l1 l2 s1 s2,
    l = l1 ++ x :: l2 /\ forEach f l1 s = Ok s1 /\ f x s1 = Ok s2
    /\ forEach f l2 s2 = Ok s'.
Proof.
  intros Hx Hrun. apply list_elem_of_split in Hx as (l1 & l2 & ->).
  rewrite forEach_app in Hrun.
  destruct (forEach f l1 s) as [s1|e] eqn:H1; simpl in Hrun; [|discriminate].
  destruct (f x s1) as [s2|e] eqn:H2; simpl in Hrun; [|discriminate].
  exists l1, l2, s1, s2. auto.
Qed.

Lemma forEachPure_elem {A S : Type} (f : A -> S -> S) (l : list A) (x : A) (s : S) :
  x ∈ l ->
  exists l1 l2,
    l = l1 ++ x :: l2
    /\ forEachPure f l s = forEachPure f l2 (f x (forEachPure f l1 s)).
Proof.
  intros Hx. apply list_elem_of_split in Hx as (l1 & l2 & ->).
  exists l1, l2. split; [reflexivity|]. now rewrite forEachPure_app.
Qed.

(** A loop over a preorder: what one call brings, the later calls keep. *)
Lemma forEach_reaches {A S : Type} (f : A -> S -> Result S) (R : S -> S -> Prop)
  (P : S -> Prop) (l : list A) (x : A) (s s' : S) :
  (forall y t t', f y t = Ok t' -> R t t') ->
  (forall t, R t t) -> (forall t u v, R t u -> R u v -> R t v) ->
  (forall t u, R t u -> P t -> P u) ->
  (forall t t', f x t = Ok t' -> P t') ->
  x ∈ l -> forEach f l s = Ok s' -> P s'.
Proof.
  intros Hmono Hrefl Htrans Hup Hx Hin Hrun.
  destruct (forEach_elem f l x s s' Hin Hrun) as (l1 & l2 & s1 & s2 & _ & _ & H2 & H3).
  assert (R s2 s') as HR.
  { revert H3. apply (forEach_invariant f (R s2) l2); eauto. }
  eapply Hup; eauto.
Qed.

Lemma forEachPure_reaches {A S : Type} (f : A -> S -> S) (R : S -> S -> Prop)
  (P : S -> Prop) (l : list A) (x : A) (s : S) :
  (forall y t, R t (f y t)) ->
  (forall t, R t t) -> (forall t u v, R t u -> R u v -> R t v) ->
  (forall t u, R t u -> P t -> P u) ->
  (forall t, P (f x t)) ->
  x ∈ l -> P (forEachPure f l s).
Proof.
  intros Hmono Hrefl Htrans Hup Hx Hin.
  destruct (forEachPure_elem f l x s Hin) as (l1 & l2 & _ & ->).
  eapply Hup; [|apply Hx].
  apply (forEachPure_invariant f (R (f x (forEachPure f l1 s))) l2); eauto.
Qed.

(** ** Dictionaries *)

Section ObjFacts.
Context {V : Type}.
Implicit Types (o : list (string * V)) (k : string).

Lemma obj_keys_alter (f : V -> V) k o : obj_keys (obj_alter f k o) = obj_keys o.
Proof.
  unfold obj_keys. induction o as [|[k' v] o IH]; simpl; [reflexivity|].
  destruct (decide (k = k')); simpl; [reflexivity|]. now rewrite IH.
Qed.

Lemma obj_get_alter (f : V -> V) k k' o :
  obj_get k' (obj_alter f k o)
  = if decide (k = k') then option_map f (obj_get k o) else obj_get k' o.
Proof.
  induction o as [|[k0 v] o IH]; simpl.
  - now destruct (decide (k = k')).
  - repeat (case_decide; simplify_eq /=); done.
Qed.

Lemma obj_get_set k k' (v : V) o :
  obj_get k' (obj_set k v o) = if decide (k = k') then Some v else obj_get k' o.
Proof.
  induction o as [|[k0 v0] o IH]; simpl.
  - repeat (case_decide; simplify_eq /=); done.
  - repeat (case_decide; simplify_eq /=); done.
Qed.

Lemma obj_get_Some_key k o (v : V) : obj_get k o = Some v -> k ∈ obj_keys o.
Proof.
  unfold obj_keys. induction o as [|[k0 v0] o IH]; simpl; [discriminate|].
  destruct (decide (k = k0)) as [->|Hne]; intros H.
  - left.
  - right. auto.
Qed.

Lemma obj_get_None_key k o : obj_get k o = None -> k ∉ obj_keys o.
Proof.
  unfold obj_keys. induction o as [|[k0 v0] o IH]; simpl; intros H.
  - apply not_elem_of_nil.
  - destruct (decide (k = k0)) as [->|Hne]; [discriminate|].
    apply not_elem_of_cons. auto.
Qed.

Lemma obj_key_get k o : k ∈ obj_keys o -> exists v, obj_get k o = Some v.
Proof.
  intros Hk. destruct (obj_get k o) as [v|] eqn:H; [eauto|].
  now apply obj_get_None_key in H.
Qed.

Lemma obj_keys_set k (v : V) o :
  obj_keys (obj_set k v o)
  = if decide (k ∈ obj_keys o) then obj_keys o else obj_keys o ++ [k].
Proof.
  unfold obj_keys. induction o as [|[k0 v0] o IH]; simpl.
  - destruct (decide (k ∈ [])) as [H|H]; [|reflexivity].
    now apply elem_of_nil in H.
  - destruct (decide (k = k0)) as [->|Hne]; simpl.
    + destruct (decide (k0 ∈ k0 :: map fst o)) as [H|H]; [reflexivity|].
      exfalso. apply H. left.
    + rewrite IH.
      destruct (decide (k ∈ map fst o)) as [Hin|Hout];
        destruct (decide (k ∈ k0 :: map fst o)) as [H|H]; try reflexivity.
      * exfalso. apply H. now right.
      * apply elem_of_cons in H as [?|?]; congruence.
Qed.
End ObjFacts.

Lemma set_add_elem (x y : string) (s : list string) :
  y ∈ set_add x s <-> y = x \/ y ∈ s.
Proof.
  unfold set_add. destruct (decide (x ∈ s)) as [Hin|Hout].
  - split; [auto|]. intros [->|H]; auto.
  - rewrite elem_of_app, list_elem_of_singleton. tauto.
Qed.

(** ** The registry *)

Lemma checkIfOptional_addItem n p this :
  ItemMap.checkIfOptional (ItemMap.addItem n p this) = ItemMap.checkIfOptional this.
Proof. reflexivity. Qed.

Lemma checkIfOptional_addEventToItem n e p this :
  ItemMap.checkIfOptional (ItemMap.addEventToItem n e p this)
  = ItemMap.checkIfOptional this.
Proof. reflexivity. Qed.

Lemma eventsOf_addItem n p this n' :
  eventsOf (ItemMap.addItem n p this) n' = eventsOf this n'.
Proof.
  unfold eventsOf, ItemMap.addItem; simpl. rewrite obj_get_alter.
  destruct (decide (n = n')) as [->|Hne]; [|].
  - destruct (obj_get n' (ItemMap.map this)) as [d|] eqn:Hd.
    + now rewrite Hd.
    + rewrite obj_get_set, decide_True by reflexivity. reflexivity.
  - destruct (obj_get n (ItemMap.map this)); [reflexivity|].
    rewrite obj_get_set. now rewrite decide_False.
Qed.

Lemma eventsOf_addEventToItem n e p this n' :
  eventsOf (ItemMap.addEventToItem n e p this) n'
  = if decide (n = n') then set_add e (eventsOf this n) else eventsOf this n'.
Proof.
  unfold ItemMap.addEventToItem.
  rewrite <- (eventsOf_addItem n p this n), <- (eventsOf_addItem n p this n').
  set (this1 := ItemMap.addItem n p this).
  assert (exists d, obj_get n (ItemMap.map this1) = Some d) as [d Hd].
  { unfold this1, ItemMap.addItem; simpl. rewrite obj_get_alter, decide_True by reflexivity.
    destruct (obj_get n (ItemMap.map this)) as [d|] eqn:Hd.
    - rewrite Hd. simpl. eauto.
    - rewrite obj_get_set, decide_True by reflexivity. simpl. eauto. }
  clearbody this1. unfold eventsOf; simpl. rewrite obj_get_alter.
  destruct (decide (n = n')) as [<-|Hne]; [|reflexivity].
  now rewrite Hd.
Qed.

Lemma hasItem_addItem n p this n' :
  hasItem (ItemMap.addItem n p this) n' <-> n' = n \/ hasItem this n'.
Proof.
  unfold hasItem, ItemMap.addItem; simpl. rewrite obj_keys_alter.
  destruct (obj_get n (ItemMap.map this)) as [d|] eqn:Hd.
  - apply obj_get_Some_key in Hd. split; [auto|]. now intros [->|?].
  - apply obj_get_None_key in Hd. rewrite obj_keys_set, decide_False by exact Hd.
    rewrite elem_of_app, list_elem_of_singleton. tauto.
Qed.

Lemma hasItem_addEventToItem n e p this n' :
  hasItem (ItemMap.addEventToItem n e p this) n' <-> n' = n \/ hasItem this n'.
Proof.
  unfold ItemMap.addEventToItem, hasItem; simpl. rewrite obj_keys_alter.
  apply hasItem_addItem.
Qed.

Lemma registered_addItem n p this n' e' :
  registered (ItemMap.addItem n p this) n' e' <-> registered this n' e'.
Proof. unfold registered. now rewrite eventsOf_addItem. Qed.

Lemma registered_addEventToItem n e p this n' e' :
  registered (ItemMap.addEventToItem n e p this) n' e'
  <-> (n' = n /\ e' = e) \/ registered this n' e'.
Proof.
  unfold registered. rewrite eventsOf_addEventToItem.
  destruct (decide (n = n')) as [->|Hne].
  - rewrite set_add_elem. tauto.
  - split; [auto|]. intros [[-> _]|H]; [congruence|exact H].
Qed.

Lemma registered_addEventToItem_same n e p this :
  registered (ItemMap.addEventToItem n e p this) n e.
Proof. apply registered_addEventToItem. auto. Qed.

(** ** The passes only add registrations *)

Lemma extends_refl this : extends this this.
Proof. intros n e H. exact H. Qed.

Lemma extends_trans a b c : extends a b -> extends b c -> extends a c.
Proof. intros Hab Hbc n e H. auto. Qed.

Lemma extends_addItem n p this : extends this (ItemMap.addItem n p this).
Proof. intros n' e' H. now apply registered_addItem. Qed.

Lemma extends_addEventToItem n e p this :
  extends this (ItemMap.addEventToItem n e p this).
Proof. intros n' e' H. apply registered_addEventToItem. now right. Qed.

Lemma extends_forEachPure {A : Type} (f : A -> ItemMap.t -> ItemMap.t) l this :
  (forall x im, extends im (f x im)) -> extends this (forEachPure f l this).
Proof.
  intros Hf. apply (forEachPure_invariant f (extends this)).
  - intros x im _ H. eapply extends_trans; [exact H|apply Hf].
  - apply extends_refl.
Qed.

Lemma stateExtends_refl s : stateExtends s s.
Proof. split; apply extends_refl. Qed.

Lemma stateExtends_trans s t u :
  stateExtends s t -> stateExtends t u -> stateExtends s u.
Proof. intros [? ?] [? ?]. split; eapply extends_trans; eauto. Qed.

Lemma stateExtends_onGuards f s :
  extends (State.guards s) (f (State.guards s)) -> stateExtends s (State.onGuards f s).
Proof. intros H. split; [exact H|apply extends_refl]. Qed.

Lemma stateExtends_onActions f s :
  extends (State.actions s) (f (State.actions s)) ->
  stateExtends s (State.onActions f s).
Proof. intros H. split; [apply extends_refl|exact H]. Qed.

Lemma stateExtends_onServices f s : stateExtends s (State.onServices f s).
Proof. split; apply extends_refl. Qed.

Lemma stateExtends_onActivities f s : stateExtends s (State.onActivities f s).
Proof. split; apply extends_refl. Qed.

Lemma stateExtends_onDelays f s : stateExtends s (State.onDelays f s).
Proof. split; apply extends_refl. Qed.

(** What [State.onNodeMap] leaves as it is. *)
Lemma onNodeMap_Ok f s s' :
  State.onNodeMap f s = Ok s' ->
  exists nodeMap',
    f (State.nodeMap s) = Ok nodeMap'
    /\ s' = State.mk (State.guards s) (State.actions s) (State.services s)
              (State.activities s) (State.delays s) nodeMap'.
Proof.
  unfold State.onNodeMap. destruct (f (State.nodeMap s)) as [nm|e]; simpl; [|discriminate].
  intros [= <-]. eauto.
Qed.

Lemma stateExtends_onNodeMap f s s' :
  State.onNodeMap f s = Ok s' -> stateExtends s s'.
Proof. intros (nm & _ & ->)%onNodeMap_Ok. split; apply extends_refl. Qed.

Lemma stateExtends_forEachPure {A : Type} (f : A -> State.t -> State.t) l s :
  (forall x t, stateExtends t (f x t)) -> stateExtends s (forEachPure f l s).
Proof.
  intros Hf. apply (forEachPure_invariant f (stateExtends s)).
  - intros x t _ H. eapply stateExtends_trans; [exact H|apply Hf].
  - apply stateExtends_refl.
Qed.

Lemma stateExtends_forEach {A : Type} (f : A -> State.t -> Result State.t) l s s' :
  (forall x t t', f x t = Ok t' -> stateExtends t t') ->
  forEach f l s = Ok s' -> stateExtends s s'.
Proof.
  intros Hf. apply (forEach_invariant f (stateExtends s)).
  - intros x t t' _ H Hx. eapply stateExtends_trans; [exact H|eapply Hf, Hx].
  - apply stateExtends_refl.
Qed.

Lemma stateExtends_addInitEvents node s : stateExtends s (addInitEvents node s).
Proof.
  unfold addInitEvents.
  eapply stateExtends_trans; [|apply stateExtends_onDelays].
  eapply stateExtends_trans; [apply stateExtends_onServices|].
  apply stateExtends_onActions, extends_forEachPure.
  intros action im. destruct (truthy _); [apply extends_addEventToItem|apply extends_refl].
Qed.

Lemma stateExtends_addOccurrences node s : stateExtends s (addOccurrences node s).
Proof.
  unfold addOccurrences.
  eapply stateExtends_trans; [|apply stateExtends_onServices].
  eapply stateExtends_trans; [apply stateExtends_onActivities|].
  apply stateExtends_onDelays.
Qed.

Lemma stateExtends_addSources transition s s' :
  addSources transition s = Ok s' -> stateExtends s s'.
Proof.
  unfold addSources. destruct (Transition.target transition).
  - apply stateExtends_onNodeMap.
  - intros [= <-]. apply stateExtends_refl.
Qed.

Lemma stateExtends_addTransitionGuard node transition s :
  stateExtends s (addTransitionGuard node transition s).
Proof.
  unfold addTransitionGuard.
  destruct (Transition.cond transition) as [cond|]; [|apply stateExtends_refl].
  destruct (truthy _); [|apply stateExtends_refl].
  destruct (bool_decide _); [apply stateExtends_refl|].
  apply stateExtends_onGuards, extends_addEventToItem.
Qed.

Lemma stateExtends_addTargetInvokes node transition s :
  stateExtends s (addTargetInvokes node transition s).
Proof.
  unfold addTargetInvokes.
  destruct (Transition.target transition); [|apply stateExtends_refl].
  apply stateExtends_onServices.
Qed.

Lemma stateExtends_addChooseBranch node transition branch s :
  stateExtends s (addChooseBranch node transition branch s).
Proof.
  unfold addChooseBranch.
  eapply stateExtends_trans with
    (t := match ChooseCondition.cond branch with
          | GuardString cond => _
          | GuardOther => s
          end).
  - destruct (ChooseCondition.cond branch); [|apply stateExtends_refl].
    apply stateExtends_onGuards, extends_addEventToItem.
  - destruct (ChooseCondition.actions branch); [| |apply stateExtends_refl].
    + apply stateExtends_onActions, extends_forEachPure.
      intros [name|] im; [apply extends_addEventToItem|apply extends_refl].
    + apply stateExtends_onActions, extends_addEventToItem.
Qed.

Lemma stateExtends_addTransitionAction node transition action s :
  stateExtends s (addTransitionAction node transition action s).
Proof.
  unfold addTransitionAction.
  set (s1 := if negb _ then _ else s).
  assert (stateExtends s s1) as H1.
  { unfold s1. destruct (negb _); [|apply stateExtends_refl].
    apply stateExtends_onActions, extends_addEventToItem. }
  eapply stateExtends_trans; [exact H1|].
  destruct (bool_decide _); [|apply stateExtends_refl].
  destruct (ActionObject.conds action); [|apply stateExtends_refl].
  apply stateExtends_forEachPure. intros. apply stateExtends_addChooseBranch.
Qed.

Lemma stateExtends_visitTransition node transition s s' :
  visitTransition node transition s = Ok s' -> stateExtends s s'.
Proof.
  unfold visitTransition.
  destruct (addSources transition s) as [s1|e] eqn:H1; simpl; [|discriminate].
  intros [= <-].
  eapply stateExtends_trans; [eapply stateExtends_addSources, H1|].
  eapply stateExtends_trans; [apply stateExtends_addTransitionGuard|].
  eapply stateExtends_trans; [apply stateExtends_addTargetInvokes|].
  apply stateExtends_forEachPure. intros. apply stateExtends_addTransitionAction.
Qed.

Lemma stateExtends_visitNode node s s' :
  visitNode node s = Ok s' -> stateExtends s s'.
Proof.
  unfold visitNode.
  set (s1 := if isInitialOrRoot node then _ else s).
  assert (stateExtends s s1) as H1.
  { unfold s1. destruct (isInitialOrRoot node);
      [apply stateExtends_addInitEvents|apply stateExtends_refl]. }
  destruct (addChildren node s1) as [s2|e] eqn:H2; simpl; [|discriminate].
  intros H3.
  eapply stateExtends_trans; [exact H1|].
  eapply stateExtends_trans; [eapply stateExtends_onNodeMap, H2|].
  eapply stateExtends_trans; [apply stateExtends_addOccurrences|].
  eapply stateExtends_forEach; [|exact H3].
  intros. eapply stateExtends_visitTransition; eauto.
Qed.

Lemma stateExtends_visitNodeActions node s s' :
  visitNodeActions node s = Ok s' -> stateExtends s s'.
Proof.
  unfold visitNodeActions. intros H.
  eapply stateExtends_trans; [|eapply stateExtends_forEach; [|exact H]].
  - apply stateExtends_onActions, extends_forEachPure.
    intros action im. destruct (_ || _); [apply extends_refl|apply extends_addItem].
  - intros action t t'. unfold addEntrySources.
    destruct (obj_get _ _); [|discriminate].
    intros [= <-]. apply stateExtends_onActions, extends_forEachPure.
    intros. apply extends_addEventToItem.
Qed.

(** ** The lookup of state nodes *)

Lemma mapM_Ok_map {A B : Type} (f : A -> Result B) (g : B -> A) l ys :
  (forall x y, f x = Ok y -> g y = x) -> mapM f l = Ok ys -> map g ys = l.
Proof.
  intros Hg. revert ys. induction l as [|x l IH]; intros ys; simpl.
  - now intros [= <-].
  - destruct (f x) as [y|e] eqn:Hx; simpl; [|discriminate].
    destruct (mapM f l) as [ys'|e]; simpl; [|discriminate].
    intros [= <-]. simpl. f_equal; auto.
Qed.

Lemma mapM_Ok_elem {A B : Type} (f : A -> Result B) l ys y :
  mapM f l = Ok ys -> (y ∈ ys <-> exists x, x ∈ l /\ f x = Ok y).
Proof.
  revert ys. induction l as [|x l IH]; intros ys; simpl.
  - intros [= <-]. split.
    + intros H. now apply elem_of_nil in H.
    + intros (x & H & _). now apply elem_of_nil in H.
  - destruct (f x) as [y0|e] eqn:Hx; simpl; [|discriminate].
    destruct (mapM f l) as [ys'|e]; simpl; [|discriminate].
    intros [= <-]. rewrite elem_of_cons, (IH ys' eq_refl). split.
    + intros [->|(x' & H & Hf)]; [exists x|exists x']; split; auto; [left|now right].
    + intros (x' & H & Hf). apply elem_of_cons in H as [->|H].
      * left. congruence.
      * right. eauto.
Qed.

Lemma mapM_total {A B : Type} (f : A -> Result B) l :
  (forall x, x ∈ l -> exists y, f x = Ok y) -> exists ys, mapM f l = Ok ys.
Proof.
  induction l as [|x l IH]; intros Hf; simpl; [eauto|].
  destruct (Hf x) as [y ->]; [left|]. simpl.
  destruct IH as [ys ->]; [|simpl; eauto].
  intros x' Hx'. apply Hf. now right.
Qed.

Lemma idMap_Some machine stateId node :
  Machine.idMap machine stateId = Some node ->
  StateNode.id node = stateId
  /\ node ∈ flat_map StateNode.subtree (StateNode.states (Machine.root machine)).
Proof.
  unfold Machine.idMap. intros [Hin Hid]%find_some.
  apply bool_decide_eq_true in Hid. split; [exact Hid|].
  apply list_elem_of_In. now apply in_rev.
Qed.

Lemma idMap_None machine stateId node :
  Machine.idMap machine stateId = None ->
  node ∈ flat_map StateNode.subtree (StateNode.states (Machine.root machine)) ->
  StateNode.id node <> stateId.
Proof.
  unfold Machine.idMap. intros Hnone Hin Hid.
  apply list_elem_of_In, in_rev in Hin.
  pose proof (find_none _ _ Hnone _ Hin) as H. simpl in H.
  apply bool_decide_eq_false in H. auto.
Qed.

Lemma subtree_unfold node :
  StateNode.subtree node
  = node :: flat_map StateNode.subtree (StateNode.states node).
Proof. destruct node; reflexivity. Qed.

Lemma getStateNodeById_id machine stateId node :
  Machine.getStateNodeById machine stateId = Ok node -> StateNode.id node = stateId.
Proof.
  unfold Machine.getStateNodeById.
  destruct (decide _) as [->|Hne]; [now intros [= <-]|].
  destruct (Machine.idMap machine stateId) as [n|] eqn:H; [|discriminate].
  intros [= <-]. now apply idMap_Some in H.
Qed.

Lemma getStateNodeById_subtree machine stateId node :
  Machine.getStateNodeById machine stateId = Ok node ->
  node ∈ StateNode.subtree (Machine.root machine).
Proof.
  unfold Machine.getStateNodeById. rewrite subtree_unfold.
  destruct (decide _) as [->|Hne]; [intros [= <-]; left|].
  destruct (Machine.idMap machine stateId) as [n|] eqn:H; [|discriminate].
  intros [= <-]. right. now apply idMap_Some in H.
Qed.

Lemma getStateNodeById_total machine stateId :
  stateId ∈ Machine.stateIds machine ->
  exists node, Machine.getStateNodeById machine stateId = Ok node.
Proof.
  unfold Machine.stateIds, Machine.getStateNodeById.
  intros (node & Hid & Hin)%list_elem_of_In%in_map_iff.
  destruct (decide _) as [_|Hne]; [eauto|].
  destruct (Machine.idMap machine stateId) as [n|] eqn:H; [eauto|].
  exfalso. rewrite subtree_unfold in Hin. destruct Hin as [<-|Hin]; [congruence|].
  apply list_elem_of_In in Hin. now apply (idMap_None _ _ _ H) in Hin.
Qed.


(** The traversal visits the nodes that the lookup returns, and their ids
    are the ids of the machine. *)
Lemma allStateNodes_Ok machine :
  exists nodes,
    allStateNodes machine = Ok nodes
    /\ map StateNode.id nodes = Machine.stateIds machine
    /\ (forall node, node ∈ nodes <-> visited machine node).
Proof.
  unfold allStateNodes.
  destruct (mapM_total (Machine.getStateNodeById machine) (Machine.stateIds machine))
    as [nodes Hnodes].
  { intros. now apply getStateNodeById_total. }
  exists nodes. split; [exact Hnodes|]. split.
  - eapply mapM_Ok_map; [|exact Hnodes]. apply getStateNodeById_id.
  - intros node. rewrite (mapM_Ok_elem _ _ _ node Hnodes). unfold visited. split.
    + intros (i & _ & Hi). pose proof (getStateNodeById_id _ _ _ Hi) as Hid.
      now rewrite Hid.
    + intros H. exists (StateNode.id node). split; [|exact H].
      apply list_elem_of_In, in_map, list_elem_of_In. eapply getStateNodeById_subtree, H.
Qed.

Lemma traverse_Ok machine s :
  traverse machine = Ok s ->
  exists nodes s1,
    allStateNodes machine = Ok nodes
    /\ forEach visitNode nodes (initState machine nodes) = Ok s1
    /\ forEach visitNodeActions nodes s1 = Ok s.
Proof.
  unfold traverse.
  destruct (allStateNodes machine) as [nodes|e]; simpl; [|discriminate].
  destruct (forEach visitNode nodes _) as [s1|e] eqn:H1; simpl; [|discriminate].
  intros H2. eauto.
Qed.

(** ** The branches of [xstate.choose] are registered *)

Lemma branchRegistered_up transition branch s s' :
  stateExtends s s' -> branchRegistered transition branch s ->
  branchRegistered transition branch s'.
Proof.
  intros [Hg Ha] [H1 H2]. split; intros name H.
  - apply Hg, H1, H.
  - apply Ha, H2, H.
Qed.

Lemma addChooseBranch_registers node transition branch s :
  branchRegistered transition branch (addChooseBranch node transition branch s).
Proof.
  split; intros name H.
  - unfold addChooseBranch. rewrite H.
    destruct (ChooseCondition.actions branch); simpl;
      apply registered_addEventToItem_same.
  - unfold addChooseBranch, branchAction in *.
    destruct (ChooseCondition.actions branch) as [condActions|condActions|]; simpl.
    + apply (forEachPure_reaches _ extends
               (fun im => registered im name (Transition.eventType transition))
               condActions (ActionString name)); auto.
      * intros [n|] im; [apply extends_addEventToItem|apply extends_refl].
      * apply extends_refl.
      * apply extends_trans.
      * intros im. apply registered_addEventToItem_same.
    + subst. apply registered_addEventToItem_same.
    + contradiction.
Qed.

Lemma addTransitionAction_registers node transition action conds branch s :
  ActionObject.type action = "xstate.choose" ->
  ActionObject.conds action = Some conds ->
  branch ∈ conds ->
  branchRegistered transition branch (addTransitionAction node transition action s).
Proof.
  intros Htype Hconds Hin. unfold addTransitionAction.
  rewrite Htype, Hconds. rewrite bool_decide_eq_true_2 by reflexivity.
  apply (forEachPure_reaches _ stateExtends (branchRegistered transition branch)
           conds branch); auto.
  - intros. apply stateExtends_addChooseBranch.
  - apply stateExtends_refl.
  - apply stateExtends_trans.
  - intros t u. apply branchRegistered_up.
  - intros. apply addChooseBranch_registers.
Qed.

Lemma visitTransition_registers node transition branch s s' :
  chooseBranchOf transition branch ->
  visitTransition node transition s = Ok s' ->
  branchRegistered transition branch s'.
Proof.
  intros (action & conds & Hin & Htype & Hconds & Hbranch). unfold visitTransition.
  destruct (addSources transition s) as [s1|e]; simpl; [|discriminate].
  intros [= <-].
  apply (forEachPure_reaches _ stateExtends (branchRegistered transition branch)
           (Transition.actions transition) action); auto.
  - intros. apply stateExtends_addTransitionAction.
  - apply stateExtends_refl.
  - apply stateExtends_trans.
  - intros t u. apply branchRegistered_up.
  - intros. eapply addTransitionAction_registers; eauto.
Qed.

Lemma visitNode_registers node transition branch s s' :
  transition ∈ StateNode.transitions node ->
  chooseBranchOf transition branch ->
  visitNode node s = Ok s' ->
  branchRegistered transition branch s'.
Proof.
  intros Hin Hbranch. unfold visitNode.
  destruct (addChildren node _) as [s2|e]; simpl; [|discriminate].
  apply (forEach_reaches _ stateExtends (branchRegistered transition branch)
           (StateNode.transitions node) transition); auto.
  - intros. eapply stateExtends_visitTransition; eauto.
  - apply stateExtends_refl.
  - apply stateExtends_trans.
  - intros t u. apply branchRegistered_up.
  - intros. eapply visitTransition_registers; eauto.
Qed.

Lemma traverse_registers machine s node transition branch :
  traverse machine = Ok s ->
  visited machine node ->
  transition ∈ StateNode.transitions node ->
  chooseBranchOf transition branch ->
  branchRegistered transition branch s.
Proof.
  intros (nodes & s1 & Hnodes & H1 & H2)%traverse_Ok Hvisited Hin Hbranch.
  destruct (allStateNodes_Ok machine) as (nodes' & Hnodes' & _ & Hvis).
  rewrite Hnodes in Hnodes'. injection Hnodes' as <-.
  apply (branchRegistered_up transition branch s1).
  - eapply stateExtends_forEach; [|exact H2].
    intros. eapply stateExtends_visitNodeActions; eauto.
  - revert H1.
    apply (forEach_reaches _ stateExtends (branchRegistered transition branch)
             nodes node); auto.
    + intros. eapply stateExtends_visitNode; eauto.
    + apply stateExtends_refl.
    + apply stateExtends_trans.
    + intros t u. apply branchRegistered_up.
    + intros. eapply visitNode_registers; eauto.
    + now apply Hvis.
Qed.

(** ** A branch adds no other event *)


(** ** Where the names of the guards registry come from *)

Lemma guards_addChildren node s s' :
  addChildren node s = Ok s' -> State.guards s' = State.guards s.
Proof. intros (nm & _ & ->)%onNodeMap_Ok. reflexivity. Qed.

Lemma guards_addSources transition s s' :
  addSources transition s = Ok s' -> State.guards s' = State.guards s.
Proof.
  unfold addSources. destruct (Transition.target transition).
  - intros (nm & _ & ->)%onNodeMap_Ok. reflexivity.
  - now intros [= <-].
Qed.

Lemma guards_addTargetInvokes node transition s :
  State.guards (addTargetInvokes node transition s) = State.guards s.
Proof. unfold addTargetInvokes. now destruct (Transition.target transition). Qed.

Lemma guards_visitNodeActions node s s' :
  visitNodeActions node s = Ok s' -> State.guards s' = State.guards s.
Proof.
  unfold visitNodeActions.
  apply (forEach_invariant _ (fun t => State.guards t = State.guards s));
    [|reflexivity].
  intros action t t' _ IH. unfold addEntrySources.
  destruct (obj_get _ _); [|discriminate]. now intros [= <-].
Qed.

Lemma truthy_nonempty s : truthy s = true -> s <> EmptyString.
Proof. now destruct s. Qed.

Lemma addTransitionGuard_source node transition s name :
  hasItem (State.guards (addTransitionGuard node transition s)) name ->
  hasItem (State.guards s) name \/ transitionGuard transition name.
Proof.
  unfold addTransitionGuard, transitionGuard.
  destruct (Transition.cond transition) as [cond|]; [|auto].
  destruct (truthy (Guard.name cond)) eqn:Htruthy; [|auto].
  destruct (bool_decide (Guard.name cond = "cond")) eqn:Hcond; [auto|].
  simpl. rewrite hasItem_addEventToItem. intros [->|H]; [|auto].
  right. exists cond. repeat split.
  - now apply truthy_nonempty.
  - now apply bool_decide_eq_false in Hcond.
Qed.

Lemma addChooseBranch_source node transition branch s name :
  hasItem (State.guards (addChooseBranch node transition branch s)) name ->
  hasItem (State.guards s) name \/ ChooseCondition.cond branch = GuardString name.
Proof.
  unfold addChooseBranch.
  destruct (ChooseCondition.cond branch) as [g|];
    destruct (ChooseCondition.actions branch); simpl; auto;
    rewrite hasItem_addEventToItem; intros [->|H]; auto.
Qed.

Lemma addTransitionAction_source node transition action s name :
  action ∈ Transition.actions transition ->
  hasItem (State.guards (addTransitionAction node transition action s)) name ->
  hasItem (State.guards s) name \/ branchGuard transition name.
Proof.
  intros Hin. unfold addTransitionAction.
  set (s1 := if negb _ then _ else s).
  assert (State.guards s1 = State.guards s) as <-.
  { unfold s1. now destruct (negb _). }
  clearbody s1.
  destruct (bool_decide _) eqn:Htype; [|auto].
  apply bool_decide_eq_true in Htype.
  destruct (ActionObject.conds action) as [conds|] eqn:Hconds; [|auto].
  apply (forEachPure_invariant _
           (fun t => hasItem (State.guards t) name ->
                     hasItem (State.guards s1) name \/ branchGuard transition name));
    [|auto].
  intros branch t Hbranch IH [H|H]%addChooseBranch_source; [auto|].
  right. exists branch. split; [|exact H]. exists action, conds. auto.
Qed.

Lemma visitTransition_source node transition s s' name :
  visitTransition node transition s = Ok s' ->
  hasItem (State.guards s') name ->
  hasItem (State.guards s) name
  \/ transitionGuard transition name \/ branchGuard transition name.
Proof.
  unfold visitTransition.
  destruct (addSources transition s) as [s1|e] eqn:H1; simpl; [|discriminate].
  intros [= <-]. rewrite <- (guards_addSources _ _ _ H1).
  apply (forEachPure_invariant _
           (fun t => hasItem (State.guards t) name ->
                     hasItem (State.guards s1) name
                     \/ transitionGuard transition name
                     \/ branchGuard transition name)).
  - intros action t Hin IH [H|H]%addTransitionAction_source; auto.
  - rewrite guards_addTargetInvokes.
    intros [H|H]%addTransitionGuard_source; auto.
Qed.

Lemma visitNode_source node s s' name :
  visitNode node s = Ok s' ->
  hasItem (State.guards s') name ->
  hasItem (State.guards s) name
  \/ exists transition,
       transition ∈ StateNode.transitions node
       /\ (transitionGuard transition name \/ branchGuard transition name).
Proof.
  unfold visitNode.
  set (s1 := if isInitialOrRoot node then _ else s).
  assert (State.guards s1 = State.guards s) as <-.
  { unfold s1. now destruct (isInitialOrRoot node). }
  clearbody s1.
  destruct (addChildren node s1) as [s2|e] eqn:H2; simpl; [|discriminate].
  rewrite <- (guards_addChildren _ _ _ H2).
  apply (forEach_invariant _
           (fun t => hasItem (State.guards t) name ->
                     hasItem (State.guards s2) name
                     \/ exists transition,
                          transition ∈ StateNode.transitions node
                          /\ (transitionGuard transition name
                              \/ branchGuard transition name))).
  - intros transition t t' Hin IH Hstep Hitem.
    destruct (visitTransition_source _ _ _ _ _ Hstep Hitem) as [H|H]; eauto.
  - auto.
Qed.

Lemma hasItem_new checkIfOptional name : ~ hasItem (ItemMap.new checkIfOptional) name.
Proof. unfold hasItem; simpl. apply not_elem_of_nil. Qed.

Lemma traverse_guard_source machine s name :
  traverse machine = Ok s ->
  hasItem (State.guards s) name ->
  exists node transition,
    visited machine node
    /\ transition ∈ StateNode.transitions node
    /\ (transitionGuard transition name \/ branchGuard transition name).
Proof.
  intros (nodes & s1 & Hnodes & H1 & H2)%traverse_Ok.
  destruct (allStateNodes_Ok machine) as (nodes' & Hnodes' & _ & Hvis).
  rewrite Hnodes in Hnodes'. injection Hnodes' as <-.
  assert (State.guards s = State.guards s1) as ->.
  { revert H2. apply (forEach_invariant _ (fun t => State.guards t = State.guards s1));
      [|reflexivity].
    intros node t t' _ IH Hstep. now rewrite (guards_visitNodeActions _ _ _ Hstep). }
  revert H1.
  apply (forEach_invariant _
           (fun t => hasItem (State.guards t) name ->
                     exists node transition,
                       visited machine node
                       /\ transition ∈ StateNode.transitions node
                       /\ (transitionGuard transition name
                           \/ branchGuard transition name))).
  - intros node t t' Hin IH Hstep Hitem.
    destruct (visitNode_source _ _ _ _ Hstep Hitem) as [H|(transition & Ht & H)];
      [auto|].
    exists node, transition. split; [now apply Hvis|auto].
  - intros H. now apply hasItem_new in H.
Qed.

(** ** The keys of [nodeMap] and the failed lookups *)

Lemma forEach_error {A S : Type} (f : A -> S -> Result S) (l : list A) (s : S) e :
  forEach f l s = Throw e ->
  exists l1 x l2 s1,
    l = l1 ++ x :: l2 /\ forEach f l1 s = Ok s1 /\ f x s1 = Throw e.
Proof.
  revert s. induction l as [|x l IH]; intros s; simpl; [discriminate|].
  destruct (f x s) as [s1|e'] eqn:Hx; simpl.
  - intros (l1 & y & l2 & s2 & -> & H1 & H2)%IH.
    exists (x :: l1), y, l2, s2. simpl. rewrite Hx. simpl. auto.
  - intros [= ->]. exists [], x, l, s. auto.
Qed.

Lemma forEach_fails {A S : Type} (f : A -> S -> Result S) (I : S -> Prop)
  (l : list A) (x : A) :
  (forall y s s', I s -> f y s = Ok s' -> I s') ->
  (forall s s', I s -> f x s <> Ok s') ->
  x ∈ l -> forall s s', I s -> forEach f l s <> Ok s'.
Proof.
  intros Hkeep Hfail Hin s s' Hs Hrun.
  destruct (forEach_elem f l x s s' Hin Hrun) as (l1 & l2 & s1 & s2 & _ & H1 & H2 & _).
  apply (Hfail s1 s2); [|exact H2].
  revert H1. apply (forEach_invariant f I); eauto.
Qed.

Lemma addSource_keys stateId eventType nodeMap nodeMap' :
  addSource stateId eventType nodeMap = Ok nodeMap' ->
  obj_keys nodeMap' = obj_keys nodeMap.
Proof.
  unfold addSource. destruct (obj_get stateId nodeMap); [|discriminate].
  intros [= <-]. apply obj_keys_alter.
Qed.

Lemma addChild_keys stateId childId nodeMap nodeMap' :
  addChild stateId childId nodeMap = Ok nodeMap' ->
  obj_keys nodeMap' = obj_keys nodeMap.
Proof.
  unfold addChild. destruct (obj_get stateId nodeMap); [|discriminate].
  intros [= <-]. apply obj_keys_alter.
Qed.

Lemma addSource_error stateId eventType nodeMap e :
  addSource stateId eventType nodeMap = Throw e ->
  failedLookupOutside (obj_keys nodeMap) e.
Proof.
  unfold addSource. destruct (obj_get stateId nodeMap) eqn:H; [discriminate|].
  intros [= <-]. exists stateId. split; [reflexivity|now apply obj_get_None_key].
Qed.

Lemma addChild_error stateId childId nodeMap e :
  addChild stateId childId nodeMap = Throw e ->
  failedLookupOutside (obj_keys nodeMap) e.
Proof.
  unfold addChild. destruct (obj_get stateId nodeMap) eqn:H; [discriminate|].
  intros [= <-]. exists stateId. split; [reflexivity|now apply obj_get_None_key].
Qed.

Lemma forEach_keys {A : Type} (f : A -> NodeMap -> Result NodeMap) l nodeMap nodeMap' :
  (forall x a b, f x a = Ok b -> obj_keys b = obj_keys a) ->
  forEach f l nodeMap = Ok nodeMap' -> obj_keys nodeMap' = obj_keys nodeMap.
Proof.
  intros Hf. apply (forEach_invariant f (fun a => obj_keys a = obj_keys nodeMap));
    [|reflexivity].
  intros x a b _ IH Hx. rewrite <- IH. eapply Hf, Hx.
Qed.

(** A failing loop over [nodeMap] fails on a key outside it, when the
    calls keep the keys and fail only so. *)
Lemma forEach_keys_error {A : Type} (f : A -> NodeMap -> Result NodeMap) l nodeMap e :
  (forall x a b, f x a = Ok b -> obj_keys b = obj_keys a) ->
  (forall x a e', f x a = Throw e' -> failedLookupOutside (obj_keys a) e') ->
  forEach f l nodeMap = Throw e -> failedLookupOutside (obj_keys nodeMap) e.
Proof.
  intros Hkeys Herr (l1 & x & l2 & a & _ & H1 & H2)%forEach_error.
  rewrite <- (forEach_keys f l1 nodeMap a Hkeys H1). eapply Herr, H2.
Qed.

Lemma nodeMap_addChooseBranch node transition branch s :
  State.nodeMap (addChooseBranch node transition branch s) = State.nodeMap s.
Proof.
  unfold addChooseBranch.
  now destruct (ChooseCondition.cond branch), (ChooseCondition.actions branch).
Qed.

Lemma nodeMap_addTransitionAction node transition action s :
  State.nodeMap (addTransitionAction node transition action s) = State.nodeMap s.
Proof.
  unfold addTransitionAction.
  set (s1 := if negb _ then _ else s).
  assert (State.nodeMap s1 = State.nodeMap s) as <-.
  { unfold s1. now destruct (negb _). }
  clearbody s1.
  destruct (bool_decide _); [|reflexivity].
  destruct (ActionObject.conds action); [|reflexivity].
  apply (forEachPure_invariant _ (fun t => State.nodeMap t = State.nodeMap s1));
    [|reflexivity].
  intros branch t _ IH. now rewrite nodeMap_addChooseBranch.
Qed.

Lemma nodeMap_afterSources node transition s :
  State.nodeMap
    (forEachPure (addTransitionAction node transition)
       (Transition.actions transition)
       (addTargetInvokes node transition (addTransitionGuard node transition s)))
  = State.nodeMap s.
Proof.
  apply (forEachPure_invariant _ (fun t => State.nodeMap t = State.nodeMap s)).
  - intros action t _ IH. now rewrite nodeMap_addTransitionAction.
  - unfold addTargetInvokes, addTransitionGuard.
    destruct (Transition.target transition), (Transition.cond transition) as [c|];
      try reflexivity; destruct (truthy _); try reflexivity;
      now destruct (bool_decide _).
Qed.

Lemma addSources_keys transition s s' :
  addSources transition s = Ok s' ->
  obj_keys (State.nodeMap s') = obj_keys (State.nodeMap s).
Proof.
  unfold addSources. destruct (Transition.target transition) as [targets|].
  - intros (nm & H & ->)%onNodeMap_Ok. simpl.
    eapply forEach_keys; [|exact H]. intros x a b. apply addSource_keys.
  - now intros [= <-].
Qed.

Lemma onNodeMap_Throw f s e :
  State.onNodeMap f s = Throw e -> f (State.nodeMap s) = Throw e.
Proof.
  unfold State.onNodeMap. destruct (f (State.nodeMap s)); simpl; congruence.
Qed.

Lemma addSources_error transition s e :
  addSources transition s = Throw e ->
  failedLookupOutside (obj_keys (State.nodeMap s)) e.
Proof.
  unfold addSources. destruct (Transition.target transition) as [targets|];
    [|discriminate].
  intros H%onNodeMap_Throw. eapply forEach_keys_error; [| |exact H].
  - intros x a b. apply addSource_keys.
  - intros x a e'. apply addSource_error.
Qed.

Lemma visitTransition_keys node transition s s' :
  visitTransition node transition s = Ok s' ->
  obj_keys (State.nodeMap s') = obj_keys (State.nodeMap s).
Proof.
  unfold visitTransition.
  destruct (addSources transition s) as [s1|e] eqn:H1; simpl; [|discriminate].
  intros [= <-]. rewrite nodeMap_afterSources. eapply addSources_keys, H1.
Qed.

Lemma visitTransition_error node transition s e :
  visitTransition node transition s = Throw e ->
  failedLookupOutside (obj_keys (State.nodeMap s)) e.
Proof.
  unfold visitTransition.
  destruct (addSources transition s) as [s1|e'] eqn:H1; simpl; [discriminate|].
  intros [= <-]. eapply addSources_error, H1.
Qed.

Lemma addChildren_keys node s s' :
  addChildren node s = Ok s' ->
  obj_keys (State.nodeMap s') = obj_keys (State.nodeMap s).
Proof.
  intros (nm & H & ->)%onNodeMap_Ok. simpl.
  eapply forEach_keys; [|exact H]. intros x a b. apply addChild_keys.
Qed.

Lemma addChildren_error node s e :
  addChildren node s = Throw e ->
  failedLookupOutside (obj_keys (State.nodeMap s)) e.
Proof.
  intros H%onNodeMap_Throw. eapply forEach_keys_error; [| |exact H].
  - intros x a b. apply addChild_keys.
  - intros x a e'. apply addChild_error.
Qed.

Lemma nodeMap_beforeChildren node s :
  State.nodeMap (if isInitialOrRoot node then addInitEvents node s else s)
  = State.nodeMap s.
Proof. now destruct (isInitialOrRoot node). Qed.

Lemma visitNode_keys node s s' :
  visitNode node s = Ok s' ->
  obj_keys (State.nodeMap s') = obj_keys (State.nodeMap s).
Proof.
  unfold visitNode.
  destruct (addChildren node _) as [s2|e] eqn:H2; simpl; [|discriminate].
  apply addChildren_keys in H2. rewrite nodeMap_beforeChildren in H2.
  rewrite <- H2.
  apply (forEach_invariant _
           (fun t => obj_keys (State.nodeMap t) = obj_keys (State.nodeMap s2)));
    [|reflexivity].
  intros transition t t' _ IH Hstep. rewrite <- IH.
  eapply visitTransition_keys, Hstep.
Qed.

Lemma visitNode_error node s e :
  visitNode node s = Throw e ->
  failedLookupOutside (obj_keys (State.nodeMap s)) e.
Proof.
  unfold visitNode.
  destruct (addChildren node _) as [s2|e'] eqn:H2; simpl.
  - apply addChildren_keys in H2. rewrite nodeMap_beforeChildren in H2.
    rewrite <- H2.
    intros (l1 & x & l2 & t & _ & H3 & H4)%forEach_error.
    assert (obj_keys (State.nodeMap t) = obj_keys (State.nodeMap s2)) as <-.
    { revert H3.
      apply (forEach_invariant _
               (fun t => obj_keys (State.nodeMap t) = obj_keys (State.nodeMap s2)));
        [|reflexivity].
      intros transition u u' _ IH Hstep. rewrite <- IH.
      eapply visitTransition_keys, Hstep. }
    eapply visitTransition_error, H4.
  - intros [= <-]. apply addChildren_error in H2.
    now rewrite nodeMap_beforeChildren in H2.
Qed.

(** The second pass leaves [nodeMap] as it is. *)
Lemma visitNodeActions_nodeMap node s s' :
  visitNodeActions node s = Ok s' -> State.nodeMap s' = State.nodeMap s.
Proof.
  unfold visitNodeActions.
  apply (forEach_invariant _ (fun t => State.nodeMap t = State.nodeMap s));
    [|reflexivity].
  intros action t t' _ IH. unfold addEntrySources.
  destruct (obj_get _ _); [|discriminate]. now intros [= <-].
Qed.

Lemma visitNodeActions_error node s e :
  visitNodeActions node s = Throw e ->
  failedLookupOutside (obj_keys (State.nodeMap s)) e.
Proof.
  unfold visitNodeActions.
  intros (l1 & x & l2 & t & _ & H1 & H2)%forEach_error.
  assert (State.nodeMap t = State.nodeMap s) as <-.
  { revert H1.
    apply (forEach_invariant _ (fun t => State.nodeMap t = State.nodeMap s));
      [|reflexivity].
    intros action u u' _ IH. unfold addEntrySources.
    destruct (obj_get _ _); [|discriminate]. now intros [= <-]. }
  unfold addEntrySources in H2.
  destruct (obj_get _ _) eqn:Hget; [discriminate|].
  injection H2 as <-. eexists. split; [reflexivity|now apply obj_get_None_key].
Qed.

Lemma initNodeMap_from nodes nodeMap0 :
  let nodeMap :=
    forEachPure
      (fun node nodeMap => obj_set (StateNode.id node) (NodeEntry.mk [] []) nodeMap)
      nodes nodeMap0 in
  (NoDup (obj_keys nodeMap0) -> NoDup (obj_keys nodeMap))
  /\ (forall i, i ∈ obj_keys nodeMap
                <-> i ∈ obj_keys nodeMap0 \/ i ∈ map StateNode.id nodes).
Proof.
  revert nodeMap0. induction nodes as [|node nodes IH]; intros nodeMap0; simpl.
  - split; [auto|]. intros i. rewrite elem_of_nil. tauto.
  - destruct (IH (obj_set (StateNode.id node) (NodeEntry.mk [] []) nodeMap0))
      as (IH1 & IH2).
    rewrite obj_keys_set in IH1, IH2.
    destruct (decide (StateNode.id node ∈ obj_keys nodeMap0)) as [Hin|Hout].
    + split; [exact IH1|].
      intros i. rewrite IH2, elem_of_cons. split; [tauto|].
      intros [H|[->|H]]; auto.
    + split.
      * intros Hnodup. apply IH1. apply NoDup_app. split; [exact Hnodup|].
        split; [|apply NoDup_singleton].
        intros i Hi ->%list_elem_of_singleton. contradiction.
      * intros i. rewrite IH2, elem_of_app, list_elem_of_singleton, elem_of_cons.
        tauto.
Qed.

Lemma initNodeMap_keys nodes :
  NoDup (obj_keys (initNodeMap nodes))
  /\ (forall i, i ∈ obj_keys (initNodeMap nodes) <-> i ∈ map StateNode.id nodes).
Proof.
  destruct (initNodeMap_from nodes []) as (H1 & H2). split.
  - apply H1. apply NoDup_nil_2.
  - intros i. rewrite (H2 i). simpl. rewrite elem_of_nil. tauto.
Qed.

Lemma initNodeMap_entry nodes stateId entry :
  obj_get stateId (initNodeMap nodes) = Some entry -> entry = NodeEntry.mk [] [].
Proof.
  unfold initNodeMap. revert entry.
  apply (forEachPure_invariant _
           (fun nodeMap => forall entry,
                obj_get stateId nodeMap = Some entry -> entry = NodeEntry.mk [] [])).
  - intros node nodeMap _ IH entry. rewrite obj_get_set.
    destruct (decide _); [congruence|auto].
  - discriminate.
Qed.

(** The keys of [nodeMap] stay those that [initNodeMap] set, and a run
    that throws has looked up a key outside them. *)
Lemma passes_keys nodes s0 :
  match forEach visitNode nodes s0 with
  | Ok s1 =>
      obj_keys (State.nodeMap s1) = obj_keys (State.nodeMap s0)
      /\ match forEach visitNodeActions nodes s1 with
         | Ok s => State.nodeMap s = State.nodeMap s1
         | Throw e => failedLookupOutside (obj_keys (State.nodeMap s0)) e
         end
  | Throw e => failedLookupOutside (obj_keys (State.nodeMap s0)) e
  end.
Proof.
  assert (forall l t t',
            forEach visitNode l t = Ok t' ->
            obj_keys (State.nodeMap t') = obj_keys (State.nodeMap t)) as Hkeys1.
  { intros l t t'.
    apply (forEach_invariant _
             (fun u => obj_keys (State.nodeMap u) = obj_keys (State.nodeMap t)));
      [|reflexivity].
    intros node u u' _ IH Hstep. rewrite <- IH. eapply visitNode_keys, Hstep. }
  assert (forall l t t',
            forEach visitNodeActions l t = Ok t' ->
            State.nodeMap t' = State.nodeMap t) as Hkeys2.
  { intros l t t'.
    apply (forEach_invariant _ (fun u => State.nodeMap u = State.nodeMap t));
      [|reflexivity].
    intros node u u' _ IH Hstep. rewrite <- IH. eapply visitNodeActions_nodeMap, Hstep. }
  destruct (forEach visitNode nodes s0) as [s1|e] eqn:H1.
  - split; [eapply Hkeys1, H1|].
    destruct (forEach visitNodeActions nodes s1) as [s|e] eqn:H2.
    + eapply Hkeys2, H2.
    + apply forEach_error in H2 as (l1 & x & l2 & t & _ & H3 & H4).
      rewrite <- (Hkeys1 _ _ _ H1), <- (Hkeys2 _ _ _ H3).
      eapply visitNodeActions_error, H4.
  - apply forEach_error in H1 as (l1 & x & l2 & t & _ & H3 & H4).
    rewrite <- (Hkeys1 _ _ _ H3). eapply visitNode_error, H4.
Qed.

Lemma traverse_keys machine :
  match traverse machine with
  | Ok s =>
      NoDup (obj_keys (State.nodeMap s))
      /\ (forall i, i ∈ obj_keys (State.nodeMap s) <-> i ∈ Machine.stateIds machine)
  | Throw e => failedLookupOutside (Machine.stateIds machine) e
  end.
Proof.
  unfold traverse.
  destruct (allStateNodes_Ok machine) as (nodes & -> & Hids & _). simpl.
  pose proof (passes_keys nodes (initState machine nodes)) as H.
  destruct (initNodeMap_keys nodes) as (K1 & K2). rewrite Hids in K2.
  assert (forall e, failedLookupOutside (obj_keys (initNodeMap nodes)) e ->
                    failedLookupOutside (Machine.stateIds machine) e) as Hout.
  { intros e (key & -> & Hkey). exists key. split; [reflexivity|].
    now rewrite <- K2. }
  destruct (forEach visitNode nodes _) as [s1|e]; simpl; [|auto].
  destruct H as [Hk1 H].
  destruct (forEach visitNodeActions nodes s1) as [s|e]; [|auto].
  rewrite H, Hk1. simpl. auto.
Qed.

(** ** A dangling target stops the first pass *)

Lemma addSources_dangling transition s s' :
  danglingTarget (obj_keys (State.nodeMap s)) transition ->
  addSources transition s <> Ok s'.
Proof.
  intros (targets & targetNode & Htarget & Hin & Hout) Hrun.
  unfold addSources in Hrun. rewrite Htarget in Hrun.
  apply onNodeMap_Ok in Hrun as (nm & Hrun & _). revert Hrun.
  apply (forEach_fails _ (fun a => obj_keys a = obj_keys (State.nodeMap s))
           targets targetNode); auto.
  - intros y a b IH Hy. rewrite <- IH. eapply addSource_keys, Hy.
  - intros a b Ha. unfold addSource.
    destruct (obj_get _ a) eqn:Hget; [|discriminate].
    apply obj_get_Some_key in Hget. congruence.
Qed.

Lemma visitTransition_dangling node transition s s' :
  danglingTarget (obj_keys (State.nodeMap s)) transition ->
  visitTransition node transition s <> Ok s'.
Proof.
  intros Hdangling. unfold visitTransition.
  destruct (addSources transition s) as [s1|e] eqn:H1; simpl; [|discriminate].
  now apply addSources_dangling in H1.
Qed.

Lemma visitNode_dangling node transition s s' :
  transition ∈ StateNode.transitions node ->
  danglingTarget (obj_keys (State.nodeMap s)) transition ->
  visitNode node s <> Ok s'.
Proof.
  intros Hin Hdangling. unfold visitNode.
  destruct (addChildren node _) as [s2|e] eqn:H2; simpl; [|discriminate].
  apply addChildren_keys in H2. rewrite nodeMap_beforeChildren in H2.
  apply (forEach_fails _
           (fun t => obj_keys (State.nodeMap t) = obj_keys (State.nodeMap s))
           (StateNode.transitions node) transition); auto.
  - intros y t t' IH Hy. rewrite <- IH. eapply visitTransition_keys, Hy.
  - intros t t' Ht. apply visitTransition_dangling. now rewrite Ht.
Qed.

Lemma traverse_dangling machine node transition s :
  visited machine node ->
  transition ∈ StateNode.transitions node ->
  danglingTarget (Machine.stateIds machine) transition ->
  traverse machine <> Ok s.
Proof.
  intros Hvisited Hin (targets & targetNode & Htarget & Htin & Hout).
  intros (nodes & s1 & Hnodes & H1 & _)%traverse_Ok.
  destruct (allStateNodes_Ok machine) as (nodes' & Hnodes' & Hids & Hvis).
  rewrite Hnodes in Hnodes'. injection Hnodes' as <-.
  destruct (initNodeMap_keys nodes) as (_ & K2). rewrite Hids in K2.
  revert H1.
  apply (forEach_fails _
           (fun t => obj_keys (State.nodeMap t) = obj_keys (initNodeMap nodes))
           nodes node); auto.
  - intros y t t' IH Hy. rewrite <- IH. eapply visitNode_keys, Hy.
  - intros t t' Ht. apply (visitNode_dangling node transition); [exact Hin|].
    exists targets, targetNode. rewrite Ht, K2. auto.
  - now apply Hvis.
Qed.

(** ** The recorded children are child states *)






(** ** The ownership tree *)







(** ** The substate tree builder *)

Lemma reduceChildren_mono (build build' : StateNode.t -> option (Result SubState.t))
  rootNode children obj r :
  (forall child r', build child = Some r' -> build' child = Some r') ->
  reduceChildren build rootNode children obj = Some r ->
  reduceChildren build' rootNode children obj = Some r.
Proof.
  intros Hbuild. revert obj. induction children as [|child rest IH]; intros obj; simpl.
  - auto.
  - destruct (Machine.getStateNodeById rootNode child) as [childNode|e]; [|auto].
    destruct (build childNode) as [[sub|e]|] eqn:Hb; [| |discriminate].
    + rewrite (Hbuild _ _ Hb). apply IH.
    + now rewrite (Hbuild _ _ Hb).
Qed.


Section TreeBuilder.
Variable getTransitionsFromNode : StateNode.t -> list string.

(** A larger budget gives the same outcome. *)
Lemma makeSubStateFromNode_mono fuel fuel' node rootNode nodeMap r :
  fuel <= fuel' ->
  makeSubStateFromNode getTransitionsFromNode fuel node rootNode nodeMap = Some r ->
  makeSubStateFromNode getTransitionsFromNode fuel' node rootNode nodeMap = Some r.
Proof.
  revert fuel' node r. induction fuel as [|fuel IH]; intros fuel' node r Hle; simpl.
  - discriminate.
  - destruct fuel' as [|fuel']; [lia|]. simpl.
    destruct (Machine.getStateNodeById rootNode (StateNode.id node)); [|auto].
    destruct (obj_get (StateNode.id node) nodeMap) as [entry|]; [|auto].
    destruct (reduceChildren _ rootNode (NodeEntry.children entry) [])
      as [states|] eqn:Hreduce; [|discriminate].
    erewrite reduceChildren_mono; [|
      |exact Hreduce]; [auto|].
    intros child r'. apply IH. lia.
Qed.

(** Two budgets that both suffice give the same outcome. *)
Lemma makeSubStateFromNode_agree fuel fuel' node rootNode nodeMap r r' :
  makeSubStateFromNode getTransitionsFromNode fuel node rootNode nodeMap = Some r ->
  makeSubStateFromNode getTransitionsFromNode fuel' node rootNode nodeMap = Some r' ->
  r = r'.
Proof.
  intros H H'.
  apply (makeSubStateFromNode_mono _ (Nat.max fuel fuel')) in H; [|lia].
  apply (makeSubStateFromNode_mono _ (Nat.max fuel fuel')) in H'; [|lia].
  congruence.
Qed.

End TreeBuilder.

(** ** The report of a registry *)

Lemma mapEntries_spec checkIfOptional entries isRequiredInTotal :
  ItemMap.mapEntries checkIfOptional entries isRequiredInTotal
  = (map (lineOf checkIfOptional) entries,
     isRequiredInTotal
     || existsb (fun entry => negb (checkIfOptional (fst entry))) entries).
Proof.
  revert isRequiredInTotal.
  induction entries as [|[name data] rest IH]; intros flag; simpl.
  - now rewrite orb_false_r.
  - rewrite IH. unfold lineOf at 1. simpl. f_equal.
    destruct (checkIfOptional name), flag; reflexivity.
Qed.

Lemma toDataShape_spec this :
  ItemMap.toDataShape this
  = let entries :=
      filter (fun entry => negb (hasDot (fst entry)) = true) (ItemMap.map this) in
    DataShape.mk (map (lineOf (ItemMap.checkIfOptional this)) entries)
      (existsb (fun entry => negb (ItemMap.checkIfOptional this (fst entry))) entries).
Proof. unfold ItemMap.toDataShape. now rewrite mapEntries_spec. Qed.

Lemma toDataShape_line this line :
  line ∈ DataShape.lines (ItemMap.toDataShape this) <->
  exists entry,
    entry ∈ ItemMap.map this /\ hasDot (fst entry) = false
    /\ line = lineOf (ItemMap.checkIfOptional this) entry.
Proof.
  rewrite toDataShape_spec. simpl. rewrite list_elem_of_In, in_map_iff. split.
  - intros (entry & <- & Hin). apply list_elem_of_In, list_elem_of_filter in Hin as [Hdot Hin].
    exists entry. split; [exact Hin|]. split; [|reflexivity].
    now apply negb_true_iff in Hdot.
  - intros (entry & Hin & Hdot & ->). exists entry. split; [reflexivity|].
    apply list_elem_of_In, list_elem_of_filter. split; [|exact Hin].
    now apply negb_true_iff.
Qed.

Lemma toDataShape_no_dot this line :
  line ∈ DataShape.lines (ItemMap.toDataShape this) ->
  hasDot (ItemLine.name line) = false.
Proof. intros (entry & _ & Hdot & ->)%toDataShape_line. exact Hdot. Qed.

Lemma toDataShape_required this :
  DataShape.required (ItemMap.toDataShape this) = true <->
  exists line,
    line ∈ DataShape.lines (ItemMap.toDataShape this)
    /\ ItemLine.required line = true.
Proof.
  rewrite toDataShape_spec. simpl. rewrite existsb_exists. split.
  - intros (entry & Hin & Hreq). exists (lineOf (ItemMap.checkIfOptional this) entry).
    split; [|exact Hreq]. apply list_elem_of_In, in_map, Hin.
  - intros (line & Hin & Hreq).
    apply list_elem_of_In, in_map_iff in Hin as (entry & <- & Hin). eauto.
Qed.

Section Report.
Variable getTransitionsFromNode : StateNode.t -> list string.
Context {Matches : Type}.
Variable getMatchesStates : StateNode.t -> Matches.

Lemma introspectMachine_Ok fuel machine report :
  introspectMachine getTransitionsFromNode getMatchesStates fuel machine
  = Some (Ok report) ->
  exists s subState,
    traverse machine = Ok s
    /\ makeSubStateFromNode getTransitionsFromNode fuel (Machine.root machine)
         machine (State.nodeMap s) = Some (Ok subState)
    /\ report
       = IntrospectMachineResult.mk Matches
           (map (fun entry => StateEdge.mk (fst entry) (NodeEntry.sources (snd entry)))
              (Object_entries (State.nodeMap s)))
           (getMatchesStates (Machine.root machine))
           subState
           (ItemMap.toDataShape (State.guards s))
           (ItemMap.toDataShape (State.actions s))
           (ItemMap.toDataShape (State.services s))
           (ItemMap.toDataShape (State.activities s))
           (ItemMap.toDataShape (State.delays s)).
Proof.
  unfold introspectMachine.
  destruct (traverse machine) as [s|e]; [|discriminate].
  destruct (makeSubStateFromNode _ _ _ _ _) as [[subState|e]|] eqn:Hsub;
    try discriminate.
  intros [= <-]. exists s, subState. auto.
Qed.

Lemma introspectMachine_Throw fuel machine e :
  traverse machine = Throw e ->
  introspectMachine getTransitionsFromNode getMatchesStates fuel machine
  = Some (Throw e).
Proof. unfold introspectMachine. now intros ->. Qed.

End Report.

(** ** The injected predicates stay *)

Lemma checkIfOptional_forEachPure {A : Type} (f : A -> ItemMap.t -> ItemMap.t) l this :
  (forall x im, ItemMap.checkIfOptional (f x im) = ItemMap.checkIfOptional im) ->
  ItemMap.checkIfOptional (forEachPure f l this) = ItemMap.checkIfOptional this.
Proof.
  intros Hf.
  apply (forEachPure_invariant f
           (fun im => ItemMap.checkIfOptional im = ItemMap.checkIfOptional this));
    [|reflexivity].
  intros x im _ IH. now rewrite Hf.
Qed.

Lemma checksOf_forEachPure {A : Type} (f : A -> State.t -> State.t) l s :
  (forall x t, checksOf (f x t) = checksOf t) ->
  checksOf (forEachPure f l s) = checksOf s.
Proof.
  intros Hf.
  apply (forEachPure_invariant f (fun t => checksOf t = checksOf s)); [|reflexivity].
  intros x t _ IH. now rewrite Hf.
Qed.

Lemma checksOf_forEach {A : Type} (f : A -> State.t -> Result State.t) l s s' :
  (forall x t t', f x t = Ok t' -> checksOf t' = checksOf t) ->
  forEach f l s = Ok s' -> checksOf s' = checksOf s.
Proof.
  intros Hf.
  apply (forEach_invariant f (fun t => checksOf t = checksOf s)); [|reflexivity].
  intros x t t' _ IH Hx. rewrite <- IH. eapply Hf, Hx.
Qed.

Lemma checksOf_onNodeMap f s s' :
  State.onNodeMap f s = Ok s' -> checksOf s' = checksOf s.
Proof. now intros (nm & _ & ->)%onNodeMap_Ok. Qed.

Lemma checksOf_addInitEvents node s : checksOf (addInitEvents node s) = checksOf s.
Proof.
  unfold addInitEvents, checksOf. simpl.
  rewrite !checkIfOptional_forEachPure; [reflexivity| | |].
  - intros x im. now destruct (DelayedTransition.delay x).
  - intros x im. now destruct (InvokeDefinition.src x).
  - intros x im. now destruct (truthy _).
Qed.

Lemma checksOf_addOccurrences node s : checksOf (addOccurrences node s) = checksOf s.
Proof.
  unfold addOccurrences, checksOf. simpl.
  rewrite !checkIfOptional_forEachPure; [reflexivity| | |].
  - intros x im. now destruct (DelayedTransition.delay x).
  - intros x im. now destruct (_ && _).
  - intros x im. now destruct (InvokeDefinition.src x).
Qed.

Lemma checksOf_addChooseBranch node transition branch s :
  checksOf (addChooseBranch node transition branch s) = checksOf s.
Proof.
  unfold addChooseBranch, checksOf.
  destruct (ChooseCondition.cond branch), (ChooseCondition.actions branch);
    simpl; try reflexivity;
    rewrite checkIfOptional_forEachPure; try reflexivity;
    intros [n|] im; reflexivity.
Qed.

Lemma checksOf_addTransitionAction node transition action s :
  checksOf (addTransitionAction node transition action s) = checksOf s.
Proof.
  unfold addTransitionAction.
  set (s1 := if negb _ then _ else s).
  assert (checksOf s1 = checksOf s) as <-.
  { unfold s1. now destruct (negb _). }
  clearbody s1.
  destruct (bool_decide _); [|reflexivity].
  destruct (ActionObject.conds action); [|reflexivity].
  apply checksOf_forEachPure. intros. apply checksOf_addChooseBranch.
Qed.

Lemma checksOf_addTransitionGuard node transition s :
  checksOf (addTransitionGuard node transition s) = checksOf s.
Proof.
  unfold addTransitionGuard.
  destruct (Transition.cond transition) as [cond|]; [|reflexivity].
  destruct (truthy _); [|reflexivity]. now destruct (bool_decide _).
Qed.

Lemma checksOf_addTargetInvokes node transition s :
  checksOf (addTargetInvokes node transition s) = checksOf s.
Proof.
  unfold addTargetInvokes, checksOf.
  destruct (Transition.target transition) as [targets|]; [|reflexivity]. simpl.
  rewrite checkIfOptional_forEachPure; [reflexivity|].
  intros targetNode im. apply checkIfOptional_forEachPure.
  intros service im'. now destruct (InvokeDefinition.src service).
Qed.

Lemma checksOf_visitTransition node transition s s' :
  visitTransition node transition s = Ok s' -> checksOf s' = checksOf s.
Proof.
  unfold visitTransition.
  destruct (addSources transition s) as [s1|e] eqn:H1; simpl; [|discriminate].
  intros [= <-]. rewrite checksOf_forEachPure
    by (intros; apply checksOf_addTransitionAction).
  assert (checksOf s1 = checksOf s) as <-.
  { unfold addSources in H1. destruct (Transition.target transition).
    - eapply checksOf_onNodeMap, H1.
    - now injection H1 as <-. }
  rewrite checksOf_addTargetInvokes. apply checksOf_addTransitionGuard.
Qed.

Lemma checksOf_visitNode node s s' :
  visitNode node s = Ok s' -> checksOf s' = checksOf s.
Proof.
  unfold visitNode.
  set (s1 := if isInitialOrRoot node then _ else s).
  assert (checksOf s1 = checksOf s) as <-.
  { unfold s1. destruct (isInitialOrRoot node);
      [apply checksOf_addInitEvents|reflexivity]. }
  clearbody s1.
  destruct (addChildren node s1) as [s2|e] eqn:H2; simpl; [|discriminate].
  intros H3. rewrite <- (checksOf_onNodeMap _ _ _ H2).
  rewrite <- (checksOf_addOccurrences node s2).
  eapply checksOf_forEach; [|exact H3].
  intros. eapply checksOf_visitTransition; eauto.
Qed.

Lemma checksOf_visitNodeActions node s s' :
  visitNodeActions node s = Ok s' -> checksOf s' = checksOf s.
Proof.
  unfold visitNodeActions. intros H.
  assert (forall action t t',
            addEntrySources node action t = Ok t' -> checksOf t' = checksOf t)
    as Hstep.
  { intros action t t'. unfold addEntrySources.
    destruct (obj_get _ _); [|discriminate].
    intros [= <-]. unfold checksOf. simpl.
    rewrite checkIfOptional_forEachPure; reflexivity. }
  rewrite (checksOf_forEach _ _ _ _ Hstep H). unfold checksOf. simpl.
  rewrite checkIfOptional_forEachPure; [reflexivity|].
  intros x im. now destruct (_ || _).
Qed.

Lemma traverse_checksOf machine s :
  traverse machine = Ok s ->
  exists nodes, checksOf s = checksOf (initState machine nodes).
Proof.
  intros (nodes & s1 & _ & H1 & H2)%traverse_Ok. exists nodes.
  transitivity (checksOf s1).
  - eapply checksOf_forEach; [|exact H2].
    intros. eapply checksOf_visitNodeActions; eauto.
  - eapply checksOf_forEach; [|exact H1].
    intros. eapply checksOf_visitNode; eauto.
Qed.

Lemma toDataShape_requiredBy table this :
  ItemMap.checkIfOptional this = (fun name => Boolean (table !! name)) ->
  requiredBy table (ItemMap.toDataShape this).
Proof.
  intros Hcheck. split; [|apply toDataShape_required].
  intros line (entry & _ & _ & ->)%toDataShape_line. simpl. now rewrite Hcheck.
Qed.

(** ** The recorded sources *)

Lemma obj_get_Some_elem {V : Type} k (o : list (string * V)) v :
  obj_get k o = Some v -> (k, v) ∈ o.
Proof.
  induction o as [|[k0 v0] o IH]; simpl; [discriminate|].
  destruct (decide (k = k0)) as [->|Hne].
  - intros [= ->]. left.
  - intros H. right. auto.
Qed.

Lemma keepsSources_refl nodeMap : keepsSources nodeMap nodeMap.
Proof. intros i e H. exact H. Qed.

Lemma keepsSources_trans a b c :
  keepsSources a b -> keepsSources b c -> keepsSources a c.
Proof. intros Hab Hbc i e H. auto. Qed.

Lemma addSource_keepsSources stateId eventType nodeMap nodeMap' :
  addSource stateId eventType nodeMap = Ok nodeMap' ->
  keepsSources nodeMap nodeMap' /\ hasSource nodeMap' stateId eventType.
Proof.
  unfold addSource.
  destruct (obj_get stateId nodeMap) as [old|] eqn:Hold; [|discriminate].
  intros [= <-]. split.
  - intros i e (entry & Hentry & He). unfold hasSource. rewrite obj_get_alter.
    destruct (decide (stateId = i)) as [<-|Hne]; [|eauto].
    rewrite Hold in Hentry |- *. injection Hentry as <-. simpl.
    eexists. split; [reflexivity|]. simpl. apply set_add_elem. auto.
  - unfold hasSource. rewrite obj_get_alter, decide_True, Hold by reflexivity.
    simpl. eexists. split; [reflexivity|]. simpl. apply set_add_elem. auto.
Qed.

Lemma addChild_keepsSources stateId childId nodeMap nodeMap' :
  addChild stateId childId nodeMap = Ok nodeMap' -> keepsSources nodeMap nodeMap'.
Proof.
  unfold addChild.
  destruct (obj_get stateId nodeMap) as [old|] eqn:Hold; [|discriminate].
  intros [= <-] i e (entry & Hentry & He). unfold hasSource. rewrite obj_get_alter.
  destruct (decide (stateId = i)) as [<-|Hne]; [|eauto].
  rewrite Hold in Hentry |- *. injection Hentry as <-. simpl. eauto.
Qed.

Lemma forEach_keepsSources {A : Type} (f : A -> NodeMap -> Result NodeMap) l a b :
  (forall x c d, f x c = Ok d -> keepsSources c d) ->
  forEach f l a = Ok b -> keepsSources a b.
Proof.
  intros Hf. apply (forEach_invariant f (keepsSources a)); [|apply keepsSources_refl].
  intros x c d _ IH Hx. eapply keepsSources_trans; [exact IH|eapply Hf, Hx].
Qed.

Lemma visitTransition_sources node transition s s' :
  visitTransition node transition s = Ok s' ->
  keepsSources (State.nodeMap s) (State.nodeMap s')
  /\ forall targets targetNode,
       Transition.target transition = Some targets ->
       targetNode ∈ targets ->
       hasSource (State.nodeMap s') (TargetNode.id targetNode)
         (Transition.eventType transition).
Proof.
  unfold visitTransition.
  destruct (addSources transition s) as [s1|e] eqn:H1; simpl; [|discriminate].
  intros [= <-]. rewrite nodeMap_afterSources. revert H1. unfold addSources.
  destruct (Transition.target transition) as [targets|].
  - intros (nm & H & ->)%onNodeMap_Ok. simpl. split.
    + eapply forEach_keepsSources; [|exact H].
      intros x c d Hx. now apply addSource_keepsSources in Hx.
    + intros targets' targetNode [= <-] Hin. revert H.
      apply (forEach_reaches _ keepsSources
               (fun nm => hasSource nm (TargetNode.id targetNode)
                            (Transition.eventType transition))
               targets targetNode); auto.
      * intros y t t' Hy. now apply addSource_keepsSources in Hy.
      * apply keepsSources_refl.
      * apply keepsSources_trans.
      * intros t t' Hy. now apply addSource_keepsSources in Hy.
  - intros [= <-]. split; [apply keepsSources_refl|discriminate].
Qed.

Lemma visitNode_sources node s s' :
  visitNode node s = Ok s' ->
  keepsSources (State.nodeMap s) (State.nodeMap s')
  /\ forall transition targets targetNode,
       transition ∈ StateNode.transitions node ->
       Transition.target transition = Some targets ->
       targetNode ∈ targets ->
       hasSource (State.nodeMap s') (TargetNode.id targetNode)
         (Transition.eventType transition).
Proof.
  unfold visitNode.
  destruct (addChildren node _) as [s2|e] eqn:H2; simpl; [|discriminate].
  assert (keepsSources (State.nodeMap s) (State.nodeMap s2)) as Hk2.
  { apply onNodeMap_Ok in H2 as (nm & H2 & ->). simpl.
    rewrite nodeMap_beforeChildren in H2.
    eapply forEach_keepsSources; [|exact H2].
    intros x c d. apply addChild_keepsSources. }
  intros H3. split.
  - eapply keepsSources_trans; [exact Hk2|]. revert H3.
    apply (forEach_invariant _
             (fun t => keepsSources (State.nodeMap s2) (State.nodeMap t)));
      [|apply keepsSources_refl].
    intros transition t t' _ IH Hstep.
    eapply keepsSources_trans; [exact IH|].
    now apply visitTransition_sources in Hstep.
  - intros transition targets targetNode Hin Htarget Htin. revert H3.
    apply (forEach_reaches _
             (fun t t' => keepsSources (State.nodeMap t) (State.nodeMap t'))
             (fun t => hasSource (State.nodeMap t) (TargetNode.id targetNode)
                         (Transition.eventType transition))
             (StateNode.transitions node) transition); auto.
    + intros y t t' Hy. now apply visitTransition_sources in Hy.
    + intros t. apply keepsSources_refl.
    + intros t u v. apply keepsSources_trans.
    + intros t t' Hy. apply visitTransition_sources in Hy as [_ Hy]. eauto.
Qed.

Lemma traverse_sources machine s node transition targets targetNode :
  traverse machine = Ok s ->
  visited machine node ->
  transition ∈ StateNode.transitions node ->
  Transition.target transition = Some targets ->
  targetNode ∈ targets ->
  hasSource (State.nodeMap s) (TargetNode.id targetNode)
    (Transition.eventType transition).
Proof.
  intros (nodes & s1 & Hnodes & H1 & H2)%traverse_Ok Hvisited Hin Htarget Htin.
  destruct (allStateNodes_Ok machine) as (nodes' & Hnodes' & _ & Hvis).
  rewrite Hnodes in Hnodes'. injection Hnodes' as <-.
  assert (State.nodeMap s = State.nodeMap s1) as ->.
  { revert H2. apply (forEach_invariant _ (fun t => State.nodeMap t = State.nodeMap s1));
      [|reflexivity].
    intros n t t' _ IH Hstep. rewrite <- IH. eapply visitNodeActions_nodeMap, Hstep. }
  revert H1.
  apply (forEach_reaches _
           (fun t t' => keepsSources (State.nodeMap t) (State.nodeMap t'))
           (fun t => hasSource (State.nodeMap t) (TargetNode.id targetNode)
                       (Transition.eventType transition))
           nodes node); auto.
  - intros y t t' Hy. now apply visitNode_sources in Hy.
  - intros t. apply keepsSources_refl.
  - intros t u v. apply keepsSources_trans.
  - intros t t' Hy. apply visitNode_sources in Hy as [_ Hy]. eauto.
  - now apply Hvis.
Qed.

(** ** Runs on built nodes

    The entries with a dot in the name: a registry call on such a name
    changes nothing that [toDataShape] shows, and a call on another name
    does to the visible entries what it does to the registry. *)

Lemma visible_cons k v (o : list (string * ItemData.t)) :
  visible ((k, v) :: o) = if hasDot k then visible o else (k, v) :: visible o.
Proof.
  unfold visible. rewrite filter_cons. cbn [fst].
  destruct (hasDot k); [now rewrite decide_False|now rewrite decide_True].
Qed.

Lemma visible_get k (o : list (string * ItemData.t)) :
  hasDot k = false -> obj_get k (visible o) = obj_get k o.
Proof.
  intros Hk. induction o as [|[k' v] o IH]; [reflexivity|].
  rewrite visible_cons. cbn [obj_get].
  destruct (decide (k = k')) as [<-|Hne].
  - rewrite Hk. cbn [obj_get]. now rewrite decide_True.
  - destruct (hasDot k'); [exact IH|]. cbn [obj_get]. now rewrite decide_False.
Qed.

Lemma visible_set k v (o : list (string * ItemData.t)) :
  visible (obj_set k v o)
  = if hasDot k then visible o else obj_set k v (visible o).
Proof.
  induction o as [|[k' v'] o IH].
  - cbn [obj_set]. rewrite visible_cons. destruct (hasDot k); reflexivity.
  - cbn [obj_set]. destruct (decide (k = k')) as [<-|Hne].
    + rewrite !visible_cons.
      destruct (hasDot k); [reflexivity|]. cbn [obj_set]. now rewrite decide_True.
    + rewrite !visible_cons, IH.
      destruct (hasDot k'); [reflexivity|].
      destruct (hasDot k); [reflexivity|]. cbn [obj_set]. now rewrite decide_False.
Qed.

Lemma visible_alter f k (o : list (string * ItemData.t)) :
  visible (obj_alter f k o)
  = if hasDot k then visible o else obj_alter f k (visible o).
Proof.
  induction o as [|[k' v'] o IH].
  - cbn. destruct (hasDot k); reflexivity.
  - cbn [obj_alter]. destruct (decide (k = k')) as [<-|Hne].
    + rewrite !visible_cons.
      destruct (hasDot k); [reflexivity|]. cbn [obj_alter]. now rewrite decide_True.
    + rewrite !visible_cons, IH.
      destruct (hasDot k'); [reflexivity|].
      destruct (hasDot k); [reflexivity|]. cbn [obj_alter]. now rewrite decide_False.
Qed.

Lemma visible_addItem n p this c :
  visible (ItemMap.map (ItemMap.addItem n p this))
  = if hasDot n then visible (ItemMap.map this)
    else ItemMap.map (ItemMap.addItem n p (ItemMap.mk (visible (ItemMap.map this)) c)).
Proof.
  unfold ItemMap.addItem. cbn [ItemMap.map]. rewrite visible_alter.
  destruct (hasDot n) eqn:Hn.
  - destruct (obj_get n (ItemMap.map this)); [reflexivity|].
    now rewrite visible_set, Hn.
  - rewrite (visible_get n _ Hn).
    destruct (obj_get n (ItemMap.map this)); [reflexivity|].
    now rewrite visible_set, Hn.
Qed.

Lemma visible_addEventToItem n e p this c :
  visible (ItemMap.map (ItemMap.addEventToItem n e p this))
  = if hasDot n then visible (ItemMap.map this)
    else ItemMap.map
           (ItemMap.addEventToItem n e p (ItemMap.mk (visible (ItemMap.map this)) c)).
Proof.
  unfold ItemMap.addEventToItem. cbn [ItemMap.map]. rewrite visible_alter.
  rewrite (visible_addItem n p this c).
  destruct (hasDot n); reflexivity.
Qed.

Lemma sameLines_refl this : sameLines this this.
Proof. split; reflexivity. Qed.

Lemma sameLines_addItem n p a b :
  sameLines a b -> sameLines (ItemMap.addItem n p a) (ItemMap.addItem n p b).
Proof.
  intros [Hc Hv]. split; [exact Hc|].
  rewrite (visible_addItem n p a (ItemMap.checkIfOptional a)),
    (visible_addItem n p b (ItemMap.checkIfOptional a)).
  now rewrite Hv.
Qed.

Lemma sameLines_addEventToItem n e p a b :
  sameLines a b ->
  sameLines (ItemMap.addEventToItem n e p a) (ItemMap.addEventToItem n e p b).
Proof.
  intros [Hc Hv]. split; [exact Hc|].
  rewrite (visible_addEventToItem n e p a (ItemMap.checkIfOptional a)),
    (visible_addEventToItem n e p b (ItemMap.checkIfOptional a)).
  now rewrite Hv.
Qed.

Lemma sameLines_hidden n e p a b :
  hasDot n = true -> sameLines a b -> sameLines (ItemMap.addEventToItem n e p a) b.
Proof.
  intros Hn [Hc Hv]. split; [exact Hc|].
  now rewrite (visible_addEventToItem n e p a (ItemMap.checkIfOptional a)), Hn.
Qed.

Lemma sameLines_loop {A : Type} (f : A -> ItemMap.t -> ItemMap.t) l a b :
  (forall x a b, sameLines a b -> sameLines (f x a) (f x b)) ->
  sameLines a b -> sameLines (forEachPure f l a) (forEachPure f l b).
Proof.
  intros Hf. revert a b. induction l as [|x l IH]; intros a b H; simpl; auto.
Qed.

Lemma sameLines_loop_hidden {A : Type} (f : A -> ItemMap.t -> ItemMap.t) l a b :
  (forall x a b, x ∈ l -> sameLines a b -> sameLines (f x a) b) ->
  sameLines a b -> sameLines (forEachPure f l a) b.
Proof.
  revert a. induction l as [|x l IH]; intros a Hf H; simpl; [exact H|].
  apply IH.
  - intros y a' b' Hy. apply Hf. now right.
  - apply Hf; [left|exact H].
Qed.

Lemma sameLines_toDataShape a b :
  sameLines a b -> ItemMap.toDataShape a = ItemMap.toDataShape b.
Proof.
  intros [Hc Hv]. unfold ItemMap.toDataShape. fold (visible (ItemMap.map a)).
  fold (visible (ItemMap.map b)). now rewrite Hc, Hv.
Qed.

(** Each step of the passes takes states that differ in hidden entries
    to such states, or throws the same error from both. *)

Lemma sameButHidden_refl s : sameButHidden s s.
Proof. repeat split. Qed.

Lemma sameOutcome_bind r r' (k k' : State.t -> Result State.t) :
  sameOutcome r r' ->
  (forall s t, sameButHidden s t -> sameOutcome (k s) (k' t)) ->
  sameOutcome (bind r k) (bind r' k').
Proof.
  destruct r as [s|e], r' as [t|e']; simpl; intros H Hk; auto; contradiction.
Qed.

Lemma sameOutcome_forEach {A : Type} (f : A -> State.t -> Result State.t) l s t :
  (forall x s t, sameButHidden s t -> sameOutcome (f x s) (f x t)) ->
  sameButHidden s t -> sameOutcome (forEach f l s) (forEach f l t).
Proof.
  intros Hf. revert s t. induction l as [|x l IH]; intros s t H; simpl; [exact H|].
  apply sameOutcome_bind; auto.
Qed.

Lemma sameButHidden_forEachPure {A : Type} (f : A -> State.t -> State.t) l s t :
  (forall x s t, sameButHidden s t -> sameButHidden (f x s) (f x t)) ->
  sameButHidden s t -> sameButHidden (forEachPure f l s) (forEachPure f l t).
Proof.
  intros Hf. revert s t. induction l as [|x l IH]; intros s t H; simpl; auto.
Qed.

Lemma sameButHidden_onGuards f s t :
  sameButHidden s t -> sameButHidden (State.onGuards f s) (State.onGuards f t).
Proof. intros (Hg & Ha & Hs & Hc & Hd & Hn). repeat split; simpl; congruence || apply Ha. Qed.

Lemma sameButHidden_onServices f s t :
  sameButHidden s t -> sameButHidden (State.onServices f s) (State.onServices f t).
Proof. intros (Hg & Ha & Hs & Hc & Hd & Hn). repeat split; simpl; congruence || apply Ha. Qed.

Lemma sameButHidden_onActivities f s t :
  sameButHidden s t ->
  sameButHidden (State.onActivities f s) (State.onActivities f t).
Proof. intros (Hg & Ha & Hs & Hc & Hd & Hn). repeat split; simpl; congruence || apply Ha. Qed.

Lemma sameButHidden_onDelays f s t :
  sameButHidden s t -> sameButHidden (State.onDelays f s) (State.onDelays f t).
Proof. intros (Hg & Ha & Hs & Hc & Hd & Hn). repeat split; simpl; congruence || apply Ha. Qed.

Lemma sameButHidden_onActions f g s t :
  (forall a b, sameLines a b -> sameLines (f a) (g b)) ->
  sameButHidden s t -> sameButHidden (State.onActions f s) (State.onActions g t).
Proof.
  intros Hf (Hg & Ha & Hs & Hc & Hd & Hn).
  split; [exact Hg|]. split; [apply Hf, Ha|]. auto.
Qed.

Lemma sameOutcome_onNodeMap f s t :
  sameButHidden s t -> sameOutcome (State.onNodeMap f s) (State.onNodeMap f t).
Proof.
  intros (Hg & Ha & Hs & Hc & Hd & Hn). unfold State.onNodeMap. rewrite Hn.
  destruct (f (State.nodeMap t)) as [nodeMap|e]; simpl; [|reflexivity].
  split; [exact Hg|]. split; [exact Ha|]. auto.
Qed.

Lemma same_addChildren node s t :
  sameButHidden s t -> sameOutcome (addChildren node s) (addChildren node t).
Proof. apply sameOutcome_onNodeMap. Qed.

Lemma same_addOccurrences node s t :
  sameButHidden s t -> sameButHidden (addOccurrences node s) (addOccurrences node t).
Proof.
  intros H. unfold addOccurrences.
  now apply sameButHidden_onServices, sameButHidden_onDelays,
    sameButHidden_onActivities.
Qed.

Lemma same_addSources transition s t :
  sameButHidden s t -> sameOutcome (addSources transition s) (addSources transition t).
Proof.
  intros H. unfold addSources.
  destruct (Transition.target transition); [|exact H].
  now apply sameOutcome_onNodeMap.
Qed.

Lemma same_addTransitionGuard node transition s t :
  sameButHidden s t ->
  sameButHidden (addTransitionGuard node transition s)
    (addTransitionGuard node transition t).
Proof.
  intros H. unfold addTransitionGuard.
  destruct (Transition.cond transition); [|exact H].
  destruct (truthy _); [|exact H].
  case_bool_decide; [exact H|]. now apply sameButHidden_onGuards.
Qed.

Lemma same_addTargetInvokes node transition s t :
  sameButHidden s t ->
  sameButHidden (addTargetInvokes node transition s)
    (addTargetInvokes node transition t).
Proof.
  intros H. unfold addTargetInvokes.
  destruct (Transition.target transition); [|exact H].
  now apply sameButHidden_onServices.
Qed.

Lemma same_addChooseBranch node transition branch s t :
  sameButHidden s t ->
  sameButHidden (addChooseBranch node transition branch s)
    (addChooseBranch node transition branch t).
Proof.
  intros H. unfold addChooseBranch.
  assert (sameButHidden
            match ChooseCondition.cond branch with
            | GuardString cond =>
                State.onGuards
                  (ItemMap.addEventToItem cond (Transition.eventType transition)
                     (StateNode.path node)) s
            | GuardOther => s
            end
            match ChooseCondition.cond branch with
            | GuardString cond =>
                State.onGuards
                  (ItemMap.addEventToItem cond (Transition.eventType transition)
                     (StateNode.path node)) t
            | GuardOther => t
            end) as H1.
  { destruct (ChooseCondition.cond branch); [|exact H].
    now apply sameButHidden_onGuards. }
  destruct (ChooseCondition.actions branch) as [condActions|condActions|];
    [| |exact H1].
  - apply sameButHidden_onActions; [|exact H1].
    intros a b Hab. apply sameLines_loop; [|exact Hab].
    intros [name|] a' b' Hab'; [|exact Hab']. now apply sameLines_addEventToItem.
  - apply sameButHidden_onActions; [|exact H1].
    intros a b Hab. now apply sameLines_addEventToItem.
Qed.

Lemma same_addTransitionAction node transition action s t :
  sameButHidden s t ->
  sameButHidden (addTransitionAction node transition action s)
    (addTransitionAction node transition action t).
Proof.
  intros H. unfold addTransitionAction.
  assert (sameButHidden
            (if negb (xstateRegex_test (ActionObject.type action))
             then State.onActions
                    (ItemMap.addEventToItem (ActionObject.type action)
                       (Transition.eventType transition) (StateNode.path node)) s
             else s)
            (if negb (xstateRegex_test (ActionObject.type action))
             then State.onActions
                    (ItemMap.addEventToItem (ActionObject.type action)
                       (Transition.eventType transition) (StateNode.path node)) t
             else t)) as H1.
  { destruct (negb _); [|exact H].
    apply sameButHidden_onActions; [|exact H].
    intros a b Hab. now apply sameLines_addEventToItem. }
  case_bool_decide; [|exact H1].
  destruct (ActionObject.conds action); [|exact H1].
  apply sameButHidden_forEachPure; [|exact H1].
  intros branch s' t'. apply same_addChooseBranch.
Qed.

Lemma same_visitTransition node transition s t :
  sameButHidden s t ->
  sameOutcome (visitTransition node transition s) (visitTransition node transition t).
Proof.
  intros H. unfold visitTransition.
  apply sameOutcome_bind; [now apply same_addSources|].
  intros s1 t1 H1. simpl.
  apply sameButHidden_forEachPure.
  - intros action s' t'. apply same_addTransitionAction.
  - now apply same_addTargetInvokes, same_addTransitionGuard.
Qed.

Lemma same_visitNode node s t :
  sameButHidden s t -> sameOutcome (visitNode node s) (visitNode node t).
Proof.
  intros H. unfold visitNode.
  apply sameOutcome_bind.
  - apply same_addChildren. destruct (isInitialOrRoot node); [|exact H].
    unfold addInitEvents.
    apply sameButHidden_onDelays, sameButHidden_onActions;
      [|now apply sameButHidden_onServices].
    intros a b Hab. apply sameLines_loop; [|exact Hab].
    intros action a' b' Hab'. destruct (truthy _); [|exact Hab'].
    now apply sameLines_addEventToItem.
  - intros s2 t2 H2. apply sameOutcome_forEach.
    + intros transition s' t'. apply same_visitTransition.
    + now apply same_addOccurrences.
Qed.

Lemma forEachPure_skip {A S : Type} (f : A -> S -> S) (l : list A) (s : S) :
  (forall x s, x ∈ l -> f x s = s) -> forEachPure f l s = s.
Proof.
  induction l as [|x l IH]; intros Hf; simpl; [reflexivity|].
  rewrite Hf by left. apply IH. intros y s' Hy. apply Hf. now right.
Qed.

Lemma sameButHidden_onActions_left f s t :
  (forall a b, sameLines a b -> sameLines (f a) b) ->
  sameButHidden s t -> sameButHidden (State.onActions f s) t.
Proof.
  intros Hf (Hg & Ha & Hs & Hc & Hd & Hn).
  split; [exact Hg|]. split; [apply Hf, Ha|]. auto.
Qed.

Lemma sameButHidden_forEachPure_left {A : Type} (f : A -> State.t -> State.t) l s t :
  (forall x s t, x ∈ l -> sameButHidden s t -> sameButHidden (f x s) t) ->
  sameButHidden s t -> sameButHidden (forEachPure f l s) t.
Proof.
  revert s. induction l as [|x l IH]; intros s Hf H; simpl; [exact H|].
  apply IH.
  - intros y s' t' Hy. apply Hf. now right.
  - apply Hf; [left|exact H].
Qed.

(** Where [nodeMap] holds the id of the node, the loop of lines 288-293
    does not throw. *)
Lemma addEntrySources_found node entry l s :
  obj_get (StateNode.id node) (State.nodeMap s) = Some entry ->
  forEach (addEntrySources node) l s
  = Ok (forEachPure
          (fun action =>
             State.onActions
               (forEachPure
                  (fun source actions =>
                     ItemMap.addEventToItem (ActionObject.type action) source
                       (StateNode.path node) actions)
                  (NodeEntry.sources entry)))
          l s).
Proof.
  revert s. induction l as [|action l IH]; intros s Hentry; simpl; [reflexivity|].
  unfold addEntrySources at 1. rewrite Hentry. simpl. now apply IH.
Qed.

Lemma xstate_name_hidden name : xstateRegex_test name = true -> hasDot name = true.
Proof. intros H. now apply (prefix_hasDot _ _ H). Qed.

Section BuiltRuns.

Variables sendActions cancelActions : StateNode.t -> list ActionObject.t.

Hypothesis xstate_own :
  forall node action,
    action ∈ sendActions node ++ cancelActions node ->
    xstateRegex_test (ActionObject.type action) = true.

Local Abbreviation built := (builtNode sendActions cancelActions).

(** The first pass over a built node registers [xstate.init] for hidden
    names only, beyond what it registers for the node. *)
Lemma same_visitNode_built node s t :
  sameButHidden s t -> sameOutcome (visitNode (built node) s) (visitNode node t).
Proof.
  intros H.
  change (visitNode (built node) s)
    with (let* s2 :=
            addChildren node
              (if isInitialOrRoot node then addInitEvents (built node) s else s) in
          forEach (visitTransition node) (StateNode.transitions node)
            (addOccurrences node s2)).
  unfold visitNode. apply sameOutcome_bind.
  - apply same_addChildren. destruct (isInitialOrRoot node); [|exact H].
    unfold addInitEvents.
    apply sameButHidden_onDelays, sameButHidden_onActions;
      [|now apply sameButHidden_onServices].
    intros a b Hab. cbn [StateNode.onEntry builtNode]. rewrite forEachPure_app.
    apply sameLines_loop_hidden.
    + intros action a' b' Hin Hab'. destruct (truthy _); [|exact Hab'].
      apply sameLines_hidden; [|exact Hab'].
      apply xstate_name_hidden, (xstate_own node), elem_of_app. now left.
    + apply sameLines_loop; [|exact Hab].
      intros action a' b' Hab'. destruct (truthy _); [|exact Hab'].
      now apply sameLines_addEventToItem.
  - intros s2 t2 H2. apply sameOutcome_forEach.
    + intros transition s' t'. apply same_visitTransition.
    + now apply same_addOccurrences.
Qed.

Lemma same_firstPass nodes ids s t :
  sameButHidden s t ->
  sameOutcome (visitNodesFrom sendActions cancelActions ids nodes s)
    (forEach visitNode nodes t).
Proof.
  revert ids s t. induction nodes as [|node nodes IH]; intros ids s t H; simpl;
    [exact H|].
  apply sameOutcome_bind; [|intros s1 t1; apply IH].
  unfold nodeAsRead. case_bool_decide.
  - now apply same_visitNode_built.
  - now apply same_visitNode.
Qed.

(** The second pass over a built node skips the actions of XState's own
    and registers the sources for hidden names only. *)
Lemma same_visitNodeActions_built node s t :
  StateNode.id node ∈ obj_keys (State.nodeMap t) ->
  sameButHidden s t ->
  sameOutcome (visitNodeActions (built node) s) (visitNodeActions node t).
Proof.
  intros Hkey H.
  destruct (obj_key_get _ _ Hkey) as [entry Hentry].
  assert (State.nodeMap s = State.nodeMap t) as Hmap by apply H.
  unfold visitNodeActions.
  change (addEntrySources (built node)) with (addEntrySources node).
  rewrite (addEntrySources_found node entry), (addEntrySources_found node entry);
    [|exact Hentry|simpl; now rewrite Hmap].
  cbn [StateNode.onEntry StateNode.onExit StateNode.path builtNode sameOutcome].
  rewrite forEachPure_app. apply sameButHidden_forEachPure_left.
  { intros action s' t' Hin H'. apply sameButHidden_onActions_left; [|exact H'].
    intros a b Hab. apply sameLines_loop_hidden; [|exact Hab].
    intros source a' b' _. apply sameLines_hidden.
    apply xstate_name_hidden, (xstate_own node), elem_of_app. now left. }
  apply sameButHidden_forEachPure.
  { intros action s' t' H'. apply sameButHidden_onActions; [|exact H'].
    intros a b Hab. apply sameLines_loop; [|exact Hab].
    intros source a' b'. apply sameLines_addEventToItem. }
  apply sameButHidden_onActions; [|exact H].
  intros a b Hab. rewrite !forEachPure_app.
  rewrite (forEachPure_skip _ (sendActions node)).
  2:{ intros action a' Hin. rewrite (xstate_own node action); [reflexivity|].
      apply elem_of_app. now left. }
  rewrite (forEachPure_skip _ (cancelActions node)).
  2:{ intros action a' Hin. rewrite (xstate_own node action); [reflexivity|].
      apply elem_of_app. now right. }
  apply sameLines_loop, sameLines_loop; [| |exact Hab].
  - intros action a' b' Hab'. destruct (_ || _); [exact Hab'|].
    now apply sameLines_addItem.
  - intros action a' b' Hab'. destruct (_ || _); [exact Hab'|].
    now apply sameLines_addItem.
Qed.

Lemma same_secondPass nodes s t :
  (forall node, node ∈ nodes -> StateNode.id node ∈ obj_keys (State.nodeMap t)) ->
  sameButHidden s t ->
  sameOutcome (forEach visitNodeActions (map built nodes) s)
    (forEach visitNodeActions nodes t).
Proof.
  revert s t. induction nodes as [|node nodes IH]; intros s t Hkeys H; simpl;
    [exact H|].
  pose proof (same_visitNodeActions_built node s t (Hkeys node ltac:(left)) H) as Hstep.
  destruct (visitNodeActions (built node) s) as [s1|e],
    (visitNodeActions node t) as [t1|e'] eqn:Ht; simpl in Hstep |- *;
    try contradiction; [|exact Hstep].
  apply IH; [|exact Hstep].
  intros n Hn. rewrite (visitNodeActions_nodeMap _ _ _ Ht). apply Hkeys. now right.
Qed.

(** The run on a machine with built nodes ends as the run on the machine
    read before any is built, but for hidden entries of the actions. *)
Lemma same_traverseFrom ids machine :
  sameOutcome (traverseFrom sendActions cancelActions ids machine) (traverse machine).
Proof.
  unfold traverseFrom, traverse.
  destruct (allStateNodes_Ok machine) as (nodes & -> & _ & _). simpl.
  pose proof (same_firstPass nodes ids _ _
                (sameButHidden_refl (initState machine nodes))) as H1.
  pose proof (passes_keys nodes (initState machine nodes)) as Hkeys.
  destruct (visitNodesFrom _ _ _ _ _) as [s1|e],
    (forEach visitNode nodes _) as [t1|e']; simpl in H1 |- *;
    try contradiction; [|exact H1].
  destruct Hkeys as [Hkeys _]. apply same_secondPass; [|exact H1].
  intros node Hnode. rewrite Hkeys. simpl.
  apply (proj2 (initNodeMap_keys nodes)), list_elem_of_In, in_map, list_elem_of_In, Hnode.
Qed.

End BuiltRuns.

(** The report of a run on a machine with built nodes is the report of
    the run that reads every node before it is built, the helpers being
    given the built nodes. *)
Lemma introspectMachineFrom_plain {Matches : Type}
  (sendActions cancelActions : StateNode.t -> list ActionObject.t)
  (getTransitionsFromNode : StateNode.t -> list string)
  (getMatchesStates : StateNode.t -> Matches)
  (fuel : nat) (ids : list string) (machine : Machine.t) :
  (forall node action,
     action ∈ sendActions node ++ cancelActions node ->
     xstateRegex_test (ActionObject.type action) = true) ->
  introspectMachineFrom sendActions cancelActions getTransitionsFromNode
    getMatchesStates fuel ids machine
  = introspectMachine
      (fun node => getTransitionsFromNode (builtNode sendActions cancelActions node))
      (fun node => getMatchesStates (builtNode sendActions cancelActions node))
      fuel machine.
Proof.
  intros Hown. unfold introspectMachineFrom, introspectMachine.
  pose proof (same_traverseFrom sendActions cancelActions Hown ids machine) as H.
  destruct (traverseFrom _ _ _ _) as [s|e], (traverse machine) as [t|e'];
    simpl in H; try contradiction; [|now subst].
  destruct H as (Hg & Ha & Hs & Hc & Hd & Hn).
  now rewrite Hn, Hg, Hs, Hc, Hd, (sameLines_toDataShape _ _ Ha).
Qed.

(** Two budgets that both suffice give the same report. *)
Lemma introspectMachine_agree {Matches : Type}
  (getTransitionsFromNode : StateNode.t -> list string)
  (getMatchesStates : StateNode.t -> Matches)
  (fuel fuel' : nat) (machine : Machine.t)
  (r r' : Result (IntrospectMachineResult.t Matches)) :
  introspectMachine getTransitionsFromNode getMatchesStates fuel machine = Some r ->
  introspectMachine getTransitionsFromNode getMatchesStates fuel' machine = Some r' ->
  r = r'.
Proof.
  unfold introspectMachine.
  destruct (traverse machine) as [s|e]; [|congruence].
  destruct (makeSubStateFromNode _ fuel _ _ _) as [r1|] eqn:H1; [|discriminate].
  destruct (makeSubStateFromNode _ fuel' _ _ _) as [r2|] eqn:H2; [|discriminate].
  rewrite (makeSubStateFromNode_agree _ _ _ _ _ _ _ _ H1 H2).
  congruence.
Qed.

(** The helper of the substate tree enters it through its results
    only. *)
Lemma reduceChildren_ext (build build' : StateNode.t -> option (Result SubState.t))
  rootNode children obj :
  (forall node, build node = build' node) ->
  reduceChildren build rootNode children obj
  = reduceChildren build' rootNode children obj.
Proof.
  intros Hext. revert obj. induction children as [|child rest IH]; intros obj; simpl;
    [reflexivity|].
  destruct (Machine.getStateNodeById rootNode child) as [childNode|e]; [|reflexivity].
  rewrite Hext. destruct (build' childNode) as [[sub|e]|]; auto.
Qed.

Lemma makeSubStateFromNode_ext (f g : StateNode.t -> list string) fuel node rootNode
  nodeMap :
  (forall n, f n = g n) ->
  makeSubStateFromNode f fuel node rootNode nodeMap
  = makeSubStateFromNode g fuel node rootNode nodeMap.
Proof.
  intros Hext. revert node. induction fuel as [|fuel IH]; intros node; simpl;
    [reflexivity|].
  destruct (Machine.getStateNodeById rootNode (StateNode.id node)) as [stateNode|e];
    [|reflexivity].
  destruct (obj_get (StateNode.id node) nodeMap) as [entry|]; [|reflexivity].
  rewrite (reduceChildren_ext _
             (fun childNode => makeSubStateFromNode g fuel childNode rootNode nodeMap))
    by exact IH.
  now rewrite Hext.
Qed.

(** The actions of the scenarios are of XState's own. *)
Lemma perDelay_xstate_own node action :
  action ∈ sendPerDelay node ++ cancelPerDelay node ->
  xstateRegex_test (ActionObject.type action) = true.
Proof.
  unfold sendPerDelay, cancelPerDelay.
  intros [H|H]%elem_of_app;
    apply list_elem_of_In, in_map_iff in H as (delayed & <- & _); reflexivity.
Qed.

(** On the traffic light, a run on built nodes registers [xstate.init]
    for [xstate.send], which a run on nodes not built yet does not. *)
Example built_green_registers_send :
  (exists s,
     traverseFrom sendPerDelay cancelPerDelay ["light.green"] lightMachine = Ok s
     /\ eventsOf (State.actions s) "xstate.send" = ["xstate.init"])
  /\ exists s,
       traverseFrom sendPerDelay cancelPerDelay [] lightMachine = Ok s
       /\ eventsOf (State.actions s) "xstate.send" = [].
Proof. split; eexists; (split; [vm_compute; reflexivity|reflexivity]). Qed.


(** * The claims *)

(** C1, on the code: in the scenario [A] (initial) -GO-> [B], where [B]
    has the entry action [notify] and invokes [fetchData], the report of
    the actions is the line [{notify, events: [GO], states: ["B"]}], and
    the report of the services is the line
    [{fetchData, events: [GO], states: ["A", "B"]}]: line 227 records the
    service under the path of [A], the source of the transition, and line
    203 under the path of [B], the node that invokes it.  Read with [A]
    as the root itself, the states of the service are [{}] and ["B"]. *)
Theorem go_scenario_report {Matches : Type}
  (getTransitionsFromNode : StateNode.t -> list string)
  (getMatchesStates : StateNode.t -> Matches) (fuel : nat) :
  (exists report,
     introspectMachine getTransitionsFromNode getMatchesStates (2 + fuel) goMachine
     = Some (Ok report)
     /\ DataShape.lines (IntrospectMachineResult.services report)
        = [ItemLine.mk "fetchData" true ["GO"] [quotedA; quotedB]]
     /\ DataShape.lines (IntrospectMachineResult.actions report)
        = [ItemLine.mk "notify" true ["GO"] [quotedB]])
  /\ exists report,
       introspectMachine getTransitionsFromNode getMatchesStates (2 + fuel)
         goRootMachine
       = Some (Ok report)
       /\ DataShape.lines (IntrospectMachineResult.services report)
          = [ItemLine.mk "fetchData" true ["GO"] ["{}"; quotedB]]
       /\ DataShape.lines (IntrospectMachineResult.actions report)
          = [ItemLine.mk "notify" true ["GO"] [quotedB]].
Proof.
  split; eexists; (split; [vm_compute; reflexivity|]); split; reflexivity.
Qed.

(** C2, as amended: for the machine that is the root [A] alone, with the
    entry action [boot], the report of the actions is one line for
    [boot], and its only triggering event is [xstate.init]. *)
Theorem boot_scenario_xstate_init {Matches : Type}
  (getTransitionsFromNode : StateNode.t -> list string)
  (getMatchesStates : StateNode.t -> Matches) (fuel : nat) :
  exists report,
    introspectMachine getTransitionsFromNode getMatchesStates (1 + fuel) bootMachine
    = Some (Ok report)
    /\ DataShape.lines (IntrospectMachineResult.actions report)
       = [ItemLine.mk "boot" true ["xstate.init"] ["{}"; "{}"]].
Proof. eexists. split; [vm_compute; reflexivity|reflexivity]. Qed.

(** C2, as stated, fails: the report of that machine has no line for
    [boot] whose events are [init]. *)
Lemma boot_scenario_not_init :
  ~ exists report line,
      introspectMachine noTransitions noMatches 1 bootMachine = Some (Ok report)
      /\ line ∈ DataShape.lines (IntrospectMachineResult.actions report)
      /\ ItemLine.name line = "boot"
      /\ ItemLine.events line = ["init"].
Proof.
  intros (report & line & Hrun & Hin & _ & Hevents).
  vm_compute in Hrun. injection Hrun as <-. simpl in Hin.
  apply list_elem_of_singleton in Hin as ->. discriminate.
Qed.

(** C3: when a transition of a state node of the machine (one that the
    lookup returns for its id: every node, when no two share an id) has a
    target whose id is not an id of the machine, the run throws, whatever
    the budget: the error is a failed lookup of an id that the machine
    does not hold, and no report is returned. *)
Theorem dangling_target_aborts {Matches : Type}
  (getTransitionsFromNode : StateNode.t -> list string)
  (getMatchesStates : StateNode.t -> Matches)
  (machine : Machine.t) (node : StateNode.t) (transition : Transition.t) :
  visited machine node ->
  transition ∈ StateNode.transitions node ->
  danglingTarget (Machine.stateIds machine) transition ->
  exists e,
    failedLookupOutside (Machine.stateIds machine) e
    /\ forall fuel,
         introspectMachine getTransitionsFromNode getMatchesStates fuel machine
         = Some (Throw e).
Proof.
  intros Hvisited Hin Hdangling.
  pose proof (traverse_keys machine) as Hkeys.
  destruct (traverse machine) as [s|e] eqn:Hrun.
  - exfalso. eapply traverse_dangling; eauto.
  - exists e. split; [exact Hkeys|]. intros fuel.
    now apply introspectMachine_Throw.
Qed.

Lemma dangling_target_aborts_witness :
  exists e,
    failedLookupOutside (Machine.stateIds danglingMachine) e
    /\ forall fuel,
         introspectMachine noTransitions noMatches fuel danglingMachine
         = Some (Throw e).
Proof.
  apply (dangling_target_aborts noTransitions noMatches danglingMachine
           (Machine.root danglingMachine)
           (Transition.mk "GO" (Some [TargetNode.mk "ghost" []]) None [])).
  - vm_compute. reflexivity.
  - simpl. left.
  - exists [TargetNode.mk "ghost" []], (TargetNode.mk "ghost" []).
    split; [reflexivity|]. split; [left|]. simpl.
    intros H. apply list_elem_of_singleton in H. discriminate.
Defined.

(** C4: the report for a machine whose root has the id [__proto__] has
    no edge for the root, although the root is a state of the machine and
    its entry is read and written through the passes: line 148 makes the
    entry the prototype of [nodeMap], which [Object.entries] at line 299
    does not list. *)
Theorem proto_root_has_no_edge :
  Machine.stateIds protoMachine = ["__proto__"; "__proto__.A"]
  /\ exists report,
       introspectMachine noTransitions noMatches 2 protoMachine = Some (Ok report)
       /\ edgeIds report = ["__proto__.A"]
       /\ count_occ string_dec (edgeIds report)
            (StateNode.id (Machine.root protoMachine)) = 0.
Proof.
  split; [reflexivity|]. eexists. split; [vm_compute; reflexivity|].
  split; vm_compute; reflexivity.
Qed.



(** C6: the report of a registry, whatever the registry holds, has no
    line whose name contains a dot; so no line of the five categories of
    a report of [introspectMachine] has a name that contains a dot. *)
Theorem report_names_have_no_dot {Matches : Type}
  (getTransitionsFromNode : StateNode.t -> list string)
  (getMatchesStates : StateNode.t -> Matches) :
  (forall this line,
     line ∈ DataShape.lines (ItemMap.toDataShape this) ->
     hasDot (ItemLine.name line) = false)
  /\ (forall fuel machine report line,
        introspectMachine getTransitionsFromNode getMatchesStates fuel machine
        = Some (Ok report) ->
        line ∈ allLines report ->
        hasDot (ItemLine.name line) = false).
Proof.
  split; [apply toDataShape_no_dot|].
  intros fuel machine report line (s & subState & _ & _ & ->)%introspectMachine_Ok.
  unfold allLines. simpl. rewrite !elem_of_app.
  intros [H|[H|[H|[H|H]]]]; eapply toDataShape_no_dot, H.
Qed.

Lemma report_names_have_no_dot_witness :
  exists report,
    introspectMachine noTransitions noMatches 1 dottedMachine = Some (Ok report)
    /\ map ItemLine.name (allLines report) = ["boot"]
    /\ forall line, line ∈ allLines report -> hasDot (ItemLine.name line) = false.
Proof.
  eexists. split; [vm_compute; reflexivity|]. split; [vm_compute; reflexivity|].
  intros line.
  apply (proj2 (report_names_have_no_dot noTransitions noMatches) 1 dottedMachine).
  vm_compute. reflexivity.
Defined.

(** C7, on the code: the options of [zeroDelayMachine] implement the
    delay [SHORT] (as 0 milliseconds), and the report of the delays has
    the line of [SHORT] with [required: true], and [required: true] for
    the category: [checkIfOptional] is [Boolean(table[name])], which is
    false for an implementation that is 0. *)
Theorem zero_delay_reported_required {Matches : Type}
  (getTransitionsFromNode : StateNode.t -> list string)
  (getMatchesStates : StateNode.t -> Matches) (fuel : nat) :
  exists report,
    introspectMachine getTransitionsFromNode getMatchesStates (1 + fuel)
      zeroDelayMachine
    = Some (Ok report)
    /\ MachineOptions.delays (Machine.options zeroDelayMachine) !! "SHORT"
       = Some (ImplNumber 0)
    /\ IntrospectMachineResult.delays report
       = DataShape.mk [ItemLine.mk "SHORT" true ["xstate.init"] ["{}"; "{}"]] true.
Proof. eexists. split; [vm_compute; reflexivity|]. split; reflexivity. Qed.

(** C8: the report is a function of the machine definition alone.  Two
    runs on the same definition return the same outcome, the same report
    with every list in the same order, or the same error, whichever nodes
    have their delayed transitions built when each run starts (the second
    run starts on what the first has built) and whatever the budgets are,
    the actions that XState pushes onto the nodes being of its own
    ([xstate.] in front of the type). *)
Theorem introspection_deterministic {Matches : Type}
  (sendActions cancelActions : StateNode.t -> list ActionObject.t)
  (getTransitionsFromNode : StateNode.t -> list string)
  (getMatchesStates : StateNode.t -> Matches)
  (fuel fuel' : nat) (built built' : list string) (machine : Machine.t)
  (r r' : Result (IntrospectMachineResult.t Matches)) :
  (forall node action,
     action ∈ sendActions node ++ cancelActions node ->
     xstateRegex_test (ActionObject.type action) = true) ->
  introspectMachineFrom sendActions cancelActions getTransitionsFromNode
    getMatchesStates fuel built machine = Some r ->
  introspectMachineFrom sendActions cancelActions getTransitionsFromNode
    getMatchesStates fuel' built' machine = Some r' ->
  r = r'.
Proof.
  intros Hown. rewrite !introspectMachineFrom_plain by exact Hown.
  apply introspectMachine_agree.
Qed.

Lemma introspection_deterministic_witness :
  exists r r',
    introspectMachineFrom sendPerDelay cancelPerDelay noTransitions noMatches
      2 [] lightMachine = Some r
    /\ introspectMachineFrom sendPerDelay cancelPerDelay noTransitions noMatches
         7 ["light"; "light.green"; "light.red"] lightMachine = Some r'
    /\ r = r'.
Proof.
  eexists. eexists. split; [vm_compute; reflexivity|].
  split; [vm_compute; reflexivity|].
  apply (introspection_deterministic sendPerDelay cancelPerDelay noTransitions
           noMatches 2 7 [] ["light"; "light.green"; "light.red"] lightMachine);
    [exact perDelay_xstate_own|vm_compute; reflexivity|vm_compute; reflexivity].
Defined.



(** Without the condition of C9 the budget can be exhausted: when the
    child of the root carries the root's id, the root is recorded as its
    own child, and no budget suffices. *)
Lemma shared_id_exhausts_every_budget
  (getTransitionsFromNode : StateNode.t -> list string) (fuel : nat) :
  exists s,
    traverse echoMachine = Ok s
    /\ makeSubStateFromNode getTransitionsFromNode fuel (Machine.root echoMachine)
         echoMachine (State.nodeMap s) = None.
Proof.
  eexists. split; [vm_compute; reflexivity|].
  induction fuel as [|fuel IH]; [reflexivity|].
  cbn [makeSubStateFromNode]. change (StateNode.id (Machine.root echoMachine)) with "m".
  change (Machine.getStateNodeById echoMachine "m") with (Ok (Machine.root echoMachine)).
  cbn [obj_get decide]. simpl. simpl in IH. rewrite IH. reflexivity.
Qed.

(** C10: the exclusion of the name [cond] holds for the guard of a
    transition only.  A branch of [xstate.choose] whose guard is the
    string [cond] is registered in the guards registry with the event of
    its transition; a transition whose own guard is named [cond] leaves
    the registries as they are; so [cond] is in the guards registry only
    when a branch of a transition has it as its guard; and the report of
    the guards of [chooseMachine] has the line of [cond]. *)
Theorem cond_sentinel_only_for_transitions :
  (forall machine s node transition branch,
     traverse machine = Ok s ->
     visited machine node ->
     transition ∈ StateNode.transitions node ->
     chooseBranchOf transition branch ->
     ChooseCondition.cond branch = GuardString "cond" ->
     registered (State.guards s) "cond" (Transition.eventType transition))
  /\ (forall node transition guard s,
        Transition.cond transition = Some guard ->
        Guard.name guard = "cond" ->
        addTransitionGuard node transition s = s)
  /\ (forall machine s,
        traverse machine = Ok s ->
        hasItem (State.guards s) "cond" ->
        exists node transition,
          visited machine node
          /\ transition ∈ StateNode.transitions node
          /\ branchGuard transition "cond")
  /\ exists report,
       introspectMachine noTransitions noMatches 1 chooseMachine = Some (Ok report)
       /\ ItemLine.mk "cond" true ["PICK"] ["{}"]
          ∈ DataShape.lines (IntrospectMachineResult.guards report).
Proof.
  split; [|split; [|split]].
  - intros machine s node transition branch Hrun Hvisited Hin Hbranch Hcond.
    destruct (traverse_registers machine s node transition branch) as [Hguard _];
      auto.
  - intros node transition guard s Hguard Hname. unfold addTransitionGuard.
    rewrite Hguard, Hname. reflexivity.
  - intros machine s Hrun Hitem.
    destruct (traverse_guard_source machine s "cond" Hrun Hitem)
      as (node & transition & Hvisited & Hin & [Hguard|Hbranch]).
    + destruct Hguard as (guard & _ & _ & _ & Hne). congruence.
    + eauto.
  - eexists. split; [vm_compute; reflexivity|]. simpl. left.
Qed.

Lemma cond_sentinel_only_for_transitions_witness :
  exists s,
    traverse chooseMachine = Ok s
    /\ registered (State.guards s) "cond" "PICK".
Proof.
  assert (exists s, traverse chooseMachine = Ok s) as [s Hrun]
    by (eexists; vm_compute; reflexivity).
  exists s. split; [exact Hrun|].
  apply (proj1 cond_sentinel_only_for_transitions chooseMachine s chooseRoot
           chooseTransition
           (ChooseCondition.mk (GuardString "cond") (ActionsString "one"))).
  - exact Hrun.
  - vm_compute. reflexivity.
  - simpl. left.
  - exists chooseAction. eexists. split; [simpl; left|].
    split; [reflexivity|]. split; [reflexivity|]. left.
  - reflexivity.
Defined.

(** * Further properties of the report *)

(** X1: in each category of a report, a line is required exactly when
    [Boolean(table[name])] is false for the table of that category in
    the options of the machine (the name is absent, or its implementation
    is falsy), and the category is required exactly when one of its
    lines is. *)
Theorem required_is_not_Boolean_of_table {Matches : Type}
  (getTransitionsFromNode : StateNode.t -> list string)
  (getMatchesStates : StateNode.t -> Matches)
  (fuel : nat) (machine : Machine.t) (report : IntrospectMachineResult.t Matches) :
  introspectMachine getTransitionsFromNode getMatchesStates fuel machine
  = Some (Ok report) ->
  let options := Machine.options machine in
  requiredBy (MachineOptions.guards options) (IntrospectMachineResult.guards report)
  /\ requiredBy (MachineOptions.actions options)
       (IntrospectMachineResult.actions report)
  /\ requiredBy (MachineOptions.services options)
       (IntrospectMachineResult.services report)
  /\ requiredBy (MachineOptions.activities options)
       (IntrospectMachineResult.activities report)
  /\ requiredBy (MachineOptions.delays options)
       (IntrospectMachineResult.delays report).
Proof.
  intros (s & subState & Hrun & _ & ->)%introspectMachine_Ok. simpl.
  destruct (traverse_checksOf machine s Hrun) as [nodes Hchecks].
  unfold checksOf in Hchecks. simpl in Hchecks.
  injection Hchecks as Hg Ha Hs Hv Hd.
  split; [|split; [|split; [|split]]]; apply toDataShape_requiredBy; assumption.
Qed.

Lemma required_is_not_Boolean_of_table_witness :
  exists report,
    introspectMachine noTransitions noMatches 1 zeroDelayMachine = Some (Ok report)
    /\ requiredBy (MachineOptions.delays (Machine.options zeroDelayMachine))
         (IntrospectMachineResult.delays report).
Proof.
  eexists. split; [vm_compute; reflexivity|].
  apply (required_is_not_Boolean_of_table noTransitions noMatches 1 zeroDelayMachine).
  vm_compute. reflexivity.
Defined.

(** X2: for every transition of a visited node and every target of it
    whose id is not [__proto__], the report has an edge for the target,
    with the event of the transition among its sources. *)
Theorem transition_event_is_source_of_target {Matches : Type}
  (getTransitionsFromNode : StateNode.t -> list string)
  (getMatchesStates : StateNode.t -> Matches)
  (fuel : nat) (machine : Machine.t) (report : IntrospectMachineResult.t Matches)
  (node : StateNode.t) (transition : Transition.t)
  (targets : list TargetNode.t) (targetNode : TargetNode.t) :
  introspectMachine getTransitionsFromNode getMatchesStates fuel machine
  = Some (Ok report) ->
  visited machine node ->
  transition ∈ StateNode.transitions node ->
  Transition.target transition = Some targets ->
  targetNode ∈ targets ->
  TargetNode.id targetNode <> "__proto__" ->
  exists edge,
    edge ∈ IntrospectMachineResult.states report
    /\ StateEdge.id edge = TargetNode.id targetNode
    /\ Transition.eventType transition ∈ StateEdge.sources edge.
Proof.
  intros (s & subState & Hrun & _ & ->)%introspectMachine_Ok Hvisited Hin Htarget Htin
    Hproto.
  destruct (traverse_sources machine s node transition targets targetNode)
    as (entry & Hentry & Hsource); auto.
  exists (StateEdge.mk (TargetNode.id targetNode) (NodeEntry.sources entry)).
  split; [|split; [reflexivity|exact Hsource]]. simpl.
  apply list_elem_of_In, in_map_iff. exists (TargetNode.id targetNode, entry).
  split; [reflexivity|]. apply list_elem_of_In, list_elem_of_filter.
  split; [exact Hproto|now apply obj_get_Some_elem].
Qed.

Lemma transition_event_is_source_of_target_witness :
  exists report edge,
    introspectMachine noTransitions noMatches 2 goMachine = Some (Ok report)
    /\ edge ∈ IntrospectMachineResult.states report
    /\ StateEdge.id edge = "m.B"
    /\ "GO" ∈ StateEdge.sources edge.
Proof.
  assert (exists report,
             introspectMachine noTransitions noMatches 2 goMachine = Some (Ok report))
    as [report Hrun] by (eexists; vm_compute; reflexivity).
  destruct (transition_event_is_source_of_target noTransitions noMatches 2 goMachine
              report goNodeA
              (Transition.mk "GO" (Some [TargetNode.mk "m.B" [invokeFetchData]]) None [])
              [TargetNode.mk "m.B" [invokeFetchData]]
              (TargetNode.mk "m.B" [invokeFetchData]))
    as (edge & Hedge & Hid & Hsource).
  - exact Hrun.
  - vm_compute. reflexivity.
  - simpl. left.
  - reflexivity.
  - left.
  - discriminate.
  - exists report, edge. auto.
Defined.




(** X28: a run on a machine that arrives with the delayed transitions of
    some nodes built returns what [introspectMachine] returns on the nodes
    read before any is built, the same report or the same error, where the
    actions that XState pushes onto the nodes are of its own and the two
    helpers return for a built node what they return for the node. *)
Theorem built_nodes_do_not_show {Matches : Type}
  (sendActions cancelActions : StateNode.t -> list ActionObject.t)
  (getTransitionsFromNode : StateNode.t -> list string)
  (getMatchesStates : StateNode.t -> Matches)
  (fuel : nat) (built : list string) (machine : Machine.t) :
  (forall node action,
     action ∈ sendActions node ++ cancelActions node ->
     xstateRegex_test (ActionObject.type action) = true) ->
  (forall node,
     getTransitionsFromNode (builtNode sendActions cancelActions node)
     = getTransitionsFromNode node) ->
  getMatchesStates (builtNode sendActions cancelActions (Machine.root machine))
  = getMatchesStates (Machine.root machine) ->
  introspectMachineFrom sendActions cancelActions getTransitionsFromNode
    getMatchesStates fuel built machine
  = introspectMachine getTransitionsFromNode getMatchesStates fuel machine.
Proof.
  intros Hown HgetT HgetM. rewrite introspectMachineFrom_plain by exact Hown.
  unfold introspectMachine.
  destruct (traverse machine) as [s|e]; [|reflexivity].
  rewrite (makeSubStateFromNode_ext _ getTransitionsFromNode) by exact HgetT.
  now rewrite HgetM.
Qed.

Lemma built_nodes_do_not_show_witness :
  introspectMachineFrom sendPerDelay cancelPerDelay noTransitions noMatches
    2 ["light.green"] lightMachine
  = introspectMachine noTransitions noMatches 2 lightMachine.
Proof.
  apply (built_nodes_do_not_show sendPerDelay cancelPerDelay noTransitions noMatches
           2 ["light.green"] lightMachine);
    [exact perDelay_xstate_own|reflexivity|reflexivity].
Defined.

(** * The rest of the code *)

(** ** Relations that the methods respect hold along the passes

    The guards registry is only changed by [addEventToItem], the
    activities registry only by [addItem], the delays registry only by
    [addItem] and by [addEventToItem] with the event [xstate.init]. *)

Lemma loop_related (R : ItemMap.t -> ItemMap.t -> Prop) {A : Type}
  (f : A -> ItemMap.t -> ItemMap.t) l this :
  (forall im, R im im) -> (forall a b c, R a b -> R b c -> R a c) ->
  (forall x im, R im (f x im)) -> R this (forEachPure f l this).
Proof.
  intros Hrefl Htrans Hf. apply (forEachPure_invariant f (R this)); [|apply Hrefl].
  intros x im _ H. eapply Htrans; [exact H|apply Hf].
Qed.

Section RegistryRelations.
Variables Rg Ra Rs Rv Rd : ItemMap.t -> ItemMap.t -> Prop.
Hypothesis Rg_refl : forall this, Rg this this.
Hypothesis Ra_refl : forall this, Ra this this.
Hypothesis Rs_refl : forall this, Rs this this.
Hypothesis Rv_refl : forall this, Rv this this.
Hypothesis Rd_refl : forall this, Rd this this.
Hypothesis Rg_trans : forall a b c, Rg a b -> Rg b c -> Rg a c.
Hypothesis Ra_trans : forall a b c, Ra a b -> Ra b c -> Ra a c.
Hypothesis Rs_trans : forall a b c, Rs a b -> Rs b c -> Rs a c.
Hypothesis Rv_trans : forall a b c, Rv a b -> Rv b c -> Rv a c.
Hypothesis Rd_trans : forall a b c, Rd a b -> Rd b c -> Rd a c.
Hypothesis Rg_event : forall n e p this, Rg this (ItemMap.addEventToItem n e p this).
Hypothesis Ra_item : forall n p this, Ra this (ItemMap.addItem n p this).
Hypothesis Ra_event : forall n e p this, Ra this (ItemMap.addEventToItem n e p this).
Hypothesis Rs_item : forall n p this, Rs this (ItemMap.addItem n p this).
Hypothesis Rs_event : forall n e p this, Rs this (ItemMap.addEventToItem n e p this).
Hypothesis Rv_item : forall n p this, Rv this (ItemMap.addItem n p this).
Hypothesis Rd_item : forall n p this, Rd this (ItemMap.addItem n p this).
Hypothesis Rd_init :
  forall n p this, Rd this (ItemMap.addEventToItem n "xstate.init" p this).

Local Abbreviation related := (registriesRelatedBy Rg Ra Rs Rv Rd).

Lemma relatedBy_refl s : related s s.
Proof. repeat split; auto. Qed.

Lemma relatedBy_trans s t u : related s t -> related t u -> related s u.
Proof. intros (?&?&?&?&?) (?&?&?&?&?). repeat split; eauto. Qed.

Lemma relatedBy_loop {A : Type} (f : A -> State.t -> State.t) l s :
  (forall x t, related t (f x t)) -> related s (forEachPure f l s).
Proof.
  intros Hf. apply (forEachPure_invariant f (related s)); [|apply relatedBy_refl].
  intros x t _ H. eapply relatedBy_trans; [exact H|apply Hf].
Qed.

Lemma relatedBy_forEach {A : Type} (f : A -> State.t -> Result State.t) l s s' :
  (forall x t t', f x t = Ok t' -> related t t') ->
  forEach f l s = Ok s' -> related s s'.
Proof.
  intros Hf. apply (forEach_invariant f (related s)); [|apply relatedBy_refl].
  intros x t t' _ H Hx. eapply relatedBy_trans; [exact H|eapply Hf, Hx].
Qed.

Lemma relatedBy_onNodeMap f s s' : State.onNodeMap f s = Ok s' -> related s s'.
Proof. intros (nm & _ & ->)%onNodeMap_Ok. repeat split; auto. Qed.

Lemma relatedBy_addInitEvents node s : related s (addInitEvents node s).
Proof.
  unfold addInitEvents, registriesRelatedBy. simpl.
  split; [|split; [|split; [|split]]]; auto; apply loop_related; auto; intros x im.
  - destruct (truthy _); auto.
  - destruct (InvokeDefinition.src x); auto.
  - destruct (DelayedTransition.delay x); auto.
Qed.

Lemma relatedBy_addOccurrences node s : related s (addOccurrences node s).
Proof.
  unfold addOccurrences, registriesRelatedBy. simpl.
  split; [|split; [|split; [|split]]]; auto; apply loop_related; auto; intros x im.
  - destruct (InvokeDefinition.src x); auto.
  - destruct (_ && _); auto.
  - destruct (DelayedTransition.delay x); auto.
Qed.

Lemma relatedBy_addTransitionGuard node transition s :
  related s (addTransitionGuard node transition s).
Proof.
  unfold addTransitionGuard.
  destruct (Transition.cond transition) as [cond|]; [|apply relatedBy_refl].
  destruct (truthy _); [|apply relatedBy_refl].
  destruct (bool_decide _); [apply relatedBy_refl|].
  repeat split; simpl; auto.
Qed.

Lemma relatedBy_addTargetInvokes node transition s :
  related s (addTargetInvokes node transition s).
Proof.
  unfold addTargetInvokes.
  destruct (Transition.target transition); [|apply relatedBy_refl].
  repeat split; simpl; auto.
  apply loop_related; auto. intros targetNode im.
  apply loop_related; auto. intros service im'.
  destruct (InvokeDefinition.src service); auto.
Qed.

Lemma relatedBy_addChooseBranch node transition branch s :
  related s (addChooseBranch node transition branch s).
Proof.
  unfold addChooseBranch.
  destruct (ChooseCondition.cond branch), (ChooseCondition.actions branch);
    repeat split; simpl; auto;
    apply loop_related; auto; intros [name|] im; auto.
Qed.

Lemma relatedBy_addTransitionAction node transition action s :
  related s (addTransitionAction node transition action s).
Proof.
  unfold addTransitionAction.
  set (s1 := if negb _ then _ else s).
  assert (related s s1) as H1.
  { unfold s1. destruct (negb _); [|apply relatedBy_refl].
    repeat split; simpl; auto. }
  eapply relatedBy_trans; [exact H1|].
  destruct (bool_decide _); [|apply relatedBy_refl].
  destruct (ActionObject.conds action); [|apply relatedBy_refl].
  apply relatedBy_loop. intros. apply relatedBy_addChooseBranch.
Qed.

Lemma relatedBy_visitTransition node transition s s' :
  visitTransition node transition s = Ok s' -> related s s'.
Proof.
  unfold visitTransition.
  destruct (addSources transition s) as [s1|e] eqn:H1; simpl; [|discriminate].
  intros [= <-].
  eapply relatedBy_trans with (t := s1).
  { unfold addSources in H1. destruct (Transition.target transition).
    - eapply relatedBy_onNodeMap, H1.
    - injection H1 as <-. apply relatedBy_refl. }
  eapply relatedBy_trans; [apply relatedBy_addTransitionGuard|].
  eapply relatedBy_trans; [apply relatedBy_addTargetInvokes|].
  apply relatedBy_loop. intros. apply relatedBy_addTransitionAction.
Qed.

Lemma relatedBy_visitNode node s s' : visitNode node s = Ok s' -> related s s'.
Proof.
  unfold visitNode.
  set (s1 := if isInitialOrRoot node then _ else s).
  assert (related s s1) as H1.
  { unfold s1. destruct (isInitialOrRoot node);
      [apply relatedBy_addInitEvents|apply relatedBy_refl]. }
  destruct (addChildren node s1) as [s2|e] eqn:H2; simpl; [|discriminate].
  intros H3.
  eapply relatedBy_trans; [exact H1|].
  eapply relatedBy_trans; [eapply relatedBy_onNodeMap, H2|].
  eapply relatedBy_trans; [apply relatedBy_addOccurrences|].
  eapply relatedBy_forEach; [|exact H3].
  intros. eapply relatedBy_visitTransition; eauto.
Qed.

Lemma relatedBy_addEntrySources node action s s' :
  addEntrySources node action s = Ok s' -> related s s'.
Proof.
  unfold addEntrySources. destruct (obj_get _ _); [|discriminate].
  intros [= <-]. repeat split; simpl; auto. apply loop_related; auto.
Qed.

Lemma relatedBy_visitNodeActions node s s' :
  visitNodeActions node s = Ok s' -> related s s'.
Proof.
  unfold visitNodeActions. intros H.
  eapply relatedBy_trans; [|eapply relatedBy_forEach; [|exact H]].
  - repeat split; simpl; auto. apply loop_related; auto.
    intros action im. destruct (_ || _); auto.
  - intros action t t'. apply relatedBy_addEntrySources.
Qed.

Lemma relatedBy_traverse machine s :
  traverse machine = Ok s -> exists nodes, related (initState machine nodes) s.
Proof.
  intros (nodes & s1 & _ & H1 & H2)%traverse_Ok. exists nodes.
  eapply relatedBy_trans.
  - eapply relatedBy_forEach; [|exact H1]. intros. eapply relatedBy_visitNode; eauto.
  - eapply relatedBy_forEach; [|exact H2].
    intros. eapply relatedBy_visitNodeActions; eauto.
Qed.
End RegistryRelations.

(** The case of one relation for the five categories. *)
Section RegistryRelation.
Variable R : ItemMap.t -> ItemMap.t -> Prop.
Hypothesis R_refl : forall this, R this this.
Hypothesis R_trans : forall a b c, R a b -> R b c -> R a c.
Hypothesis R_addItem : forall n p this, R this (ItemMap.addItem n p this).
Hypothesis R_addEventToItem :
  forall n e p this, R this (ItemMap.addEventToItem n e p this).

Lemma related_refl s : registriesRelated R s s.
Proof. apply relatedBy_refl; auto. Qed.

Lemma related_trans s t u :
  registriesRelated R s t -> registriesRelated R t u -> registriesRelated R s u.
Proof. apply relatedBy_trans; auto. Qed.

Lemma related_loop {A : Type} (f : A -> State.t -> State.t) l s :
  (forall x t, registriesRelated R t (f x t)) ->
  registriesRelated R s (forEachPure f l s).
Proof. apply relatedBy_loop; auto. Qed.

Lemma related_forEach {A : Type} (f : A -> State.t -> Result State.t) l s s' :
  (forall x t t', f x t = Ok t' -> registriesRelated R t t') ->
  forEach f l s = Ok s' -> registriesRelated R s s'.
Proof. apply relatedBy_forEach; auto. Qed.

Lemma related_onNodeMap f s s' :
  State.onNodeMap f s = Ok s' -> registriesRelated R s s'.
Proof. apply relatedBy_onNodeMap; auto. Qed.

Lemma related_addOccurrences node s : registriesRelated R s (addOccurrences node s).
Proof. apply relatedBy_addOccurrences; auto. Qed.

Lemma related_addChooseBranch node transition branch s :
  registriesRelated R s (addChooseBranch node transition branch s).
Proof. apply relatedBy_addChooseBranch; auto. Qed.

Lemma related_addTransitionAction node transition action s :
  registriesRelated R s (addTransitionAction node transition action s).
Proof. apply relatedBy_addTransitionAction; auto. Qed.

Lemma related_visitTransition node transition s s' :
  visitTransition node transition s = Ok s' -> registriesRelated R s s'.
Proof. apply relatedBy_visitTransition; auto. Qed.

Lemma related_visitNode node s s' :
  visitNode node s = Ok s' -> registriesRelated R s s'.
Proof. apply relatedBy_visitNode; auto. Qed.

Lemma related_addEntrySources node action s s' :
  addEntrySources node action s = Ok s' -> registriesRelated R s s'.
Proof. apply relatedBy_addEntrySources; auto. Qed.

Lemma related_visitNodeActions node s s' :
  visitNodeActions node s = Ok s' -> registriesRelated R s s'.
Proof. apply relatedBy_visitNodeActions; auto. Qed.

Lemma related_traverse machine s :
  traverse machine = Ok s ->
  exists nodes, registriesRelated R (initState machine nodes) s.
Proof. apply relatedBy_traverse; auto. Qed.
End RegistryRelation.

(** ** Registries only grow *)

Lemma registryGrows_refl this : registryGrows this this.
Proof. split; [auto|apply extends_refl]. Qed.

Lemma registryGrows_trans a b c :
  registryGrows a b -> registryGrows b c -> registryGrows a c.
Proof. intros [? ?] [? ?]. split; [auto|eapply extends_trans; eauto]. Qed.

Lemma registryGrows_addItem n p this : registryGrows this (ItemMap.addItem n p this).
Proof.
  split; [|apply extends_addItem]. intros n' H. apply hasItem_addItem. now right.
Qed.

Lemma registryGrows_addEventToItem n e p this :
  registryGrows this (ItemMap.addEventToItem n e p this).
Proof.
  split; [|apply extends_addEventToItem].
  intros n' H. apply hasItem_addEventToItem. now right.
Qed.

Lemma grows_visitNode node s s' :
  visitNode node s = Ok s' -> registriesRelated registryGrows s s'.
Proof.
  apply related_visitNode;
    auto using registryGrows_refl, registryGrows_addItem, registryGrows_addEventToItem.
  apply registryGrows_trans.
Qed.

Lemma grows_visitNodeActions node s s' :
  visitNodeActions node s = Ok s' -> registriesRelated registryGrows s s'.
Proof.
  apply related_visitNodeActions;
    auto using registryGrows_refl, registryGrows_addItem, registryGrows_addEventToItem.
  apply registryGrows_trans.
Qed.

Lemma grows_visitTransition node transition s s' :
  visitTransition node transition s = Ok s' -> registriesRelated registryGrows s s'.
Proof.
  apply related_visitTransition;
    auto using registryGrows_refl, registryGrows_addItem, registryGrows_addEventToItem.
  apply registryGrows_trans.
Qed.

Lemma grows_onNodeMap f s s' :
  State.onNodeMap f s = Ok s' -> registriesRelated registryGrows s s'.
Proof. apply related_onNodeMap, registryGrows_refl. Qed.

Lemma grows_addOccurrences node s :
  registriesRelated registryGrows s (addOccurrences node s).
Proof.
  apply related_addOccurrences;
    auto using registryGrows_refl, registryGrows_addItem.
  apply registryGrows_trans.
Qed.

Lemma grows_transitions node s s' :
  forEach (visitTransition node) (StateNode.transitions node) s = Ok s' ->
  registriesRelated registryGrows s s'.
Proof.
  apply related_forEach; [apply registryGrows_refl|apply registryGrows_trans|].
  intros. eapply grows_visitTransition; eauto.
Qed.

Lemma grows_refl s : registriesRelated registryGrows s s.
Proof. apply related_refl, registryGrows_refl. Qed.

Lemma grows_trans s t u :
  registriesRelated registryGrows s t -> registriesRelated registryGrows t u ->
  registriesRelated registryGrows s u.
Proof. apply related_trans, registryGrows_trans. Qed.

(** What one visit of the first pass establishes holds at the end of the
    traversal, when growth keeps it. *)
Lemma traverse_after_visitNode (P : State.t -> Prop) machine s node :
  traverse machine = Ok s ->
  visited machine node ->
  (forall t u, registriesRelated registryGrows t u -> P t -> P u) ->
  (forall t t', visitNode node t = Ok t' -> P t') ->
  P s.
Proof.
  intros (nodes & s1 & Hnodes & H1 & H2)%traverse_Ok Hvisited Hup Hstep.
  destruct (allStateNodes_Ok machine) as (nodes' & Hnodes' & _ & Hvis).
  rewrite Hnodes in Hnodes'. injection Hnodes' as <-.
  apply (Hup s1).
  - revert H2.
    apply (forEach_invariant _ (registriesRelated registryGrows s1));
      [|apply grows_refl].
    intros n t t' _ IH Hn. eapply grows_trans; [exact IH|].
    eapply grows_visitNodeActions, Hn.
  - revert H1.
    apply (forEach_reaches _ (registriesRelated registryGrows) P nodes node); auto.
    + intros. eapply grows_visitNode; eauto.
    + apply grows_refl.
    + apply grows_trans.
    + now apply Hvis.
Qed.

(** The same for one visit of the second pass, which runs on the final
    [nodeMap]. *)
Lemma traverse_after_visitNodeActions (P : State.t -> Prop) machine s node :
  traverse machine = Ok s ->
  visited machine node ->
  (forall t u, registriesRelated registryGrows t u -> P t -> P u) ->
  (forall t t',
     State.nodeMap t = State.nodeMap s -> visitNodeActions node t = Ok t' -> P t') ->
  P s.
Proof.
  intros (nodes & s1 & Hnodes & H1 & H2)%traverse_Ok Hvisited Hup Hstep.
  destruct (allStateNodes_Ok machine) as (nodes' & Hnodes' & _ & Hvis).
  rewrite Hnodes in Hnodes'. injection Hnodes' as <-.
  assert (forall l t t',
            forEach visitNodeActions l t = Ok t' ->
            State.nodeMap t' = State.nodeMap t) as Hsame.
  { intros l t t'.
    apply (forEach_invariant _ (fun u => State.nodeMap u = State.nodeMap t));
      [|reflexivity].
    intros n u u' _ IH Hn. rewrite <- IH. eapply visitNodeActions_nodeMap, Hn. }
  apply Hvis in Hvisited.
  destruct (forEach_elem _ _ _ _ _ Hvisited H2)
    as (l1 & l2 & t & t' & _ & Ht & Hnode & Hrest).
  apply (Hup t').
  - revert Hrest.
    apply (forEach_invariant _ (registriesRelated registryGrows t'));
      [|apply grows_refl].
    intros n u u' _ IH Hn. eapply grows_trans; [exact IH|].
    eapply grows_visitNodeActions, Hn.
  - apply (Hstep t t'); [|exact Hnode].
    rewrite (Hsame _ _ _ Hrest), (visitNodeActions_nodeMap _ _ _ Hnode). reflexivity.
Qed.

(** What one transition of the visit establishes holds at its end. *)
Lemma visitNode_after_visitTransition (P : State.t -> Prop) node transition s s' :
  visitNode node s = Ok s' ->
  transition ∈ StateNode.transitions node ->
  (forall t u, registriesRelated registryGrows t u -> P t -> P u) ->
  (forall t t', visitTransition node transition t = Ok t' -> P t') ->
  P s'.
Proof.
  unfold visitNode. intros Hrun Hin Hup Hstep.
  destruct (addChildren node _) as [s2|e]; simpl in Hrun; [|discriminate].
  revert Hrun.
  apply (forEach_reaches _ (registriesRelated registryGrows) P
           (StateNode.transitions node) transition); auto.
  - intros. eapply grows_visitTransition; eauto.
  - apply grows_refl.
  - apply grows_trans.
Qed.

(** What [addInitEvents] or [addOccurrences] establishes holds at the end
    of the visit. *)
Lemma visitNode_after_addInitEvents (P : State.t -> Prop) node s s' :
  visitNode node s = Ok s' ->
  isInitialOrRoot node = true ->
  (forall t u, registriesRelated registryGrows t u -> P t -> P u) ->
  (forall t, P (addInitEvents node t)) ->
  P s'.
Proof.
  unfold visitNode. intros Hrun Hinit Hup Hstep. rewrite Hinit in Hrun.
  destruct (addChildren node _) as [s2|e] eqn:H2; simpl in Hrun; [|discriminate].
  apply (Hup (addInitEvents node s)); [|apply Hstep].
  eapply grows_trans; [eapply grows_onNodeMap, H2|].
  eapply grows_trans; [apply grows_addOccurrences|].
  eapply grows_transitions, Hrun.
Qed.

Lemma visitNode_after_addOccurrences (P : State.t -> Prop) node s s' :
  visitNode node s = Ok s' ->
  (forall t u, registriesRelated registryGrows t u -> P t -> P u) ->
  (forall t, P (addOccurrences node t)) ->
  P s'.
Proof.
  unfold visitNode. intros Hrun Hup Hstep.
  destruct (addChildren node _) as [s2|e] eqn:H2; simpl in Hrun; [|discriminate].
  apply (Hup (addOccurrences node s2)); [|apply Hstep].
  eapply grows_transitions, Hrun.
Qed.

(** ** From a registry to its report *)

Lemma hasItem_reportsItem this name :
  hasItem this name -> hasDot name = false ->
  reportsItem (ItemMap.toDataShape this) name.
Proof.
  intros [data Hdata]%obj_key_get Hdot.
  exists (lineOf (ItemMap.checkIfOptional this) (name, data)). split; [|reflexivity].
  apply toDataShape_line. exists (name, data). split; [|auto].
  now apply obj_get_Some_elem.
Qed.

Lemma registered_reportsEvent this name event :
  registered this name event -> hasDot name = false ->
  reportsEvent (ItemMap.toDataShape this) name event.
Proof.
  unfold registered, eventsOf. intros Hevent Hdot.
  destruct (obj_get name (ItemMap.map this)) as [data|] eqn:Hdata;
    [|now apply elem_of_nil in Hevent].
  exists (lineOf (ItemMap.checkIfOptional this) (name, data)).
  split; [|split; [reflexivity|exact Hevent]].
  apply toDataShape_line. exists (name, data). split; [|auto].
  now apply obj_get_Some_elem.
Qed.

(** ** What each step registers *)

Lemma item_loop_registers {A : Type} (f : A -> ItemMap.t -> ItemMap.t) l x this n e :
  (forall y im, registryGrows im (f y im)) ->
  (forall im, registered (f x im) n e) ->
  x ∈ l -> registered (forEachPure f l this) n e.
Proof.
  intros Hgrow Hx Hin.
  apply (forEachPure_reaches f registryGrows (fun im => registered im n e) l x); auto.
  - apply registryGrows_refl.
  - apply registryGrows_trans.
  - intros t u [_ Hext]. apply Hext.
Qed.

Lemma item_loop_hasItem {A : Type} (f : A -> ItemMap.t -> ItemMap.t) l x this n :
  (forall y im, registryGrows im (f y im)) ->
  (forall im, hasItem (f x im) n) ->
  x ∈ l -> hasItem (forEachPure f l this) n.
Proof.
  intros Hgrow Hx Hin.
  apply (forEachPure_reaches f registryGrows (fun im => hasItem im n) l x); auto.
  - apply registryGrows_refl.
  - apply registryGrows_trans.
  - intros t u [Hitem _]. apply Hitem.
Qed.

Lemma hasItem_addItem_same n p this : hasItem (ItemMap.addItem n p this) n.
Proof. apply hasItem_addItem. now left. Qed.

Lemma addInitEvents_registers node s :
  (forall service src,
     service ∈ StateNode.invoke node ->
     InvokeDefinition.src service = SrcString src ->
     registered (State.services (addInitEvents node s)) src "xstate.init")
  /\ (forall action,
        action ∈ StateNode.onEntry node ->
        truthy (ActionObject.type action) = true ->
        registered (State.actions (addInitEvents node s)) (ActionObject.type action)
          "xstate.init")
  /\ (forall delayed delay,
        delayed ∈ StateNode.after node ->
        DelayedTransition.delay delayed = DelayString delay ->
        registered (State.delays (addInitEvents node s)) delay "xstate.init").
Proof.
  unfold addInitEvents. simpl. split; [|split].
  - intros service src Hin Hsrc.
    apply (item_loop_registers _ _ service); auto.
    + intros y im. destruct (InvokeDefinition.src y);
        [apply registryGrows_addEventToItem|apply registryGrows_refl].
    + intros im. rewrite Hsrc. apply registered_addEventToItem_same.
  - intros action Hin Htype.
    apply (item_loop_registers _ _ action); auto.
    + intros y im. destruct (truthy (ActionObject.type y));
        [apply registryGrows_addEventToItem|apply registryGrows_refl].
    + intros im. rewrite Htype. apply registered_addEventToItem_same.
  - intros delayed delay Hin Hdelay.
    apply (item_loop_registers _ _ delayed); auto.
    + intros y im. destruct (DelayedTransition.delay y);
        [apply registryGrows_addEventToItem|apply registryGrows_refl].
    + intros im. rewrite Hdelay. apply registered_addEventToItem_same.
Qed.

Lemma addOccurrences_items node s :
  (forall activity,
     activity ∈ StateNode.activities node ->
     truthy (ActivityDefinition.type activity) = true ->
     ActivityDefinition.type activity <> "xstate.invoke" ->
     hasItem (State.activities (addOccurrences node s)) (ActivityDefinition.type activity))
  /\ (forall delayed delay,
        delayed ∈ StateNode.after node ->
        DelayedTransition.delay delayed = DelayString delay ->
        hasItem (State.delays (addOccurrences node s)) delay)
  /\ (forall service src,
        service ∈ StateNode.invoke node ->
        InvokeDefinition.src service = SrcString src ->
        hasItem (State.services (addOccurrences node s)) src).
Proof.
  unfold addOccurrences. simpl. split; [|split].
  - intros activity Hin Htype Hne.
    apply (item_loop_hasItem _ _ activity); auto.
    + intros y im. destruct (_ && _);
        [apply registryGrows_addItem|apply registryGrows_refl].
    + intros im. rewrite Htype, bool_decide_eq_false_2 by exact Hne. simpl.
      apply hasItem_addItem_same.
  - intros delayed delay Hin Hdelay.
    apply (item_loop_hasItem _ _ delayed); auto.
    + intros y im. destruct (DelayedTransition.delay y);
        [apply registryGrows_addItem|apply registryGrows_refl].
    + intros im. rewrite Hdelay. apply hasItem_addItem_same.
  - intros service src Hin Hsrc.
    apply (item_loop_hasItem _ _ service); auto.
    + intros y im. destruct (InvokeDefinition.src y);
        [apply registryGrows_addItem|apply registryGrows_refl].
    + intros im. rewrite Hsrc. apply hasItem_addItem_same.
Qed.

Lemma grows_addTransitionAction node transition action s :
  registriesRelated registryGrows s (addTransitionAction node transition action s).
Proof.
  apply related_addTransitionAction;
    auto using registryGrows_refl, registryGrows_addEventToItem.
  apply registryGrows_trans.
Qed.

Lemma visitTransition_registers_own node transition s s' :
  visitTransition node transition s = Ok s' ->
  (forall guard,
     Transition.cond transition = Some guard ->
     truthy (Guard.name guard) = true ->
     Guard.name guard <> "cond" ->
     registered (State.guards s') (Guard.name guard) (Transition.eventType transition))
  /\ (forall targets targetNode service src,
        Transition.target transition = Some targets ->
        targetNode ∈ targets ->
        service ∈ TargetNode.invoke targetNode ->
        InvokeDefinition.src service = SrcString src ->
        registered (State.services s') src (Transition.eventType transition))
  /\ (forall action,
        action ∈ Transition.actions transition ->
        xstateRegex_test (ActionObject.type action) = false ->
        registered (State.actions s') (ActionObject.type action)
          (Transition.eventType transition)).
Proof.
  unfold visitTransition.
  destruct (addSources transition s) as [s1|e] eqn:H1; simpl; [|discriminate].
  intros [= <-].
  set (s2 := addTransitionGuard node transition s1).
  set (s3 := addTargetInvokes node transition s2).
  assert (registriesRelated registryGrows s3
            (forEachPure (addTransitionAction node transition)
               (Transition.actions transition) s3)) as (Hg & Ha & Hs & _).
  { apply related_loop; [apply registryGrows_refl|apply registryGrows_trans|].
    intros. apply grows_addTransitionAction. }
  split; [|split].
  - intros guard Hcond Htruthy Hne. apply Hg. unfold s3.
    rewrite guards_addTargetInvokes. unfold s2, addTransitionGuard.
    rewrite Hcond, Htruthy, bool_decide_eq_false_2 by exact Hne. simpl.
    apply registered_addEventToItem_same.
  - intros targets targetNode service src Htarget Htin Hin Hsrc. apply Hs.
    unfold s3, addTargetInvokes. rewrite Htarget. simpl.
    apply (item_loop_registers _ _ targetNode); auto.
    + intros y im. split.
      * intros n. apply (forEachPure_invariant _ (fun im' => hasItem im n -> hasItem im' n));
          [|auto].
        intros z im' _ IH H. destruct (InvokeDefinition.src z); [|auto].
        apply hasItem_addEventToItem. right. auto.
      * apply extends_forEachPure. intros z im'.
        destruct (InvokeDefinition.src z); [apply extends_addEventToItem|apply extends_refl].
    + intros im. apply (item_loop_registers _ _ service); auto.
      * intros z im'. destruct (InvokeDefinition.src z);
          [apply registryGrows_addEventToItem|apply registryGrows_refl].
      * intros im'. rewrite Hsrc. apply registered_addEventToItem_same.
  - intros action Hin Htest.
    apply (forEachPure_reaches _ (registriesRelated registryGrows)
             (fun t => registered (State.actions t) (ActionObject.type action)
                         (Transition.eventType transition))
             (Transition.actions transition) action); auto.
    + intros. apply grows_addTransitionAction.
    + apply grows_refl.
    + apply grows_trans.
    + intros t u (_ & [_ Hext] & _). apply Hext.
    + intros t.
      pose proof (related_addChooseBranch registryGrows registryGrows_refl
                    registryGrows_trans registryGrows_addEventToItem) as Hbranch.
      unfold addTransitionAction. rewrite Htest. simpl.
      set (t1 := State.onActions _ t).
      assert (registered (State.actions t1) (ActionObject.type action)
                (Transition.eventType transition)) as H1'.
      { unfold t1. simpl. apply registered_addEventToItem_same. }
      destruct (bool_decide _); [|exact H1'].
      destruct (ActionObject.conds action) as [conds|]; [|exact H1'].
      assert (registriesRelated registryGrows t1
                (forEachPure (addChooseBranch node transition) conds t1))
        as (_ & [_ Hext] & _).
      { apply related_loop; [apply registryGrows_refl|apply registryGrows_trans|].
        intros. apply Hbranch. }
      apply Hext, H1'.
Qed.

Lemma addEntrySources_registers node action s s' event :
  addEntrySources node action s = Ok s' ->
  hasSource (State.nodeMap s) (StateNode.id node) event ->
  registered (State.actions s') (ActionObject.type action) event.
Proof.
  unfold addEntrySources. intros Hrun (entry & Hentry & Hevent).
  rewrite Hentry in Hrun. injection Hrun as <-. simpl.
  apply (item_loop_registers _ _ event); auto.
  - intros. apply registryGrows_addEventToItem.
  - intros. apply registered_addEventToItem_same.
Qed.

Lemma visitNodeActions_registers node s s' :
  visitNodeActions node s = Ok s' ->
  (forall action event,
     action ∈ StateNode.onEntry node ->
     hasSource (State.nodeMap s) (StateNode.id node) event ->
     registered (State.actions s') (ActionObject.type action) event)
  /\ (forall action,
        action ∈ StateNode.onExit node ++ StateNode.onEntry node ->
        xstateRegex_test (ActionObject.type action) = false ->
        ActionObject.exec action = false ->
        hasItem (State.actions s') (ActionObject.type action)).
Proof.
  unfold visitNodeActions. set (s1 := State.onActions _ s). intros Hrun.
  assert (forall l t t',
            forEach (addEntrySources node) l t = Ok t' ->
            registriesRelated registryGrows t t'
            /\ State.nodeMap t' = State.nodeMap t) as Hloop.
  { intros l t t'.
    apply (forEach_invariant _
             (fun u => registriesRelated registryGrows t u
                       /\ State.nodeMap u = State.nodeMap t)).
    - intros action u u' _ [IH1 IH2] Hstep. split.
      + eapply grows_trans; [exact IH1|].
        eapply related_addEntrySources; [..|exact Hstep];
          auto using registryGrows_refl, registryGrows_addEventToItem.
        apply registryGrows_trans.
      + rewrite <- IH2. unfold addEntrySources in Hstep.
        destruct (obj_get _ _); [|discriminate]. now injection Hstep as <-.
    - split; [apply grows_refl|reflexivity]. }
  split.
  - intros action event Hin Hsource.
    destruct (forEach_elem _ _ _ _ _ Hin Hrun)
      as (l1 & l2 & t & t' & _ & Ht & Hstep & Hrest).
    destruct (Hloop _ _ _ Hrest) as [(_ & [_ Hext] & _) _]. apply Hext.
    eapply addEntrySources_registers; [exact Hstep|].
    destruct (Hloop _ _ _ Ht) as [_ ->]. exact Hsource.
  - intros action Hin Htest Hexec.
    destruct (Hloop _ _ _ Hrun) as [(_ & [Hitem _] & _) _]. apply Hitem.
    unfold s1. simpl. apply (item_loop_hasItem _ _ action); auto.
    + intros y im. destruct (_ || _);
        [apply registryGrows_refl|apply registryGrows_addItem].
    + intros im. rewrite Htest, Hexec. simpl. apply hasItem_addItem_same.
Qed.

(** * Properties of the rest of the code *)

(** X3: a state node that is the root, or an initial state of its parent,
    has its invoked services (string [src]), its entry actions (non-empty
    [type]) and its named delays reported with the triggering event
    [xstate.init], when their names have no dot. *)
Theorem initial_node_items_report_xstate_init {Matches : Type}
  (getTransitionsFromNode : StateNode.t -> list string)
  (getMatchesStates : StateNode.t -> Matches)
  (fuel : nat) (machine : Machine.t) (report : IntrospectMachineResult.t Matches)
  (node : StateNode.t) :
  introspectMachine getTransitionsFromNode getMatchesStates fuel machine
  = Some (Ok report) ->
  visited machine node ->
  isInitialOrRoot node = true ->
  (forall service src,
     service ∈ StateNode.invoke node ->
     InvokeDefinition.src service = SrcString src ->
     hasDot src = false ->
     reportsEvent (IntrospectMachineResult.services report) src "xstate.init")
  /\ (forall action,
        action ∈ StateNode.onEntry node ->
        ActionObject.type action <> EmptyString ->
        hasDot (ActionObject.type action) = false ->
        reportsEvent (IntrospectMachineResult.actions report)
          (ActionObject.type action) "xstate.init")
  /\ (forall delayed delay,
        delayed ∈ StateNode.after node ->
        DelayedTransition.delay delayed = DelayString delay ->
        hasDot delay = false ->
        reportsEvent (IntrospectMachineResult.delays report) delay "xstate.init").
Proof.
  intros (s & subState & Hrun & _ & ->)%introspectMachine_Ok Hvisited Hinit. simpl.
  split; [|split].
  - intros service src Hin Hsrc Hdot. apply registered_reportsEvent; [|exact Hdot].
    apply (traverse_after_visitNode
             (fun t => registered (State.services t) src "xstate.init")
             machine s node); auto.
    + intros t u (_ & _ & [_ Hext] & _). apply Hext.
    + intros t t' Hstep.
      apply (visitNode_after_addInitEvents
               (fun t => registered (State.services t) src "xstate.init")
               node t t'); auto.
      * intros u v (_ & _ & [_ Hext] & _). apply Hext.
      * intros u. eapply addInitEvents_registers; eauto.
  - intros action Hin Htype Hdot. apply registered_reportsEvent; [|exact Hdot].
    apply (traverse_after_visitNode
             (fun t => registered (State.actions t) (ActionObject.type action)
                         "xstate.init")
             machine s node); auto.
    + intros t u (_ & [_ Hext] & _). apply Hext.
    + intros t t' Hstep.
      apply (visitNode_after_addInitEvents
               (fun t => registered (State.actions t) (ActionObject.type action)
                           "xstate.init")
               node t t'); auto.
      * intros u v (_ & [_ Hext] & _). apply Hext.
      * intros u. apply addInitEvents_registers; auto.
        now destruct (ActionObject.type action).
  - intros delayed delay Hin Hdelay Hdot. apply registered_reportsEvent; [|exact Hdot].
    apply (traverse_after_visitNode
             (fun t => registered (State.delays t) delay "xstate.init")
             machine s node); auto.
    + intros t u (_ & _ & _ & _ & [_ Hext]). apply Hext.
    + intros t t' Hstep.
      apply (visitNode_after_addInitEvents
               (fun t => registered (State.delays t) delay "xstate.init")
               node t t'); auto.
      * intros u v (_ & _ & _ & _ & [_ Hext]). apply Hext.
      * intros u. eapply addInitEvents_registers; eauto.
Qed.

Lemma initial_node_items_report_xstate_init_witness :
  exists report,
    introspectMachine noTransitions noMatches 2 lightMachine = Some (Ok report)
    /\ reportsEvent (IntrospectMachineResult.services report) "ticker" "xstate.init"
    /\ reportsEvent (IntrospectMachineResult.actions report) "enterGreen" "xstate.init"
    /\ reportsEvent (IntrospectMachineResult.delays report) "GREEN_TIME" "xstate.init".
Proof.
  assert (exists report,
             introspectMachine noTransitions noMatches 2 lightMachine = Some (Ok report))
    as [report Hrun] by (eexists; vm_compute; reflexivity).
  exists report. split; [exact Hrun|].
  destruct (initial_node_items_report_xstate_init noTransitions noMatches 2
              lightMachine report lightGreen Hrun) as (Hs & Ha & Hd).
  - vm_compute. reflexivity.
  - vm_compute. reflexivity.
  - split; [|split].
    + apply (Hs invokeTicker); [left|reflexivity|reflexivity].
    + apply (Ha (ActionObject.mk "enterGreen" false None));
        [left|discriminate|reflexivity].
    + apply (Hd (DelayedTransition.mk (DelayString "GREEN_TIME")));
        [left|reflexivity|reflexivity].
Defined.

(** X4: for every transition of a state node of the machine, the report
    has, with the event of the transition as a triggering event: the
    guard of the transition (named, and not named [cond]) among the
    guards, every action of the transition among the actions, and every
    service (string [src]) invoked by a target of the transition among
    the services; each when its name has no dot. *)
Theorem transition_items_report_its_event {Matches : Type}
  (getTransitionsFromNode : StateNode.t -> list string)
  (getMatchesStates : StateNode.t -> Matches)
  (fuel : nat) (machine : Machine.t) (report : IntrospectMachineResult.t Matches)
  (node : StateNode.t) (transition : Transition.t) :
  introspectMachine getTransitionsFromNode getMatchesStates fuel machine
  = Some (Ok report) ->
  visited machine node ->
  transition ∈ StateNode.transitions node ->
  (forall guard,
     Transition.cond transition = Some guard ->
     Guard.name guard <> EmptyString ->
     Guard.name guard <> "cond" ->
     hasDot (Guard.name guard) = false ->
     reportsEvent (IntrospectMachineResult.guards report) (Guard.name guard)
       (Transition.eventType transition))
  /\ (forall action,
        action ∈ Transition.actions transition ->
        hasDot (ActionObject.type action) = false ->
        reportsEvent (IntrospectMachineResult.actions report)
          (ActionObject.type action) (Transition.eventType transition))
  /\ (forall targets targetNode service src,
        Transition.target transition = Some targets ->
        targetNode ∈ targets ->
        service ∈ TargetNode.invoke targetNode ->
        InvokeDefinition.src service = SrcString src ->
        hasDot src = false ->
        reportsEvent (IntrospectMachineResult.services report) src
          (Transition.eventType transition)).
Proof.
  intros (s & subState & Hrun & _ & ->)%introspectMachine_Ok Hvisited Hin. simpl.
  assert (forall P : State.t -> Prop,
            (forall t u, registriesRelated registryGrows t u -> P t -> P u) ->
            (forall t t', visitTransition node transition t = Ok t' -> P t') ->
            P s) as Hreach.
  { intros P Hup Hstep.
    apply (traverse_after_visitNode P machine s node); auto.
    intros t t' Hnode.
    apply (visitNode_after_visitTransition P node transition t t'); auto. }
  split; [|split].
  - intros guard Hcond Hname Hne Hdot. apply registered_reportsEvent; [|exact Hdot].
    apply (Hreach (fun t => registered (State.guards t) (Guard.name guard)
                              (Transition.eventType transition))).
    + intros t u ([_ Hext] & _). apply Hext.
    + intros t t' Hstep. eapply visitTransition_registers_own; eauto.
      now destruct (Guard.name guard).
  - intros action Hain Hdot. apply registered_reportsEvent; [|exact Hdot].
    apply (Hreach (fun t => registered (State.actions t) (ActionObject.type action)
                              (Transition.eventType transition))).
    + intros t u (_ & [_ Hext] & _). apply Hext.
    + intros t t' Hstep. eapply visitTransition_registers_own; eauto.
      now apply hasDot_false_xstateRegex.
  - intros targets targetNode service src Htarget Htin Hsin Hsrc Hdot.
    apply registered_reportsEvent; [|exact Hdot].
    apply (Hreach (fun t => registered (State.services t) src
                              (Transition.eventType transition))).
    + intros t u (_ & _ & [_ Hext] & _). apply Hext.
    + intros t t' Hstep. eapply visitTransition_registers_own; eauto.
Qed.

Lemma transition_items_report_its_event_witness :
  exists report,
    introspectMachine noTransitions noMatches 2 lightMachine = Some (Ok report)
    /\ reportsEvent (IntrospectMachineResult.guards report) "canGo" "TIMER"
    /\ reportsEvent (IntrospectMachineResult.actions report) "log" "TIMER"
    /\ reportsEvent (IntrospectMachineResult.services report) "alarm" "TIMER".
Proof.
  assert (exists report,
             introspectMachine noTransitions noMatches 2 lightMachine = Some (Ok report))
    as [report Hrun] by (eexists; vm_compute; reflexivity).
  exists report. split; [exact Hrun|].
  destruct (transition_items_report_its_event noTransitions noMatches 2
              lightMachine report lightGreen lightTimer Hrun) as (Hg & Ha & Hs).
  - vm_compute. reflexivity.
  - left.
  - split; [|split].
    + apply (Hg (Guard.mk "canGo")); [reflexivity|discriminate|discriminate|reflexivity].
    + apply (Ha (ActionObject.mk "log" false None)); [left|reflexivity].
    + apply (Hs [lightTarget] lightTarget invokeAlarm);
        [reflexivity|left|left|reflexivity|reflexivity].
Defined.

(** X5: every named activity, named delay and invoked service (string
    [src]) of a state node of the machine, and every entry or exit action
    of it that carries no inline [exec], has a line in the report of its
    category, when its name has no dot (an activity or an action also when
    it triggers on no event). *)
Theorem named_items_have_a_line {Matches : Type}
  (getTransitionsFromNode : StateNode.t -> list string)
  (getMatchesStates : StateNode.t -> Matches)
  (fuel : nat) (machine : Machine.t) (report : IntrospectMachineResult.t Matches)
  (node : StateNode.t) :
  introspectMachine getTransitionsFromNode getMatchesStates fuel machine
  = Some (Ok report) ->
  visited machine node ->
  (forall activity,
     activity ∈ StateNode.activities node ->
     ActivityDefinition.type activity <> EmptyString ->
     hasDot (ActivityDefinition.type activity) = false ->
     reportsItem (IntrospectMachineResult.activities report)
       (ActivityDefinition.type activity))
  /\ (forall delayed delay,
        delayed ∈ StateNode.after node ->
        DelayedTransition.delay delayed = DelayString delay ->
        hasDot delay = false ->
        reportsItem (IntrospectMachineResult.delays report) delay)
  /\ (forall service src,
        service ∈ StateNode.invoke node ->
        InvokeDefinition.src service = SrcString src ->
        hasDot src = false ->
        reportsItem (IntrospectMachineResult.services report) src)
  /\ (forall action,
        action ∈ StateNode.onExit node ++ StateNode.onEntry node ->
        ActionObject.exec action = false ->
        hasDot (ActionObject.type action) = false ->
        reportsItem (IntrospectMachineResult.actions report)
          (ActionObject.type action)).
Proof.
  intros (s & subState & Hrun & _ & ->)%introspectMachine_Ok Hvisited. simpl.
  assert (forall P : State.t -> Prop,
            (forall t u, registriesRelated registryGrows t u -> P t -> P u) ->
            (forall t, P (addOccurrences node t)) ->
            P s) as Hreach.
  { intros P Hup Hstep.
    apply (traverse_after_visitNode P machine s node); auto.
    intros t t' Hnode. apply (visitNode_after_addOccurrences P node t t'); auto. }
  split; [|split; [|split]].
  - intros activity Hin Htype Hdot. apply hasItem_reportsItem; [|exact Hdot].
    apply (Hreach (fun t => hasItem (State.activities t)
                              (ActivityDefinition.type activity))).
    + intros t u (_ & _ & _ & [Hitem _] & _). apply Hitem.
    + intros t. apply addOccurrences_items; auto.
      * now destruct (ActivityDefinition.type activity).
      * intros Heq. rewrite Heq in Hdot. discriminate.
  - intros delayed delay Hin Hdelay Hdot. apply hasItem_reportsItem; [|exact Hdot].
    apply (Hreach (fun t => hasItem (State.delays t) delay)).
    + intros t u (_ & _ & _ & _ & [Hitem _]). apply Hitem.
    + intros t. eapply addOccurrences_items; eauto.
  - intros service src Hin Hsrc Hdot. apply hasItem_reportsItem; [|exact Hdot].
    apply (Hreach (fun t => hasItem (State.services t) src)).
    + intros t u (_ & _ & [Hitem _] & _). apply Hitem.
    + intros t. eapply addOccurrences_items; eauto.
  - intros action Hin Hexec Hdot. apply hasItem_reportsItem; [|exact Hdot].
    apply (traverse_after_visitNodeActions
             (fun t => hasItem (State.actions t) (ActionObject.type action))
             machine s node); auto.
    + intros t u (_ & [Hitem _] & _). apply Hitem.
    + intros t t' _ Hstep. eapply visitNodeActions_registers; eauto.
      now apply hasDot_false_xstateRegex.
Qed.

Lemma named_items_have_a_line_witness :
  exists report,
    introspectMachine noTransitions noMatches 2 lightMachine = Some (Ok report)
    /\ reportsItem (IntrospectMachineResult.activities report) "beeping"
    /\ reportsItem (IntrospectMachineResult.actions report) "leaveRed".
Proof.
  assert (exists report,
             introspectMachine noTransitions noMatches 2 lightMachine = Some (Ok report))
    as [report Hrun] by (eexists; vm_compute; reflexivity).
  exists report. split; [exact Hrun|].
  destruct (named_items_have_a_line noTransitions noMatches 2
              lightMachine report lightRed Hrun) as (Hv & _ & _ & Ha).
  - vm_compute. reflexivity.
  - split.
    + apply (Hv (ActivityDefinition.mk "beeping")); [left|discriminate|reflexivity].
    + apply (Ha (ActionObject.mk "leaveRed" false None));
        [left|reflexivity|reflexivity].
Defined.

Lemma obj_elem_get {V : Type} k (o : list (string * V)) v :
  NoDup (obj_keys o) -> (k, v) ∈ o -> obj_get k o = Some v.
Proof.
  unfold obj_keys. induction o as [|[k0 v0] o IH]; simpl; intros Hnodup Hin.
  - now apply elem_of_nil in Hin.
  - apply NoDup_cons in Hnodup as [Hk0 Hnodup].
    apply elem_of_cons in Hin as [[= -> ->]|Hin].
    + now rewrite decide_True.
    + destruct (decide (k = k0)) as [->|Hne]; [|auto].
      exfalso. apply Hk0. apply list_elem_of_In, in_map_iff.
      exists (k0, v). split; [reflexivity|now apply list_elem_of_In].
Qed.

(** The edge of a state in the report shows the sources that [nodeMap]
    holds for it. *)
Lemma edge_hasSource machine s edge event :
  traverse machine = Ok s ->
  edge ∈ map (fun entry => StateEdge.mk (fst entry) (NodeEntry.sources (snd entry)))
         (Object_entries (State.nodeMap s)) ->
  event ∈ StateEdge.sources edge ->
  hasSource (State.nodeMap s) (StateEdge.id edge) event.
Proof.
  intros Hrun Hedge Hevent.
  pose proof (traverse_keys machine) as Hkeys. rewrite Hrun in Hkeys.
  destruct Hkeys as [Hnodup _].
  apply list_elem_of_In, in_map_iff in Hedge as ([k entry] & <- & Hin).
  apply list_elem_of_In, list_elem_of_filter in Hin as [_ Hin].
  exists entry. split; [|exact Hevent].
  now apply obj_elem_get.
Qed.

(** X6: every entry action of a state node of the machine is reported
    with every source of the state's edge as a triggering event; so with
    the event of every transition that has a target with the id of the
    state.  This holds for an entry action with an inline [exec] too, when
    its type has no dot. *)
Theorem entry_actions_report_the_sources {Matches : Type}
  (getTransitionsFromNode : StateNode.t -> list string)
  (getMatchesStates : StateNode.t -> Matches)
  (fuel : nat) (machine : Machine.t) (report : IntrospectMachineResult.t Matches)
  (node : StateNode.t) (action : ActionObject.t) :
  introspectMachine getTransitionsFromNode getMatchesStates fuel machine
  = Some (Ok report) ->
  visited machine node ->
  action ∈ StateNode.onEntry node ->
  hasDot (ActionObject.type action) = false ->
  (forall edge event,
     edge ∈ IntrospectMachineResult.states report ->
     StateEdge.id edge = StateNode.id node ->
     event ∈ StateEdge.sources edge ->
     reportsEvent (IntrospectMachineResult.actions report)
       (ActionObject.type action) event)
  /\ (forall source transition targets targetNode,
        visited machine source ->
        transition ∈ StateNode.transitions source ->
        Transition.target transition = Some targets ->
        targetNode ∈ targets ->
        TargetNode.id targetNode = StateNode.id node ->
        reportsEvent (IntrospectMachineResult.actions report)
          (ActionObject.type action) (Transition.eventType transition)).
Proof.
  intros (s & subState & Hrun & _ & ->)%introspectMachine_Ok Hvisited Hin Hdot. simpl.
  assert (forall event,
            hasSource (State.nodeMap s) (StateNode.id node) event ->
            reportsEvent (ItemMap.toDataShape (State.actions s))
              (ActionObject.type action) event) as Hsource.
  { intros event Hevent. apply registered_reportsEvent; [|exact Hdot].
    apply (traverse_after_visitNodeActions
             (fun t => registered (State.actions t) (ActionObject.type action) event)
             machine s node); auto.
    - intros t u (_ & [_ Hext] & _). apply Hext.
    - intros t t' Hmap Hstep.
      eapply visitNodeActions_registers; eauto. now rewrite Hmap. }
  split.
  - intros edge event Hedge Hid Hevent. apply Hsource. rewrite <- Hid.
    eapply edge_hasSource; eauto.
  - intros source transition targets targetNode Hsrc Htin Htarget Htgt Hid.
    apply Hsource. rewrite <- Hid. eapply traverse_sources; eauto.
Qed.

Lemma entry_actions_report_the_sources_witness :
  exists report,
    introspectMachine noTransitions noMatches 2 lightMachine = Some (Ok report)
    /\ reportsEvent (IntrospectMachineResult.actions report) "enterRed" "TIMER".
Proof.
  assert (exists report,
             introspectMachine noTransitions noMatches 2 lightMachine = Some (Ok report))
    as [report Hrun] by (eexists; vm_compute; reflexivity).
  exists report. split; [exact Hrun|].
  destruct (entry_actions_report_the_sources noTransitions noMatches 2
              lightMachine report lightRed (ActionObject.mk "enterRed" false None) Hrun)
    as [_ Htransition].
  - vm_compute. reflexivity.
  - left.
  - reflexivity.
  - apply (Htransition lightGreen lightTimer [lightTarget] lightTarget).
    + vm_compute. reflexivity.
    + left.
    + reflexivity.
    + left.
    + reflexivity.
Defined.

(** ** Invariants of the registries *)

Lemma keepsProperty_refl (P : ItemMap.t -> Prop) this : keepsProperty P this this.
Proof. intros H. exact H. Qed.

Lemma keepsProperty_trans (P : ItemMap.t -> Prop) a b c :
  keepsProperty P a b -> keepsProperty P b c -> keepsProperty P a c.
Proof. unfold keepsProperty. auto. Qed.

Lemma addItem_keys_NoDup n p this :
  NoDup (obj_keys (ItemMap.map this)) ->
  NoDup (obj_keys (ItemMap.map (ItemMap.addItem n p this))).
Proof.
  unfold ItemMap.addItem. simpl. rewrite obj_keys_alter.
  destruct (obj_get n (ItemMap.map this)) eqn:Hget; [auto|].
  apply obj_get_None_key in Hget. rewrite obj_keys_set, decide_False by exact Hget.
  intros Hnodup. apply NoDup_app. split; [exact Hnodup|]. split; [|apply NoDup_singleton].
  intros k Hk ->%list_elem_of_singleton. contradiction.
Qed.

Lemma addEventToItem_keys_NoDup n e p this :
  NoDup (obj_keys (ItemMap.map this)) ->
  NoDup (obj_keys (ItemMap.map (ItemMap.addEventToItem n e p this))).
Proof.
  unfold ItemMap.addEventToItem. simpl. rewrite obj_keys_alter.
  apply addItem_keys_NoDup.
Qed.

(** No registry holds a name twice. *)
Lemma traverse_keys_NoDup machine s :
  traverse machine = Ok s ->
  NoDup (obj_keys (ItemMap.map (State.guards s)))
  /\ NoDup (obj_keys (ItemMap.map (State.actions s)))
  /\ NoDup (obj_keys (ItemMap.map (State.services s)))
  /\ NoDup (obj_keys (ItemMap.map (State.activities s)))
  /\ NoDup (obj_keys (ItemMap.map (State.delays s))).
Proof.
  intros Hrun.
  destruct (related_traverse
              (keepsProperty (fun im => NoDup (obj_keys (ItemMap.map im))))
              (keepsProperty_refl _) (keepsProperty_trans _)
              (fun n p this => addItem_keys_NoDup n p this)
              (fun n e p this => addEventToItem_keys_NoDup n e p this)
              machine s Hrun) as (nodes & Hg & Ha & Hs & Hv & Hd).
  repeat split; [apply Hg|apply Ha|apply Hs|apply Hv|apply Hd]; apply NoDup_nil_2.
Qed.

Lemma toDataShape_names this :
  map ItemLine.name (DataShape.lines (ItemMap.toDataShape this))
  = filter (fun name => negb (hasDot name) = true) (obj_keys (ItemMap.map this)).
Proof.
  rewrite toDataShape_spec. simpl. rewrite map_map. simpl. unfold obj_keys.
  induction (ItemMap.map this) as [|[k v] o IH]; [reflexivity|].
  simpl. rewrite !filter_cons. simpl.
  destruct (decide (negb (hasDot k) = true)); simpl; now rewrite IH.
Qed.

Lemma toDataShape_names_NoDup this :
  NoDup (obj_keys (ItemMap.map this)) ->
  NoDup (map ItemLine.name (DataShape.lines (ItemMap.toDataShape this))).
Proof. intros H. rewrite toDataShape_names. now apply NoDup_filter. Qed.

Lemma toDataShape_line_events this line :
  NoDup (obj_keys (ItemMap.map this)) ->
  line ∈ DataShape.lines (ItemMap.toDataShape this) ->
  ItemLine.events line = eventsOf this (ItemLine.name line).
Proof.
  intros Hnodup ([k data] & Hin & _ & ->)%toDataShape_line. simpl.
  unfold eventsOf. now rewrite (obj_elem_get _ _ _ Hnodup Hin).
Qed.

(** X7: in each of the five categories of a report, no two lines have
    the same name. *)
Theorem report_names_are_unique {Matches : Type}
  (getTransitionsFromNode : StateNode.t -> list string)
  (getMatchesStates : StateNode.t -> Matches)
  (fuel : nat) (machine : Machine.t) (report : IntrospectMachineResult.t Matches) :
  introspectMachine getTransitionsFromNode getMatchesStates fuel machine
  = Some (Ok report) ->
  let names shape := map ItemLine.name (DataShape.lines shape) in
  NoDup (names (IntrospectMachineResult.guards report))
  /\ NoDup (names (IntrospectMachineResult.actions report))
  /\ NoDup (names (IntrospectMachineResult.services report))
  /\ NoDup (names (IntrospectMachineResult.activities report))
  /\ NoDup (names (IntrospectMachineResult.delays report)).
Proof.
  intros (s & subState & Hrun & _ & ->)%introspectMachine_Ok. simpl.
  destruct (traverse_keys_NoDup machine s Hrun) as (Hg & Ha & Hs & Hv & Hd).
  repeat split; now apply toDataShape_names_NoDup.
Qed.

Lemma report_names_are_unique_witness :
  exists report,
    introspectMachine noTransitions noMatches 2 lightMachine = Some (Ok report)
    /\ map ItemLine.name (DataShape.lines (IntrospectMachineResult.actions report))
       = ["enterGreen"; "log"; "leaveRed"; "enterRed"]
    /\ NoDup (map ItemLine.name
                (DataShape.lines (IntrospectMachineResult.actions report))).
Proof.
  eexists. split; [vm_compute; reflexivity|]. split; [vm_compute; reflexivity|].
  apply (report_names_are_unique noTransitions noMatches 2 lightMachine).
  vm_compute. reflexivity.
Defined.

(** X8: no line of the activities has a triggering event, and the only
    triggering event of a line of the delays is [xstate.init]. *)
Theorem activities_and_delays_events {Matches : Type}
  (getTransitionsFromNode : StateNode.t -> list string)
  (getMatchesStates : StateNode.t -> Matches)
  (fuel : nat) (machine : Machine.t) (report : IntrospectMachineResult.t Matches) :
  introspectMachine getTransitionsFromNode getMatchesStates fuel machine
  = Some (Ok report) ->
  (forall line,
     line ∈ DataShape.lines (IntrospectMachineResult.activities report) ->
     ItemLine.events line = [])
  /\ (forall line event,
        line ∈ DataShape.lines (IntrospectMachineResult.delays report) ->
        event ∈ ItemLine.events line ->
        event = "xstate.init").
Proof.
  intros (s & subState & Hrun & _ & ->)%introspectMachine_Ok. simpl.
  destruct (traverse_keys_NoDup machine s Hrun) as (_ & _ & _ & Hv & Hd).
  destruct (relatedBy_traverse
              (fun _ _ => True) (fun _ _ => True) (fun _ _ => True)
              (keepsProperty (fun im => forall n, eventsOf im n = []))
              (keepsProperty
                 (fun im => forall n e, registered im n e -> e = "xstate.init")))
    with (machine := machine) (s := s)
    as (nodes & _ & _ & _ & Hact & Hdel); auto.
  - apply keepsProperty_refl.
  - apply keepsProperty_refl.
  - apply keepsProperty_trans.
  - apply keepsProperty_trans.
  - intros n p this IH n'. rewrite eventsOf_addItem. apply IH.
  - intros n p this IH n' e' H%registered_addItem. eauto.
  - intros n p this IH n' e' [[_ ->]|H]%registered_addEventToItem; eauto.
  - split.
    + intros line Hline. rewrite (toDataShape_line_events _ _ Hv Hline).
      apply Hact. reflexivity.
    + intros line event Hline Hevent.
      rewrite (toDataShape_line_events _ _ Hd Hline) in Hevent.
      apply (Hdel ltac:(intros n e H; now apply elem_of_nil in H)
               (ItemLine.name line) event Hevent).
Qed.

Lemma activities_and_delays_events_witness :
  exists report,
    introspectMachine noTransitions noMatches 2 lightMachine = Some (Ok report)
    /\ map ItemLine.events (DataShape.lines (IntrospectMachineResult.activities report))
       = [[]]
    /\ forall line,
         line ∈ DataShape.lines (IntrospectMachineResult.activities report) ->
         ItemLine.events line = [].
Proof.
  eexists. split; [vm_compute; reflexivity|]. split; [vm_compute; reflexivity|].
  apply (activities_and_delays_events noTransitions noMatches 2 lightMachine).
  vm_compute. reflexivity.
Defined.

(** ** Every registration has a cause *)

Lemma addsOnly_refl C this : addsOnly C this this.
Proof. intros n e H. now left. Qed.

Lemma addsOnly_trans C a b c : addsOnly C a b -> addsOnly C b c -> addsOnly C a c.
Proof. intros Hab Hbc n e [H|H]%Hbc; [apply Hab, H|now right]. Qed.

Lemma addsOnly_addItem C n p this : addsOnly C this (ItemMap.addItem n p this).
Proof. intros n' e' H%registered_addItem. now left. Qed.

Lemma addsOnly_addEventToItem (C : string -> string -> Prop) n e p this :
  C n e -> addsOnly C this (ItemMap.addEventToItem n e p this).
Proof. intros HC n' e' [[-> ->]|H]%registered_addEventToItem; auto. Qed.

Lemma registered_new checkIfOptional n e :
  ~ registered (ItemMap.new checkIfOptional) n e.
Proof. unfold registered, eventsOf. simpl. apply not_elem_of_nil. Qed.

Lemma loop_related_in (R : ItemMap.t -> ItemMap.t -> Prop) {A : Type}
  (f : A -> ItemMap.t -> ItemMap.t) l this :
  (forall im, R im im) -> (forall a b c, R a b -> R b c -> R a c) ->
  (forall x im, x ∈ l -> R im (f x im)) -> R this (forEachPure f l this).
Proof.
  intros Hrefl Htrans Hf. apply (forEachPure_invariant f (R this)); [|apply Hrefl].
  intros x im Hx H. eapply Htrans; [exact H|now apply Hf].
Qed.

(** The steps of the two passes respect five relations that the two
    methods respect on the calls that the passes make: [Eg], [Ea], [Es],
    [Ed] hold of the calls of [addEventToItem] (name, event, path), [Ia],
    [Is], [Iv], [Id] of the calls of [addItem] (name, path). *)
Section RegistrySteps.
Variables Rg Ra Rs Rv Rd : ItemMap.t -> ItemMap.t -> Prop.
Variables Eg Ea Es Ed : string -> string -> list string -> Prop.
Variables Ia Is Iv Id : string -> list string -> Prop.
Hypothesis Rg_refl : forall this, Rg this this.
Hypothesis Ra_refl : forall this, Ra this this.
Hypothesis Rs_refl : forall this, Rs this this.
Hypothesis Rv_refl : forall this, Rv this this.
Hypothesis Rd_refl : forall this, Rd this this.
Hypothesis Rg_trans : forall a b c, Rg a b -> Rg b c -> Rg a c.
Hypothesis Ra_trans : forall a b c, Ra a b -> Ra b c -> Ra a c.
Hypothesis Rs_trans : forall a b c, Rs a b -> Rs b c -> Rs a c.
Hypothesis Rv_trans : forall a b c, Rv a b -> Rv b c -> Rv a c.
Hypothesis Rd_trans : forall a b c, Rd a b -> Rd b c -> Rd a c.
Hypothesis Rg_event :
  forall n e p this, Eg n e p -> Rg this (ItemMap.addEventToItem n e p this).
Hypothesis Ra_event :
  forall n e p this, Ea n e p -> Ra this (ItemMap.addEventToItem n e p this).
Hypothesis Rs_event :
  forall n e p this, Es n e p -> Rs this (ItemMap.addEventToItem n e p this).
Hypothesis Rd_event :
  forall n e p this, Ed n e p -> Rd this (ItemMap.addEventToItem n e p this).
Hypothesis Ra_item : forall n p this, Ia n p -> Ra this (ItemMap.addItem n p this).
Hypothesis Rs_item : forall n p this, Is n p -> Rs this (ItemMap.addItem n p this).
Hypothesis Rv_item : forall n p this, Iv n p -> Rv this (ItemMap.addItem n p this).
Hypothesis Rd_item : forall n p this, Id n p -> Rd this (ItemMap.addItem n p this).

Local Abbreviation stepped := (registriesRelatedBy Rg Ra Rs Rv Rd).

Lemma stepped_refl s : stepped s s.
Proof. repeat split; auto. Qed.

Lemma stepped_trans s t u : stepped s t -> stepped t u -> stepped s u.
Proof. intros (?&?&?&?&?) (?&?&?&?&?). repeat split; eauto. Qed.

Lemma stepped_loop {A : Type} (f : A -> State.t -> State.t) l s :
  (forall x t, x ∈ l -> stepped t (f x t)) -> stepped s (forEachPure f l s).
Proof.
  intros Hf. apply (forEachPure_invariant f (stepped s)); [|apply stepped_refl].
  intros x t Hx H. eapply stepped_trans; [exact H|now apply Hf].
Qed.

Lemma stepped_forEach {A : Type} (f : A -> State.t -> Result State.t) l s s' :
  (forall x t t', x ∈ l -> f x t = Ok t' -> stepped t t') ->
  forEach f l s = Ok s' -> stepped s s'.
Proof.
  intros Hf. apply (forEach_invariant f (stepped s)); [|apply stepped_refl].
  intros x t t' Hx H Hstep. eapply stepped_trans; [exact H|eapply Hf; eauto].
Qed.

Lemma stepped_onNodeMap f s s' : State.onNodeMap f s = Ok s' -> stepped s s'.
Proof. intros (nm & _ & ->)%onNodeMap_Ok. repeat split; simpl; auto. Qed.

Lemma stepped_onGuards f s :
  Rg (State.guards s) (f (State.guards s)) -> stepped s (State.onGuards f s).
Proof. intros H. repeat split; simpl; auto. Qed.

Lemma stepped_onActions f s :
  Ra (State.actions s) (f (State.actions s)) -> stepped s (State.onActions f s).
Proof. intros H. repeat split; simpl; auto. Qed.

Lemma stepped_onServices f s :
  Rs (State.services s) (f (State.services s)) -> stepped s (State.onServices f s).
Proof. intros H. repeat split; simpl; auto. Qed.

Lemma stepped_onActivities f s :
  Rv (State.activities s) (f (State.activities s)) ->
  stepped s (State.onActivities f s).
Proof. intros H. repeat split; simpl; auto. Qed.

Lemma stepped_onDelays f s :
  Rd (State.delays s) (f (State.delays s)) -> stepped s (State.onDelays f s).
Proof. intros H. repeat split; simpl; auto. Qed.

Section OneNode.
Variable node : StateNode.t.

Lemma stepped_addInitEvents s :
  isInitialOrRoot node = true ->
  (forall n e, actionCauseAt node n e -> Ea n e (StateNode.path node)) ->
  (forall n e, serviceCauseAt node n e -> Es n e (StateNode.path node)) ->
  (forall n e, delayCauseAt node n e -> Ed n e (StateNode.path node)) ->
  stepped s (addInitEvents node s).
Proof.
  intros Hinit Ha Hs Hd. unfold addInitEvents. cbv zeta.
  eapply stepped_trans; [eapply stepped_trans|];
    [apply stepped_onServices|apply stepped_onActions|apply stepped_onDelays];
    apply loop_related_in; auto.
  - intros service im Hin.
    destruct (InvokeDefinition.src service) as [src|] eqn:Hsrc; [|apply Rs_refl].
    apply Rs_event, Hs. left. eauto.
  - intros action im Hin.
    destruct (truthy (ActionObject.type action)) eqn:Htype; [|apply Ra_refl].
    apply Ra_event, Ha. left.
    split; [reflexivity|]. split; [exact Hinit|].
    split; [now apply truthy_nonempty|eauto].
  - intros delayed im Hin.
    destruct (DelayedTransition.delay delayed) as [delay|] eqn:Hdelay;
      [|apply Rd_refl].
    apply Rd_event, Hd. split; [reflexivity|]. eauto.
Qed.

Lemma stepped_addOccurrences s :
  (forall n, activityOccursAt node n -> Iv n (StateNode.path node)) ->
  (forall n, delayOccursAt node n -> Id n (StateNode.path node)) ->
  (forall n, serviceOccursAt node n -> Is n (StateNode.path node)) ->
  stepped s (addOccurrences node s).
Proof.
  intros Hv Hd Hs. unfold addOccurrences. cbv zeta.
  eapply stepped_trans; [eapply stepped_trans|];
    [apply stepped_onActivities|apply stepped_onDelays|apply stepped_onServices];
    apply loop_related_in; auto.
  - intros activity im Hin.
    destruct (truthy (ActivityDefinition.type activity)) eqn:Htype; simpl;
      [|apply Rv_refl].
    case_bool_decide as Hne; simpl; [apply Rv_refl|].
    apply Rv_item, Hv. exists activity.
    split; [exact Hin|]. split; [reflexivity|].
    split; [now apply truthy_nonempty|exact Hne].
  - intros delayed im Hin.
    destruct (DelayedTransition.delay delayed) as [delay|] eqn:Hdelay;
      [|apply Rd_refl].
    apply Rd_item, Hd. exists delayed. auto.
  - intros service im Hin.
    destruct (InvokeDefinition.src service) as [src|] eqn:Hsrc; [|apply Rs_refl].
    apply Rs_item, Hs. exists service. auto.
Qed.

Section OneTransition.
Variable transition : Transition.t.
Hypothesis Hg :
  forall n, guardCauseOf transition n ->
            Eg n (Transition.eventType transition) (StateNode.path node).
Hypothesis Ha :
  forall n, actionCauseOf transition n ->
            Ea n (Transition.eventType transition) (StateNode.path node).
Hypothesis Hs :
  forall n, serviceCauseOf transition n ->
            Es n (Transition.eventType transition) (StateNode.path node).

Lemma stepped_addTransitionGuard s : stepped s (addTransitionGuard node transition s).
Proof.
  unfold addTransitionGuard.
  destruct (Transition.cond transition) as [cond|] eqn:Hcond; [|apply stepped_refl].
  destruct (truthy (Guard.name cond)) eqn:Hname; [|apply stepped_refl].
  case_bool_decide as Hne; [apply stepped_refl|].
  apply stepped_onGuards, Rg_event, Hg. left.
  exists cond. split; [exact Hcond|]. split; [reflexivity|].
  split; [now apply truthy_nonempty|exact Hne].
Qed.

Lemma stepped_addTargetInvokes s : stepped s (addTargetInvokes node transition s).
Proof.
  unfold addTargetInvokes.
  destruct (Transition.target transition) as [targets|] eqn:Htarget;
    [|apply stepped_refl].
  apply stepped_onServices, loop_related_in; auto. intros targetNode im Htin.
  apply loop_related_in; auto. intros service im' Hin.
  destruct (InvokeDefinition.src service) as [src|] eqn:Hsrc; [|apply Rs_refl].
  apply Rs_event, Hs. exists targets, targetNode, service. auto.
Qed.

Lemma stepped_addChooseBranch branch s :
  chooseBranchOf transition branch ->
  stepped s (addChooseBranch node transition branch s).
Proof.
  intros Hbranch. unfold addChooseBranch.
  eapply stepped_trans with
    (t := match ChooseCondition.cond branch with
          | GuardString cond =>
              State.onGuards
                (ItemMap.addEventToItem cond (Transition.eventType transition)
                   (StateNode.path node)) s
          | GuardOther => s
          end).
  - destruct (ChooseCondition.cond branch) as [cond|] eqn:Hcond; [|apply stepped_refl].
    apply stepped_onGuards, Rg_event, Hg. right. exists branch. auto.
  - destruct (ChooseCondition.actions branch) as [condActions|condActions|]
      eqn:Hactions; [| |apply stepped_refl].
    + apply stepped_onActions, loop_related_in; auto. intros [name|] im Hin;
        [|apply Ra_refl].
      apply Ra_event, Ha. right. exists branch.
      split; [exact Hbranch|]. unfold branchAction. now rewrite Hactions.
    + apply stepped_onActions, Ra_event, Ha. right. exists branch.
      split; [exact Hbranch|]. unfold branchAction. now rewrite Hactions.
Qed.

Lemma stepped_addTransitionAction action s :
  action ∈ Transition.actions transition ->
  stepped s (addTransitionAction node transition action s).
Proof.
  intros Hin. unfold addTransitionAction.
  set (s1 := if negb _ then _ else s).
  assert (stepped s s1) as H1.
  { unfold s1. destruct (xstateRegex_test (ActionObject.type action)) eqn:Htest;
      simpl; [apply stepped_refl|].
    apply stepped_onActions, Ra_event, Ha. left. exists action. auto. }
  eapply stepped_trans; [exact H1|]. clearbody s1.
  case_bool_decide as Hchoose; [|apply stepped_refl].
  destruct (ActionObject.conds action) as [conds|] eqn:Hconds; [|apply stepped_refl].
  apply stepped_loop. intros branch t Hbranch. apply stepped_addChooseBranch.
  exists action, conds. auto.
Qed.

Lemma stepped_visitTransition s s' :
  visitTransition node transition s = Ok s' -> stepped s s'.
Proof.
  unfold visitTransition.
  destruct (addSources transition s) as [s1|e] eqn:H1; simpl; [|discriminate].
  intros [= <-].
  eapply stepped_trans with (t := s1).
  { unfold addSources in H1. destruct (Transition.target transition).
    - eapply stepped_onNodeMap, H1.
    - injection H1 as <-. apply stepped_refl. }
  eapply stepped_trans; [apply stepped_addTransitionGuard|].
  eapply stepped_trans; [apply stepped_addTargetInvokes|].
  apply stepped_loop. intros action t Hin. now apply stepped_addTransitionAction.
Qed.
End OneTransition.

Lemma stepped_visitNode s s' :
  (forall n e, guardCauseAt node n e -> Eg n e (StateNode.path node)) ->
  (forall n e, actionCauseAt node n e -> Ea n e (StateNode.path node)) ->
  (forall n e, serviceCauseAt node n e -> Es n e (StateNode.path node)) ->
  (forall n e, delayCauseAt node n e -> Ed n e (StateNode.path node)) ->
  (forall n, activityOccursAt node n -> Iv n (StateNode.path node)) ->
  (forall n, delayOccursAt node n -> Id n (StateNode.path node)) ->
  (forall n, serviceOccursAt node n -> Is n (StateNode.path node)) ->
  visitNode node s = Ok s' -> stepped s s'.
Proof.
  intros Hg Ha Hs Hd Hiv Hid His. unfold visitNode.
  set (s1 := if isInitialOrRoot node then _ else s).
  assert (stepped s s1) as H1.
  { unfold s1. destruct (isInitialOrRoot node) eqn:Hinit;
      [now apply stepped_addInitEvents|apply stepped_refl]. }
  clearbody s1.
  destruct (addChildren node s1) as [s2|e] eqn:H2; simpl; [|discriminate].
  intros H3.
  eapply stepped_trans; [exact H1|].
  eapply stepped_trans; [eapply stepped_onNodeMap, H2|].
  eapply stepped_trans; [now apply stepped_addOccurrences|].
  eapply stepped_forEach; [|exact H3].
  intros transition t t' Hin. apply stepped_visitTransition.
  - intros n H. apply Hg. exists transition. auto.
  - intros n H. apply Ha. right. exists transition. auto.
  - intros n H. apply Hs. right. exists transition. auto.
Qed.

Lemma stepped_visitNodeActions s s' :
  (forall n, actionOccursAt node n -> Ia n (StateNode.path node)) ->
  (forall n e,
     entryCauseAt (State.nodeMap s) node n e -> Ea n e (StateNode.path node)) ->
  visitNodeActions node s = Ok s' -> stepped s s'.
Proof.
  intros Hi Ha. unfold visitNodeActions.
  set (s1 := State.onActions _ s). intros H.
  assert (stepped s s1 /\ State.nodeMap s1 = State.nodeMap s) as H1.
  { split; [|reflexivity]. apply stepped_onActions, loop_related_in; auto.
    intros action im Hin.
    destruct (xstateRegex_test (ActionObject.type action)) eqn:Htest; simpl;
      [apply Ra_refl|].
    destruct (ActionObject.exec action) eqn:Hexec; [apply Ra_refl|].
    apply Ra_item, Hi. exists action. auto. }
  clearbody s1. revert H1 H.
  apply (forEach_invariant (addEntrySources node)
           (fun t => stepped s t /\ State.nodeMap t = State.nodeMap s)).
  intros action t t' Hin [IH Hnm]. unfold addEntrySources.
  destruct (obj_get _ _) as [entry|] eqn:Hentry; [|discriminate].
  intros [= <-]. split; [|exact Hnm].
  eapply stepped_trans; [exact IH|].
  apply stepped_onActions, loop_related_in; auto. intros source im Hsource.
  apply Ra_event, Ha. split; [eauto|].
  exists entry. now rewrite <- Hnm.
Qed.
End OneNode.

Lemma stepped_traverse machine s :
  (forall node, visited machine node ->
     (forall n e, guardCauseAt node n e -> Eg n e (StateNode.path node))
     /\ (forall n e, actionCauseAt node n e -> Ea n e (StateNode.path node))
     /\ (forall n e,
           entryCauseAt (State.nodeMap s) node n e -> Ea n e (StateNode.path node))
     /\ (forall n e, serviceCauseAt node n e -> Es n e (StateNode.path node))
     /\ (forall n e, delayCauseAt node n e -> Ed n e (StateNode.path node))) ->
  (forall node, visited machine node ->
     (forall n, actionOccursAt node n -> Ia n (StateNode.path node))
     /\ (forall n, serviceOccursAt node n -> Is n (StateNode.path node))
     /\ (forall n, activityOccursAt node n -> Iv n (StateNode.path node))
     /\ (forall n, delayOccursAt node n -> Id n (StateNode.path node))) ->
  traverse machine = Ok s -> exists nodes, stepped (initState machine nodes) s.
Proof.
  intros HE HI (nodes & s1 & Hnodes & H1 & H2)%traverse_Ok. exists nodes.
  destruct (allStateNodes_Ok machine) as (nodes' & Hnodes' & _ & Hvis).
  rewrite Hnodes in Hnodes'. injection Hnodes' as <-.
  eapply stepped_trans.
  - eapply stepped_forEach; [|exact H1]. intros node t t' Hin%Hvis.
    destruct (HE node Hin) as (? & ? & _ & ? & ?).
    destruct (HI node Hin) as (_ & ? & ? & ?).
    now apply stepped_visitNode.
  - assert (State.nodeMap s = State.nodeMap s1) as Hnm.
    { revert H2.
      apply (forEach_invariant _ (fun t => State.nodeMap t = State.nodeMap s1));
        [|reflexivity].
      intros n t t' _ IH Hstep. rewrite <- IH. eapply visitNodeActions_nodeMap, Hstep. }
    rewrite Hnm in HE.
    assert (stepped s1 s1 /\ State.nodeMap s1 = State.nodeMap s1) as H0
      by (split; [apply stepped_refl|reflexivity]).
    revert H0 H2.
    apply (forEach_invariant visitNodeActions
             (fun t => stepped s1 t /\ State.nodeMap t = State.nodeMap s1)).
    intros node t t' Hin%Hvis [IH Ht] Hstep. split.
    + eapply stepped_trans; [exact IH|].
      destruct (HE node Hin) as (_ & _ & ? & _).
      destruct (HI node Hin) as (? & _).
      eapply stepped_visitNodeActions; [| |exact Hstep]; [auto|].
      now rewrite Ht.
    + rewrite <- Ht. eapply visitNodeActions_nodeMap, Hstep.
Qed.
End RegistrySteps.

(** ** Every source has a cause *)

Lemma sourcesFrom_refl C nodeMap : sourcesFrom C nodeMap nodeMap.
Proof. intros i e H. now left. Qed.

Lemma sourcesFrom_trans C a b c :
  sourcesFrom C a b -> sourcesFrom C b c -> sourcesFrom C a c.
Proof. intros Hab Hbc i e [H|H]%Hbc; [apply Hab, H|now right]. Qed.

Lemma addSource_sourcesFrom (C : string -> string -> Prop) stateId eventType
  nodeMap nodeMap' :
  C stateId eventType ->
  addSource stateId eventType nodeMap = Ok nodeMap' ->
  sourcesFrom C nodeMap nodeMap'.
Proof.
  intros HC. unfold addSource.
  destruct (obj_get stateId nodeMap) as [old|] eqn:Hold; [|discriminate].
  intros [= <-] i e (entry & Hentry & He). rewrite obj_get_alter in Hentry.
  destruct (decide (stateId = i)) as [<-|Hne]; [|left; exists entry; auto].
  rewrite Hold in Hentry. injection Hentry as <-. simpl in He.
  apply set_add_elem in He as [->|He]; [now right|left; exists old; auto].
Qed.

Lemma addChild_sourcesFrom C stateId childId nodeMap nodeMap' :
  addChild stateId childId nodeMap = Ok nodeMap' -> sourcesFrom C nodeMap nodeMap'.
Proof.
  unfold addChild.
  destruct (obj_get stateId nodeMap) as [old|] eqn:Hold; [|discriminate].
  intros [= <-] i e (entry & Hentry & He). rewrite obj_get_alter in Hentry.
  destruct (decide (stateId = i)) as [<-|Hne]; [|left; exists entry; auto].
  rewrite Hold in Hentry. injection Hentry as <-. simpl in He.
  left. exists old. auto.
Qed.

Lemma forEach_sourcesFrom C {A : Type} (f : A -> NodeMap -> Result NodeMap) l a b :
  (forall x c d, x ∈ l -> f x c = Ok d -> sourcesFrom C c d) ->
  forEach f l a = Ok b -> sourcesFrom C a b.
Proof.
  intros Hf. apply (forEach_invariant f (sourcesFrom C a)); [|apply sourcesFrom_refl].
  intros x c d Hx IH Hstep. eapply sourcesFrom_trans; [exact IH|eapply Hf; eauto].
Qed.

Lemma visitTransition_sourcesFrom (C : string -> string -> Prop) node transition s s' :
  (forall i e, targetsWith transition i e -> C i e) ->
  visitTransition node transition s = Ok s' ->
  sourcesFrom C (State.nodeMap s) (State.nodeMap s').
Proof.
  intros HC. unfold visitTransition.
  destruct (addSources transition s) as [s1|e] eqn:H1; simpl; [|discriminate].
  intros [= <-]. rewrite nodeMap_afterSources. revert H1. unfold addSources.
  destruct (Transition.target transition) as [targets|] eqn:Htarget.
  - intros (nm & H & ->)%onNodeMap_Ok. simpl.
    eapply forEach_sourcesFrom; [|exact H].
    intros targetNode c d Hin. apply addSource_sourcesFrom, HC.
    exists targets, targetNode. auto.
  - intros [= <-]. apply sourcesFrom_refl.
Qed.

Lemma visitNode_sourcesFrom (C : string -> string -> Prop) node s s' :
  (forall transition i e,
     transition ∈ StateNode.transitions node -> targetsWith transition i e -> C i e) ->
  visitNode node s = Ok s' ->
  sourcesFrom C (State.nodeMap s) (State.nodeMap s').
Proof.
  intros HC. unfold visitNode.
  destruct (addChildren node _) as [s2|e] eqn:H2; simpl; [|discriminate].
  assert (sourcesFrom C (State.nodeMap s) (State.nodeMap s2)) as Hk2.
  { apply onNodeMap_Ok in H2 as (nm & H2 & ->). simpl.
    rewrite nodeMap_beforeChildren in H2.
    eapply forEach_sourcesFrom; [|exact H2].
    intros x c d _. apply addChild_sourcesFrom. }
  intros H3. eapply sourcesFrom_trans; [exact Hk2|]. revert H3.
  apply (forEach_invariant _
           (fun t => sourcesFrom C (State.nodeMap s2) (State.nodeMap t)));
    [|apply sourcesFrom_refl].
  intros transition t t' Hin IH Hstep.
  eapply sourcesFrom_trans; [exact IH|].
  eapply visitTransition_sourcesFrom; [|exact Hstep]. eauto.
Qed.

(** Every source in [nodeMap] is the event of a transition to the id. *)
Lemma traverse_sources_caused machine s stateId eventType :
  traverse machine = Ok s ->
  hasSource (State.nodeMap s) stateId eventType ->
  sourceCause machine stateId eventType.
Proof.
  intros (nodes & s1 & Hnodes & H1 & H2)%traverse_Ok Hsource.
  destruct (allStateNodes_Ok machine) as (nodes' & Hnodes' & _ & Hvis).
  rewrite Hnodes in Hnodes'. injection Hnodes' as <-.
  assert (State.nodeMap s = State.nodeMap s1) as Hnm.
  { revert H2. apply (forEach_invariant _ (fun t => State.nodeMap t = State.nodeMap s1));
      [|reflexivity].
    intros n t t' _ IH Hstep. rewrite <- IH. eapply visitNodeActions_nodeMap, Hstep. }
  rewrite Hnm in Hsource.
  assert (sourcesFrom (sourceCause machine)
            (State.nodeMap (initState machine nodes)) (State.nodeMap s1)) as Hfrom.
  { revert H1.
    apply (forEach_invariant visitNode
             (fun t => sourcesFrom (sourceCause machine)
                         (State.nodeMap (initState machine nodes)) (State.nodeMap t)));
      [|apply sourcesFrom_refl].
    intros node t t' Hin%Hvis IH Hstep.
    eapply sourcesFrom_trans; [exact IH|].
    eapply visitNode_sourcesFrom; [|exact Hstep].
    intros transition i e Ht Hw. exists node, transition. auto. }
  apply Hfrom in Hsource as [(entry & Hentry & He)|H]; [|exact H].
  simpl in Hentry. apply initNodeMap_entry in Hentry as ->.
  now apply elem_of_nil in He.
Qed.

(** Every registration at the end of the two passes has its cause in a
    state node of the machine. *)
Lemma traverse_registrations_caused machine s :
  traverse machine = Ok s ->
  (forall n e,
     registered (State.guards s) n e ->
     exists node, visited machine node /\ guardCauseAt node n e)
  /\ (forall n e,
        registered (State.actions s) n e ->
        exists node,
          visited machine node
          /\ (actionCauseAt node n e \/ entryCauseAt (State.nodeMap s) node n e))
  /\ (forall n e,
        registered (State.services s) n e ->
        exists node, visited machine node /\ serviceCauseAt node n e)
  /\ (forall n e, ~ registered (State.activities s) n e)
  /\ (forall n e,
        registered (State.delays s) n e ->
        exists node, visited machine node /\ delayCauseAt node n e).
Proof.
  intros Hrun.
  destruct (stepped_traverse
              (addsOnly
                 (fun n e => exists node, visited machine node /\ guardCauseAt node n e))
              (addsOnly
                 (fun n e =>
                    exists node,
                      visited machine node
                      /\ (actionCauseAt node n e
                          \/ entryCauseAt (State.nodeMap s) node n e)))
              (addsOnly
                 (fun n e => exists node, visited machine node /\ serviceCauseAt node n e))
              (addsOnly noPair)
              (addsOnly
                 (fun n e => exists node, visited machine node /\ delayCauseAt node n e))
              (fun n e p => exists node, visited machine node /\ guardCauseAt node n e)
              (fun n e p =>
                 exists node,
                   visited machine node
                   /\ (actionCauseAt node n e
                       \/ entryCauseAt (State.nodeMap s) node n e))
              (fun n e p => exists node, visited machine node /\ serviceCauseAt node n e)
              (fun n e p => exists node, visited machine node /\ delayCauseAt node n e)
              (fun n p => True) (fun n p => True) (fun n p => True) (fun n p => True))
    with (machine := machine) (s := s)
    as (nodes & Hg & Ha & Hs & Hv & Hd);
    try apply addsOnly_refl; try apply addsOnly_trans;
    try (intros; now apply addsOnly_addEventToItem);
    try (intros; now apply addsOnly_addItem);
    [intros node Hv; repeat split; eauto|intros; tauto|exact Hrun|].
  repeat split.
  - intros n e [H|H]%Hg; [now apply registered_new in H|exact H].
  - intros n e [H|H]%Ha; [now apply registered_new in H|exact H].
  - intros n e [H|H]%Hs; [now apply registered_new in H|exact H].
  - intros n e [H|[]]%Hv. now apply registered_new in H.
  - intros n e [H|H]%Hd; [now apply registered_new in H|exact H].
Qed.

(** ** From a report back to the registry *)

Lemma reportsEvent_registered this name event :
  NoDup (obj_keys (ItemMap.map this)) ->
  reportsEvent (ItemMap.toDataShape this) name event ->
  registered this name event.
Proof.
  intros Hnodup (line & Hline & <- & Hevent). unfold registered.
  now rewrite <- (toDataShape_line_events _ _ Hnodup Hline).
Qed.

(** X9: a guard is reported with a triggering event only when a
    transition on that event, of a state node of the machine, has the
    guard: as its own [cond], with a name that is neither empty nor
    [cond], or as the string [cond] of a branch of an [xstate.choose]
    action. *)
Theorem guard_events_come_from_transitions {Matches : Type}
  (getTransitionsFromNode : StateNode.t -> list string)
  (getMatchesStates : StateNode.t -> Matches)
  (fuel : nat) (machine : Machine.t) (report : IntrospectMachineResult.t Matches)
  (name event : string) :
  introspectMachine getTransitionsFromNode getMatchesStates fuel machine
  = Some (Ok report) ->
  reportsEvent (IntrospectMachineResult.guards report) name event ->
  exists node transition,
    visited machine node
    /\ transition ∈ StateNode.transitions node
    /\ Transition.eventType transition = event
    /\ (transitionGuard transition name \/ branchGuard transition name).
Proof.
  intros (s & subState & Hrun & _ & ->)%introspectMachine_Ok. simpl. intros Hreport.
  destruct (traverse_keys_NoDup machine s Hrun) as (Hnodup & _).
  destruct (traverse_registrations_caused machine s Hrun) as (Hg & _).
  apply reportsEvent_registered, Hg in Hreport as (node & Hv & t & Ht & He & Hc);
    [|exact Hnodup].
  exists node, t. auto.
Qed.

Lemma guard_events_come_from_transitions_witness :
  exists report,
    introspectMachine noTransitions noMatches 2 lightMachine = Some (Ok report)
    /\ reportsEvent (IntrospectMachineResult.guards report) "canGo" "TIMER"
    /\ exists node transition,
         visited lightMachine node
         /\ transition ∈ StateNode.transitions node
         /\ Transition.eventType transition = "TIMER"
         /\ (transitionGuard transition "canGo" \/ branchGuard transition "canGo").
Proof.
  eexists. split; [vm_compute; reflexivity|].
  match goal with |- ?P /\ _ => assert P as H end.
  { eexists. split; [left|]. split; [reflexivity|left]. }
  split; [exact H|].
  eapply (guard_events_come_from_transitions noTransitions noMatches 2 lightMachine);
    [|exact H]; vm_compute; reflexivity.
Defined.

(** X10: an edge of the report shows an event among the sources of a
    state only when a transition on that event, of a state node of the
    machine, has a target with the id of the state. *)
Theorem edge_sources_come_from_transitions {Matches : Type}
  (getTransitionsFromNode : StateNode.t -> list string)
  (getMatchesStates : StateNode.t -> Matches)
  (fuel : nat) (machine : Machine.t) (report : IntrospectMachineResult.t Matches)
  (edge : StateEdge.t) (event : string) :
  introspectMachine getTransitionsFromNode getMatchesStates fuel machine
  = Some (Ok report) ->
  edge ∈ IntrospectMachineResult.states report ->
  event ∈ StateEdge.sources edge ->
  exists node transition targets targetNode,
    visited machine node
    /\ transition ∈ StateNode.transitions node
    /\ Transition.target transition = Some targets
    /\ targetNode ∈ targets
    /\ TargetNode.id targetNode = StateEdge.id edge
    /\ Transition.eventType transition = event.
Proof.
  intros (s & subState & Hrun & _ & ->)%introspectMachine_Ok. simpl.
  intros Hedge Hevent.
  pose proof (edge_hasSource machine s edge event Hrun Hedge Hevent) as Hsource.
  apply (traverse_sources_caused machine s _ _ Hrun) in Hsource
    as (node & t & Hv & Ht & targets & targetNode & H).
  exists node, t, targets, targetNode. tauto.
Qed.

Lemma edge_sources_come_from_transitions_witness :
  exists node transition targets targetNode,
    visited lightMachine node
    /\ transition ∈ StateNode.transitions node
    /\ Transition.target transition = Some targets
    /\ targetNode ∈ targets
    /\ TargetNode.id targetNode = "light.red"
    /\ Transition.eventType transition = "TIMER".
Proof.
  eapply (edge_sources_come_from_transitions noTransitions noMatches 2 lightMachine
            _ (StateEdge.mk "light.red" ["TIMER"]) "TIMER");
    [vm_compute; reflexivity|right; right; left|left].
Defined.

(** X11: a service is reported with a triggering event only when the
    event is [xstate.init] and an initial state (or the root) invokes the
    service, or when a transition on that event has a target that invokes
    it.  A delay is reported with a triggering event only when an initial
    state (or the root) has the delay; the event is then [xstate.init]. *)
Theorem service_and_delay_events_have_a_cause {Matches : Type}
  (getTransitionsFromNode : StateNode.t -> list string)
  (getMatchesStates : StateNode.t -> Matches)
  (fuel : nat) (machine : Machine.t) (report : IntrospectMachineResult.t Matches)
  (name event : string) :
  introspectMachine getTransitionsFromNode getMatchesStates fuel machine
  = Some (Ok report) ->
  (reportsEvent (IntrospectMachineResult.services report) name event ->
   exists node, visited machine node /\ serviceCauseAt node name event)
  /\ (reportsEvent (IntrospectMachineResult.delays report) name event ->
      exists node, visited machine node /\ delayCauseAt node name event).
Proof.
  intros (s & subState & Hrun & _ & ->)%introspectMachine_Ok. simpl.
  destruct (traverse_keys_NoDup machine s Hrun) as (_ & _ & Hns & _ & Hnd).
  destruct (traverse_registrations_caused machine s Hrun) as (_ & _ & Hs & _ & Hd).
  split; intros Hreport.
  - now apply reportsEvent_registered, Hs in Hreport.
  - now apply reportsEvent_registered, Hd in Hreport.
Qed.

Lemma service_and_delay_events_have_a_cause_witness :
  exists report,
    introspectMachine noTransitions noMatches 2 lightMachine = Some (Ok report)
    /\ reportsEvent (IntrospectMachineResult.services report) "alarm" "TIMER"
    /\ exists node, visited lightMachine node /\ serviceCauseAt node "alarm" "TIMER".
Proof.
  eexists. split; [vm_compute; reflexivity|].
  match goal with |- ?P /\ _ => assert P as H end.
  { eexists. split; [right; left|]. split; [reflexivity|left]. }
  split; [exact H|].
  eapply (service_and_delay_events_have_a_cause noTransitions noMatches 2
            lightMachine); [|exact H]; vm_compute; reflexivity.
Defined.

(** X12: an action is reported with a triggering event only in one of
    three cases: the event is [xstate.init] and the action is an entry
    action of an initial state or of the root; a transition on that event
    has the action itself, with a type that does not start with [xstate.],
    or as a string action of a branch of [xstate.choose]; the action is an
    entry action of a state that a transition on that event targets. *)
Theorem action_events_have_a_cause {Matches : Type}
  (getTransitionsFromNode : StateNode.t -> list string)
  (getMatchesStates : StateNode.t -> Matches)
  (fuel : nat) (machine : Machine.t) (report : IntrospectMachineResult.t Matches)
  (name event : string) :
  introspectMachine getTransitionsFromNode getMatchesStates fuel machine
  = Some (Ok report) ->
  reportsEvent (IntrospectMachineResult.actions report) name event ->
  exists node,
    visited machine node
    /\ (actionCauseAt node name event
        \/ ((exists action,
               action ∈ StateNode.onEntry node /\ ActionObject.type action = name)
            /\ sourceCause machine (StateNode.id node) event)).
Proof.
  intros (s & subState & Hrun & _ & ->)%introspectMachine_Ok. simpl. intros Hreport.
  destruct (traverse_keys_NoDup machine s Hrun) as (_ & Hnodup & _).
  destruct (traverse_registrations_caused machine s Hrun) as (_ & Ha & _).
  apply reportsEvent_registered, Ha in Hreport as (node & Hv & [H|[Hentry Hsource]]);
    [| |exact Hnodup]; exists node; (split; [exact Hv|]); [now left|right].
  split; [exact Hentry|]. eapply traverse_sources_caused; eauto.
Qed.

Lemma action_events_have_a_cause_witness :
  exists report,
    introspectMachine noTransitions noMatches 2 lightMachine = Some (Ok report)
    /\ reportsEvent (IntrospectMachineResult.actions report) "enterRed" "TIMER"
    /\ exists node,
         visited lightMachine node
         /\ (actionCauseAt node "enterRed" "TIMER"
             \/ ((exists action,
                    action ∈ StateNode.onEntry node
                    /\ ActionObject.type action = "enterRed")
                 /\ sourceCause lightMachine (StateNode.id node) "TIMER")).
Proof.
  eexists. split; [vm_compute; reflexivity|].
  match goal with |- ?P /\ _ => assert P as H end.
  { eexists. split; [do 3 right; left|]. split; [reflexivity|left]. }
  split; [exact H|].
  eapply (action_events_have_a_cause noTransitions noMatches 2 lightMachine);
    [|exact H]; vm_compute; reflexivity.
Defined.

(** ** The children that the first pass records *)













(** ** The substate tree is the ownership tree *)








(** ** The state values of the registries *)

Lemma states_add_elem v v' set :
  v' ∈ states_add v set <-> v' = v \/ v' ∈ set.
Proof.
  unfold states_add. destruct v as [k|fields].
  - destruct (existsb (isSVString k) set) eqn:Hex.
    + split; [auto|]. intros [->|H]; [|exact H].
      apply existsb_exists in Hex as ([k'|fields] & Hin & Hk); [|discriminate].
      simpl in Hk. apply bool_decide_eq_true in Hk as ->. now apply list_elem_of_In.
    + rewrite elem_of_app, list_elem_of_singleton. tauto.
  - rewrite elem_of_app, list_elem_of_singleton. tauto.
Qed.

Lemma statesOf_addItem n p this n' :
  statesOf (ItemMap.addItem n p this) n'
  = if decide (n = n') then states_add (pathToStateValue p) (statesOf this n')
    else statesOf this n'.
Proof.
  unfold statesOf, ItemMap.addItem; simpl. rewrite obj_get_alter.
  destruct (decide (n = n')) as [->|Hne].
  - destruct (obj_get n' (ItemMap.map this)) as [d|] eqn:Hd.
    + now rewrite Hd.
    + rewrite obj_get_set, decide_True by reflexivity. reflexivity.
  - destruct (obj_get n (ItemMap.map this)); [reflexivity|].
    now rewrite obj_get_set, decide_False.
Qed.

Lemma statesOf_addEventToItem n e p this n' :
  statesOf (ItemMap.addEventToItem n e p this) n'
  = statesOf (ItemMap.addItem n p this) n'.
Proof.
  unfold statesOf at 1. unfold ItemMap.addEventToItem. simpl.
  rewrite obj_get_alter.
  destruct (decide (n = n')) as [->|Hne]; [|reflexivity].
  unfold statesOf. simpl. now destruct (obj_get n' _).
Qed.

Lemma statesFrom_refl P this : statesFrom P this this.
Proof. intros n v H. now left. Qed.

Lemma statesFrom_trans P a b c : statesFrom P a b -> statesFrom P b c -> statesFrom P a c.
Proof. intros Hab Hbc n v [H|H]%Hbc; [apply Hab, H|now right]. Qed.

Lemma statesFrom_addItem (P : string -> StateValue -> Prop) n p this :
  P n (pathToStateValue p) -> statesFrom P this (ItemMap.addItem n p this).
Proof.
  intros HP n' v. rewrite statesOf_addItem.
  destruct (decide (n = n')) as [<-|Hne]; [|auto].
  intros [->|H]%states_add_elem; auto.
Qed.

Lemma statesFrom_addEventToItem (P : string -> StateValue -> Prop) n e p this :
  P n (pathToStateValue p) -> statesFrom P this (ItemMap.addEventToItem n e p this).
Proof.
  intros HP n' v. rewrite statesOf_addEventToItem. now apply statesFrom_addItem.
Qed.

Lemma statesOf_new checkIfOptional n : statesOf (ItemMap.new checkIfOptional) n = [].
Proof. reflexivity. Qed.

(** Every state value of a registry at the end of the two passes is that
    of a state node of the machine that carries the item. *)
Lemma traverse_states_carried machine s :
  traverse machine = Ok s ->
  (forall n v, v ∈ statesOf (State.guards s) n -> carriedAt machine guardAt n v)
  /\ (forall n v,
        v ∈ statesOf (State.actions s) n -> carriedAt machine (actionAt machine) n v)
  /\ (forall n v,
        v ∈ statesOf (State.services s) n -> carriedAt machine serviceAt n v)
  /\ (forall n v,
        v ∈ statesOf (State.activities s) n ->
        carriedAt machine activityOccursAt n v)
  /\ (forall n v,
        v ∈ statesOf (State.delays s) n -> carriedAt machine delayOccursAt n v).
Proof.
  intros Hrun.
  pose (E := fun (carries : StateNode.t -> string -> Prop)
                 (n : string) (p : list string) =>
               carriedAt machine carries n (pathToStateValue p)).
  destruct (stepped_traverse
              (statesFrom (carriedAt machine guardAt))
              (statesFrom (carriedAt machine (actionAt machine)))
              (statesFrom (carriedAt machine serviceAt))
              (statesFrom (carriedAt machine activityOccursAt))
              (statesFrom (carriedAt machine delayOccursAt))
              (fun n _ => E guardAt n) (fun n _ => E (actionAt machine) n)
              (fun n _ => E serviceAt n) (fun n _ => E delayOccursAt n)
              (E (actionAt machine)) (E serviceAt) (E activityOccursAt)
              (E delayOccursAt))
    with (machine := machine) (s := s)
    as (nodes & Hg & Ha & Hs & Hv & Hd);
    try apply statesFrom_refl; try apply statesFrom_trans;
    try (intros; now apply statesFrom_addEventToItem);
    try (intros; now apply statesFrom_addItem);
    [| |exact Hrun|].
  - intros node Hvisited.
    assert (forall (carries : StateNode.t -> string -> Prop) n,
              carries node n -> E carries n (StateNode.path node)) as Hhere.
    { intros carries n H. exists node. auto. }
    split; [|split; [|split; [|split]]]; intros n e H; apply Hhere.
    + destruct H as (t & Ht & _ & Hc). exists t. auto.
    + destruct H as [(_ & Hroot & Hne & action & Hin & Htype)|(t & Ht & _ & Hc)].
      * right. right. exists action. auto.
      * right. left. exists t. auto.
    + destruct H as [(action & Hin & Htype) Hsource]. right. right. exists action.
      split; [exact Hin|]. split; [exact Htype|]. right. exists e.
      eapply traverse_sources_caused; eauto.
    + destruct H as [(_ & _ & Hocc)|(t & Ht & _ & Hc)]; [now left|].
      right. exists t. auto.
    + now destruct H as (_ & _ & Hocc).
  - intros node Hvisited.
    assert (forall (carries : StateNode.t -> string -> Prop) n,
              carries node n -> E carries n (StateNode.path node)) as Hhere.
    { intros carries n H. exists node. auto. }
    split; [|split; [|split]]; intros n H; apply Hhere; auto.
    + now left.
    + now left.
  - repeat split; intros n v.
    + intros [H|H]%Hg; [now apply elem_of_nil in H|exact H].
    + intros [H|H]%Ha; [now apply elem_of_nil in H|exact H].
    + intros [H|H]%Hs; [now apply elem_of_nil in H|exact H].
    + intros [H|H]%Hv; [now apply elem_of_nil in H|exact H].
    + intros [H|H]%Hd; [now apply elem_of_nil in H|exact H].
Qed.

(** [JSON.stringify] of a state value is not the empty string: the
    [filter(Boolean)] of [toDataShape] keeps every state. *)
Lemma JSON_stringify_truthy v : truthy (JSON_stringify v) = true.
Proof. destruct v; reflexivity. Qed.

Lemma filter_truthy_JSON (l : list StateValue) :
  filter (fun s => truthy s = true) (map JSON_stringify l) = map JSON_stringify l.
Proof.
  induction l as [|v l IH]; [reflexivity|]. simpl.
  rewrite filter_cons, decide_True by apply JSON_stringify_truthy. now rewrite IH.
Qed.

Lemma toDataShape_line_states this line :
  NoDup (obj_keys (ItemMap.map this)) ->
  line ∈ DataShape.lines (ItemMap.toDataShape this) ->
  ItemLine.states line = map JSON_stringify (statesOf this (ItemLine.name line)).
Proof.
  intros Hnodup ([k data] & Hin & _ & ->)%toDataShape_line. simpl.
  unfold statesOf. rewrite (obj_elem_get _ _ _ Hnodup Hin). apply filter_truthy_JSON.
Qed.

Lemma toDataShape_statesCarried machine carries this :
  NoDup (obj_keys (ItemMap.map this)) ->
  (forall n v, v ∈ statesOf this n -> carriedAt machine carries n v) ->
  statesCarried machine carries (ItemMap.toDataShape this).
Proof.
  intros Hnodup Hall line state Hline Hstate.
  rewrite (toDataShape_line_states _ _ Hnodup Hline) in Hstate.
  apply list_elem_of_In, in_map_iff in Hstate as (v & <- & Hv).
  apply list_elem_of_In, Hall in Hv as (node & ? & ? & ->). exists node. auto.
Qed.

(** X16: every state that a line of a report lists is the state value,
    as JSON, of the path of a state node of the machine that carries the
    item of the line: for a guard, a node with a transition that has the
    guard (itself or in a branch of [xstate.choose]); for an action, a
    node with an entry or exit action of this type that is no [xstate.]
    action and has no inline [exec], or with a transition that has the
    action, or with an entry action of this type when the node is an
    initial state, the root, or the target of a transition; for a service,
    a node that invokes it or a node with a transition whose target
    invokes it; for an activity or a delay, a node that has it. *)
Theorem line_states_come_from_carrying_nodes {Matches : Type}
  (getTransitionsFromNode : StateNode.t -> list string)
  (getMatchesStates : StateNode.t -> Matches)
  (fuel : nat) (machine : Machine.t) (report : IntrospectMachineResult.t Matches) :
  introspectMachine getTransitionsFromNode getMatchesStates fuel machine
  = Some (Ok report) ->
  statesCarried machine guardAt (IntrospectMachineResult.guards report)
  /\ statesCarried machine (actionAt machine)
       (IntrospectMachineResult.actions report)
  /\ statesCarried machine serviceAt (IntrospectMachineResult.services report)
  /\ statesCarried machine activityOccursAt
       (IntrospectMachineResult.activities report)
  /\ statesCarried machine delayOccursAt (IntrospectMachineResult.delays report).
Proof.
  intros (s & subState & Hrun & _ & ->)%introspectMachine_Ok. simpl.
  destruct (traverse_keys_NoDup machine s Hrun) as (Ng & Na & Ns & Nv & Nd).
  destruct (traverse_states_carried machine s Hrun) as (Hg & Ha & Hs & Hv & Hd).
  repeat split; now apply toDataShape_statesCarried.
Qed.

Lemma line_states_come_from_carrying_nodes_witness :
  exists report,
    introspectMachine noTransitions noMatches 2 lightMachine = Some (Ok report)
    /\ map ItemLine.states (DataShape.lines (IntrospectMachineResult.services report))
       = [[quoteJSON "green"]; [quoteJSON "green"; quoteJSON "red"]]
    /\ statesCarried lightMachine serviceAt (IntrospectMachineResult.services report).
Proof.
  eexists. split; [vm_compute; reflexivity|]. split; [vm_compute; reflexivity|].
  eapply (line_states_come_from_carrying_nodes noTransitions noMatches 2 lightMachine).
  vm_compute. reflexivity.
Defined.

(** Every item of a registry has a state value. *)
Lemma addItem_states_nonempty n p this :
  (forall n', hasItem this n' -> statesOf this n' <> []) ->
  forall n', hasItem (ItemMap.addItem n p this) n' ->
             statesOf (ItemMap.addItem n p this) n' <> [].
Proof.
  intros IH n' Hn'. rewrite statesOf_addItem.
  destruct (decide (n = n')) as [<-|Hne].
  - intros Hnil.
    assert (pathToStateValue p ∈ states_add (pathToStateValue p) (statesOf this n))
      as Hin by (apply states_add_elem; now left).
    rewrite Hnil in Hin. now apply elem_of_nil in Hin.
  - apply IH. apply hasItem_addItem in Hn' as [->|H]; [congruence|exact H].
Qed.

Lemma addEventToItem_states_nonempty n e p this :
  (forall n', hasItem this n' -> statesOf this n' <> []) ->
  forall n', hasItem (ItemMap.addEventToItem n e p this) n' ->
             statesOf (ItemMap.addEventToItem n e p this) n' <> [].
Proof.
  intros IH n' Hn'. rewrite statesOf_addEventToItem.
  apply addItem_states_nonempty; [exact IH|].
  apply hasItem_addItem. now apply hasItem_addEventToItem in Hn'.
Qed.

Lemma toDataShape_states_nonempty this line :
  NoDup (obj_keys (ItemMap.map this)) ->
  (forall n, hasItem this n -> statesOf this n <> []) ->
  line ∈ DataShape.lines (ItemMap.toDataShape this) ->
  ItemLine.states line <> [].
Proof.
  intros Hnodup Hall Hline. rewrite (toDataShape_line_states _ _ Hnodup Hline).
  apply toDataShape_line in Hline as ([k data] & Hin & _ & ->). simpl.
  assert (hasItem this k) as Hk.
  { eapply obj_get_Some_key, obj_elem_get; eauto. }
  specialize (Hall k Hk). now destruct (statesOf this k).
Qed.

Lemma traverse_states_nonempty machine s :
  traverse machine = Ok s ->
  let holdsStates this := forall n, hasItem this n -> statesOf this n <> [] in
  holdsStates (State.guards s) /\ holdsStates (State.actions s)
  /\ holdsStates (State.services s) /\ holdsStates (State.activities s)
  /\ holdsStates (State.delays s).
Proof.
  intros Hrun.
  destruct (related_traverse
              (keepsProperty
                 (fun im => forall n, hasItem im n -> statesOf im n <> []))
              (keepsProperty_refl _) (keepsProperty_trans _)
              (fun n p this => addItem_states_nonempty n p this)
              (fun n e p this => addEventToItem_states_nonempty n e p this)
              machine s Hrun) as (nodes & Hg & Ha & Hs & Hv & Hd).
  assert (forall c n, hasItem (ItemMap.new c) n -> statesOf (ItemMap.new c) n <> [])
    as Hnew by (intros c n H; now apply hasItem_new in H).
  repeat split; [apply Hg|apply Ha|apply Hs|apply Hv|apply Hd]; apply Hnew.
Qed.

(** X17: every line of a report lists at least one state: every item of
    a registry has a state value, and [filter(Boolean)] drops none, the
    JSON text of a state value being never empty. *)
Theorem every_line_has_a_state {Matches : Type}
  (getTransitionsFromNode : StateNode.t -> list string)
  (getMatchesStates : StateNode.t -> Matches)
  (fuel : nat) (machine : Machine.t) (report : IntrospectMachineResult.t Matches)
  (line : ItemLine.t) :
  introspectMachine getTransitionsFromNode getMatchesStates fuel machine
  = Some (Ok report) ->
  line ∈ allLines report ->
  ItemLine.states line <> [].
Proof.
  intros (s & subState & Hrun & _ & ->)%introspectMachine_Ok. unfold allLines. simpl.
  destruct (traverse_keys_NoDup machine s Hrun) as (Ng & Na & Ns & Nv & Nd).
  destruct (traverse_states_nonempty machine s Hrun) as (Hg & Ha & Hs & Hv & Hd).
  rewrite !elem_of_app.
  intros [H|[H|[H|[H|H]]]]; revert H; now apply toDataShape_states_nonempty.
Qed.

Lemma every_line_has_a_state_witness :
  exists report,
    introspectMachine noTransitions noMatches 2 lightMachine = Some (Ok report)
    /\ forall line,
         line ∈ DataShape.lines (IntrospectMachineResult.activities report) ->
         ItemLine.states line <> [].
Proof.
  eexists. split; [vm_compute; reflexivity|]. intros line Hline.
  eapply (every_line_has_a_state noTransitions noMatches 2 lightMachine);
    [vm_compute; reflexivity|].
  unfold allLines. rewrite !elem_of_app. right. right. right. left. exact Hline.
Defined.

Lemma toDataShape_carried machine carries this line :
  NoDup (obj_keys (ItemMap.map this)) ->
  (forall n, hasItem this n -> statesOf this n <> []) ->
  (forall n v, v ∈ statesOf this n -> carriedAt machine carries n v) ->
  line ∈ DataShape.lines (ItemMap.toDataShape this) ->
  exists node, visited machine node /\ carries node (ItemLine.name line).
Proof.
  intros Hnodup Hsome Hall Hline.
  pose proof (toDataShape_states_nonempty _ _ Hnodup Hsome Hline) as Hne.
  destruct (ItemLine.states line) as [|state rest] eqn:Hstates; [now destruct Hne|].
  destruct (toDataShape_statesCarried machine carries this Hnodup Hall line state Hline)
    as (node & Hvisited & Hcarries & _); [rewrite Hstates; left|].
  exists node. auto.
Qed.

(** X26: the report names no item that the machine does not have: the
    item of every line is carried by a state node of the machine, in the
    sense of its category (see X16). *)
Theorem every_line_names_a_carried_item {Matches : Type}
  (getTransitionsFromNode : StateNode.t -> list string)
  (getMatchesStates : StateNode.t -> Matches)
  (fuel : nat) (machine : Machine.t) (report : IntrospectMachineResult.t Matches) :
  introspectMachine getTransitionsFromNode getMatchesStates fuel machine
  = Some (Ok report) ->
  let carried carries shape :=
    forall line,
      line ∈ DataShape.lines shape ->
      exists node, visited machine node /\ carries node (ItemLine.name line) in
  carried guardAt (IntrospectMachineResult.guards report)
  /\ carried (actionAt machine) (IntrospectMachineResult.actions report)
  /\ carried serviceAt (IntrospectMachineResult.services report)
  /\ carried activityOccursAt (IntrospectMachineResult.activities report)
  /\ carried delayOccursAt (IntrospectMachineResult.delays report).
Proof.
  intros (s & subState & Hrun & _ & ->)%introspectMachine_Ok. simpl.
  destruct (traverse_keys_NoDup machine s Hrun) as (Ng & Na & Ns & Nv & Nd).
  destruct (traverse_states_nonempty machine s Hrun) as (Sg & Sa & Ss & Sv & Sd).
  destruct (traverse_states_carried machine s Hrun) as (Hg & Ha & Hs & Hv & Hd).
  repeat split; intros line; now apply toDataShape_carried.
Qed.

Lemma every_line_names_a_carried_item_witness :
  exists report,
    introspectMachine noTransitions noMatches 2 lightMachine = Some (Ok report)
    /\ map ItemLine.name (DataShape.lines (IntrospectMachineResult.activities report))
       = ["beeping"]
    /\ forall line,
         line ∈ DataShape.lines (IntrospectMachineResult.activities report) ->
         exists node,
           visited lightMachine node /\ activityOccursAt node (ItemLine.name line).
Proof.
  eexists. split; [vm_compute; reflexivity|]. split; [vm_compute; reflexivity|].
  eapply (every_line_names_a_carried_item noTransitions noMatches 2 lightMachine).
  vm_compute. reflexivity.
Defined.

(** ** Registering an occurrence again *)

Lemma obj_alter_idem {V : Type} (f : V -> V) k (o : list (string * V)) :
  (forall v, f (f v) = f v) -> obj_alter f k (obj_alter f k o) = obj_alter f k o.
Proof.
  intros Hf. induction o as [|[k' v] o IH]; simpl; [reflexivity|].
  destruct (decide (k = k')) as [->|Hne]; simpl.
  - now rewrite decide_True, Hf by reflexivity.
  - now rewrite decide_False, IH by exact Hne.
Qed.

Lemma states_add_string_idem k set :
  states_add (SVString k) (states_add (SVString k) set)
  = states_add (SVString k) set.
Proof.
  unfold states_add. destruct (existsb (isSVString k) set) eqn:Hex.
  - now rewrite Hex.
  - rewrite existsb_app. simpl. rewrite bool_decide_eq_true_2 by reflexivity.
    now rewrite orb_true_r.
Qed.

Lemma addItem_has n p this :
  exists data, obj_get n (ItemMap.map (ItemMap.addItem n p this)) = Some data.
Proof. apply obj_key_get. apply (hasItem_addItem_same n p this). Qed.

Lemma addItem_held n p this data :
  obj_get n (ItemMap.map this) = Some data ->
  ItemMap.addItem n p this
  = ItemMap.mk
      (obj_alter
         (fun data =>
            ItemData.mk (ItemData.events data)
              (states_add (pathToStateValue p) (ItemData.states data)))
         n (ItemMap.map this))
      (ItemMap.checkIfOptional this).
Proof. intros H. unfold ItemMap.addItem. now rewrite H. Qed.

(** X18: registering an item again on the same path changes nothing
    when the path has one segment, a state right below the root: its
    state value is a string, found again by value.  On any other path, the
    root's or that of a deeper state, the second call of [addItem] appends
    the state value a second time: [pathToStateValue] builds a fresh object
    at each call, which the [Set] does not hold yet. *)
Theorem addItem_again (itemName : string) (nodePath : list string) (this : ItemMap.t) :
  let once := ItemMap.addItem itemName nodePath this in
  let twice := ItemMap.addItem itemName nodePath once in
  (length nodePath = 1 -> twice = once)
  /\ (length nodePath <> 1 ->
      statesOf twice itemName = statesOf once itemName ++ [pathToStateValue nodePath]).
Proof.
  intros once twice. split.
  - intros Hlen. destruct nodePath as [|k [|? ?]]; try discriminate.
    destruct (addItem_has itemName [k] this) as [data Hdata].
    unfold twice. rewrite (addItem_held _ _ _ _ Hdata).
    unfold once, ItemMap.addItem. simpl. f_equal.
    apply obj_alter_idem. intros [events states]. simpl. f_equal.
    apply states_add_string_idem.
  - intros Hlen. unfold twice. rewrite statesOf_addItem, decide_True by reflexivity.
    destruct nodePath as [|k [|? ?]]; [reflexivity|now destruct Hlen|reflexivity].
Qed.

Lemma addItem_again_witness :
  let once := ItemMap.addItem "boot" [] (ItemMap.new (fun _ => false)) in
  let twice := ItemMap.addItem "boot" [] once in
  map JSON_stringify (statesOf twice "boot") = ["{}"; "{}"]
  /\ statesOf twice "boot" = statesOf once "boot" ++ [pathToStateValue []].
Proof.
  split; [vm_compute; reflexivity|].
  apply (addItem_again "boot" [] (ItemMap.new (fun _ => false))). simpl. lia.
Defined.

(** * The calls that the passes make

    For a relation that the two methods respect, the registries at the
    end of the passes are related to the outcome of each call that a state
    node of the machine gives rise to: what a call establishes, and the
    relation keeps, holds at the end. *)

Lemma addEntrySources_nodeMap node action s s' :
  addEntrySources node action s = Ok s' -> State.nodeMap s' = State.nodeMap s.
Proof.
  unfold addEntrySources. destruct (obj_get _ _); [|discriminate]. now intros [= <-].
Qed.

Section RegistryCalls.
Variable R : ItemMap.t -> ItemMap.t -> Prop.
Hypothesis R_refl : forall this, R this this.
Hypothesis R_trans : forall a b c, R a b -> R b c -> R a c.
Hypothesis R_addItem : forall n p this, R this (ItemMap.addItem n p this).
Hypothesis R_addEventToItem :
  forall n e p this, R this (ItemMap.addEventToItem n e p this).

Local Abbreviation rel := (registriesRelated R).

Lemma rel_refl s : rel s s.
Proof. now apply related_refl. Qed.

Lemma rel_trans s t u : rel s t -> rel t u -> rel s u.
Proof. now apply related_trans. Qed.

Lemma rel_visitNode node s s' : visitNode node s = Ok s' -> rel s s'.
Proof. now apply related_visitNode. Qed.

Lemma rel_visitNodeActions node s s' : visitNodeActions node s = Ok s' -> rel s s'.
Proof. now apply related_visitNodeActions. Qed.

Lemma rel_visitTransition node transition s s' :
  visitTransition node transition s = Ok s' -> rel s s'.
Proof. now apply related_visitTransition. Qed.

Lemma rel_transitions node s s' :
  forEach (visitTransition node) (StateNode.transitions node) s = Ok s' -> rel s s'.
Proof.
  apply related_forEach; auto. intros. eapply rel_visitTransition; eauto.
Qed.

Lemma rel_addTransitionAction node transition action s :
  rel s (addTransitionAction node transition action s).
Proof. now apply related_addTransitionAction. Qed.

Lemma rel_addChooseBranch node transition branch s :
  rel s (addChooseBranch node transition branch s).
Proof. now apply related_addChooseBranch. Qed.

Lemma rel_addTargetInvokes node transition s :
  rel s (addTargetInvokes node transition s).
Proof. unfold registriesRelated. apply relatedBy_addTargetInvokes; auto. Qed.

Lemma rel_addOccurrences node s : rel s (addOccurrences node s).
Proof. now apply related_addOccurrences. Qed.

Lemma rel_addEntrySources node action s s' :
  addEntrySources node action s = Ok s' -> rel s s'.
Proof. now apply related_addEntrySources. Qed.

Lemma calledEvent_here n e p this : calledEvent R (ItemMap.addEventToItem n e p this) n e p.
Proof. exists this. apply R_refl. Qed.

Lemma calledItem_here n p this : calledItem R (ItemMap.addItem n p this) n p.
Proof. exists this. apply R_refl. Qed.

Lemma calledEvent_up a b n e p : R a b -> calledEvent R a n e p -> calledEvent R b n e p.
Proof. intros Hab [this H]. exists this. eauto. Qed.

Lemma calledItem_up a b n p : R a b -> calledItem R a n p -> calledItem R b n p.
Proof. intros Hab [this H]. exists this. eauto. Qed.

Lemma loop_reaches {A : Type} (f : A -> ItemMap.t -> ItemMap.t) (Q : ItemMap.t -> Prop)
  l x this :
  (forall y im, R im (f y im)) ->
  (forall a b, R a b -> Q a -> Q b) ->
  (forall im, Q (f x im)) ->
  x ∈ l -> Q (forEachPure f l this).
Proof.
  intros Hmono Hup Hx Hin. apply (forEachPure_reaches f R Q l x); auto.
Qed.

Lemma loop_calledEvent {A : Type} (f : A -> ItemMap.t -> ItemMap.t) l x this n e p :
  (forall y im, R im (f y im)) ->
  (forall im, calledEvent R (f x im) n e p) ->
  x ∈ l -> calledEvent R (forEachPure f l this) n e p.
Proof.
  intros Hmono Hx Hin.
  apply (loop_reaches f (fun im => calledEvent R im n e p) l x); auto.
  intros a b. apply calledEvent_up.
Qed.

Lemma loop_calledItem {A : Type} (f : A -> ItemMap.t -> ItemMap.t) l x this n p :
  (forall y im, R im (f y im)) ->
  (forall im, calledItem R (f x im) n p) ->
  x ∈ l -> calledItem R (forEachPure f l this) n p.
Proof.
  intros Hmono Hx Hin.
  apply (loop_reaches f (fun im => calledItem R im n p) l x); auto.
  intros a b. apply calledItem_up.
Qed.

(** Upward-closed properties of the state. *)
Local Abbreviation upward P := (forall t u : State.t, rel t u -> P t -> P u).

Lemma upward_guards (Q : ItemMap.t -> Prop) :
  (forall a b, R a b -> Q a -> Q b) -> upward (fun t => Q (State.guards t)).
Proof. intros HQ t u (H & _). now apply HQ. Qed.

Lemma upward_actions (Q : ItemMap.t -> Prop) :
  (forall a b, R a b -> Q a -> Q b) -> upward (fun t => Q (State.actions t)).
Proof. intros HQ t u (_ & H & _). now apply HQ. Qed.

Lemma upward_services (Q : ItemMap.t -> Prop) :
  (forall a b, R a b -> Q a -> Q b) -> upward (fun t => Q (State.services t)).
Proof. intros HQ t u (_ & _ & H & _). now apply HQ. Qed.

Lemma upward_activities (Q : ItemMap.t -> Prop) :
  (forall a b, R a b -> Q a -> Q b) -> upward (fun t => Q (State.activities t)).
Proof. intros HQ t u (_ & _ & _ & H & _). now apply HQ. Qed.

Lemma upward_delays (Q : ItemMap.t -> Prop) :
  (forall a b, R a b -> Q a -> Q b) -> upward (fun t => Q (State.delays t)).
Proof. intros HQ t u (_ & _ & _ & _ & H). now apply HQ. Qed.

Lemma after_visitNode (P : State.t -> Prop) machine s node :
  traverse machine = Ok s ->
  visited machine node ->
  upward P ->
  (forall t t', visitNode node t = Ok t' -> P t') ->
  P s.
Proof.
  intros (nodes & s1 & Hnodes & H1 & H2)%traverse_Ok Hvisited Hup Hstep.
  destruct (allStateNodes_Ok machine) as (nodes' & Hnodes' & _ & Hvis).
  rewrite Hnodes in Hnodes'. injection Hnodes' as <-.
  apply (Hup s1).
  - revert H2. apply (forEach_invariant _ (rel s1)); [|apply rel_refl].
    intros n t t' _ IH Hn. eapply rel_trans; [exact IH|eapply rel_visitNodeActions, Hn].
  - revert H1. apply (forEach_reaches _ rel P nodes node); auto.
    + intros. eapply rel_visitNode; eauto.
    + apply rel_refl.
    + apply rel_trans.
    + now apply Hvis.
Qed.

Lemma after_visitNodeActions (P : State.t -> Prop) machine s node :
  traverse machine = Ok s ->
  visited machine node ->
  upward P ->
  (forall t t',
     State.nodeMap t = State.nodeMap s -> visitNodeActions node t = Ok t' -> P t') ->
  P s.
Proof.
  intros (nodes & s1 & Hnodes & H1 & H2)%traverse_Ok Hvisited Hup Hstep.
  destruct (allStateNodes_Ok machine) as (nodes' & Hnodes' & _ & Hvis).
  rewrite Hnodes in Hnodes'. injection Hnodes' as <-.
  assert (forall l t t',
            forEach visitNodeActions l t = Ok t' ->
            State.nodeMap t' = State.nodeMap t) as Hsame.
  { intros l t t'.
    apply (forEach_invariant _ (fun u => State.nodeMap u = State.nodeMap t));
      [|reflexivity].
    intros n u u' _ IH Hn. rewrite <- IH. eapply visitNodeActions_nodeMap, Hn. }
  apply Hvis in Hvisited.
  destruct (forEach_elem _ _ _ _ _ Hvisited H2)
    as (l1 & l2 & t & t' & _ & Ht & Hnode & Hrest).
  apply (Hup t').
  - revert Hrest. apply (forEach_invariant _ (rel t')); [|apply rel_refl].
    intros n u u' _ IH Hn. eapply rel_trans; [exact IH|eapply rel_visitNodeActions, Hn].
  - apply (Hstep t t'); [|exact Hnode].
    rewrite (Hsame _ _ _ Hrest), (visitNodeActions_nodeMap _ _ _ Hnode). reflexivity.
Qed.

Lemma after_visitTransition (P : State.t -> Prop) node transition s s' :
  visitNode node s = Ok s' ->
  transition ∈ StateNode.transitions node ->
  upward P ->
  (forall t t', visitTransition node transition t = Ok t' -> P t') ->
  P s'.
Proof.
  unfold visitNode. intros Hrun Hin Hup Hstep.
  destruct (addChildren node _) as [s2|e]; simpl in Hrun; [|discriminate].
  revert Hrun.
  apply (forEach_reaches _ rel P (StateNode.transitions node) transition); auto.
  - intros. eapply rel_visitTransition; eauto.
  - apply rel_refl.
  - apply rel_trans.
Qed.

Lemma after_addInitEvents (P : State.t -> Prop) node s s' :
  visitNode node s = Ok s' ->
  isInitialOrRoot node = true ->
  upward P ->
  (forall t, P (addInitEvents node t)) ->
  P s'.
Proof.
  unfold visitNode. intros Hrun Hinit Hup Hstep. rewrite Hinit in Hrun.
  destruct (addChildren node _) as [s2|e] eqn:H2; simpl in Hrun; [|discriminate].
  apply (Hup (addInitEvents node s)); [|apply Hstep].
  eapply rel_trans; [eapply related_onNodeMap, H2; auto|].
  eapply rel_trans; [apply rel_addOccurrences|].
  eapply rel_transitions, Hrun.
Qed.

Lemma after_addOccurrences (P : State.t -> Prop) node s s' :
  visitNode node s = Ok s' ->
  upward P ->
  (forall t, P (addOccurrences node t)) ->
  P s'.
Proof.
  unfold visitNode. intros Hrun Hup Hstep.
  destruct (addChildren node _) as [s2|e] eqn:H2; simpl in Hrun; [|discriminate].
  apply (Hup (addOccurrences node s2)); [|apply Hstep].
  eapply rel_transitions, Hrun.
Qed.

Section CallsOfOneNode.
Variable node : StateNode.t.

Lemma addInitEvents_calls t :
  isInitialOrRoot node = true ->
  (forall n, serviceOccursAt node n ->
     calledEvent R (State.services (addInitEvents node t)) n "xstate.init"
       (StateNode.path node))
  /\ (forall action,
        action ∈ StateNode.onEntry node ->
        ActionObject.type action <> EmptyString ->
        calledEvent R (State.actions (addInitEvents node t)) (ActionObject.type action)
          "xstate.init" (StateNode.path node))
  /\ (forall n, delayOccursAt node n ->
        calledEvent R (State.delays (addInitEvents node t)) n "xstate.init"
          (StateNode.path node)).
Proof.
  intros _. unfold addInitEvents. simpl. split; [|split].
  - intros n (service & Hin & Hsrc).
    apply (loop_calledEvent _ _ service); auto.
    + intros y im. destruct (InvokeDefinition.src y); auto.
    + intros im. rewrite Hsrc. apply calledEvent_here.
  - intros action Hin Htype.
    apply (loop_calledEvent _ _ action); auto.
    + intros y im. destruct (truthy (ActionObject.type y)); auto.
    + intros im. destruct (ActionObject.type action) eqn:Hty; [now destruct Htype|].
      simpl. apply calledEvent_here.
  - intros n (delayed & Hin & Hdelay).
    apply (loop_calledEvent _ _ delayed); auto.
    + intros y im. destruct (DelayedTransition.delay y); auto.
    + intros im. rewrite Hdelay. apply calledEvent_here.
Qed.

Lemma addOccurrences_calls t :
  (forall n, activityOccursAt node n ->
     calledItem R (State.activities (addOccurrences node t)) n (StateNode.path node))
  /\ (forall n, delayOccursAt node n ->
        calledItem R (State.delays (addOccurrences node t)) n (StateNode.path node))
  /\ (forall n, serviceOccursAt node n ->
        calledItem R (State.services (addOccurrences node t)) n (StateNode.path node)).
Proof.
  unfold addOccurrences. simpl. split; [|split].
  - intros n (activity & Hin & <- & Hne & Hinvoke).
    apply (loop_calledItem _ _ activity); auto.
    + intros y im. destruct (_ && _); auto.
    + intros im. destruct (ActivityDefinition.type activity) eqn:Hty;
        [now destruct Hne|].
      rewrite bool_decide_eq_false_2 by exact Hinvoke. simpl. apply calledItem_here.
  - intros n (delayed & Hin & Hdelay).
    apply (loop_calledItem _ _ delayed); auto.
    + intros y im. destruct (DelayedTransition.delay y); auto.
    + intros im. rewrite Hdelay. apply calledItem_here.
  - intros n (service & Hin & Hsrc).
    apply (loop_calledItem _ _ service); auto.
    + intros y im. destruct (InvokeDefinition.src y); auto.
    + intros im. rewrite Hsrc. apply calledItem_here.
Qed.

Section CallsOfOneTransition.
Variable transition : Transition.t.

Local Abbreviation ev := (Transition.eventType transition).
Local Abbreviation path := (StateNode.path node).

Lemma addChooseBranch_calls branch t :
  (forall n, ChooseCondition.cond branch = GuardString n ->
     calledEvent R (State.guards (addChooseBranch node transition branch t)) n ev path)
  /\ (forall n, branchAction branch n ->
        calledEvent R (State.actions (addChooseBranch node transition branch t))
          n ev path).
Proof.
  unfold addChooseBranch, branchAction. split.
  - intros n ->.
    destruct (ChooseCondition.actions branch); simpl; apply calledEvent_here.
  - intros n Hn.
    destruct (ChooseCondition.actions branch) as [condActions|condActions|];
      [| |contradiction].
    + destruct (ChooseCondition.cond branch); simpl;
        (apply (loop_calledEvent _ _ (ActionString n)); auto;
         [intros [name|] im; auto
         |intros im; apply calledEvent_here]).
    + subst condActions. destruct (ChooseCondition.cond branch); simpl;
        apply calledEvent_here.
Qed.

Lemma addTransitionAction_calls action t :
  (xstateRegex_test (ActionObject.type action) = false ->
   calledEvent R (State.actions (addTransitionAction node transition action t))
     (ActionObject.type action) ev path)
  /\ (forall conds branch,
        ActionObject.type action = "xstate.choose" ->
        ActionObject.conds action = Some conds ->
        branch ∈ conds ->
        (forall n, ChooseCondition.cond branch = GuardString n ->
           calledEvent R (State.guards (addTransitionAction node transition action t))
             n ev path)
        /\ (forall n, branchAction branch n ->
              calledEvent R
                (State.actions (addTransitionAction node transition action t))
                n ev path)).
Proof.
  unfold addTransitionAction. split.
  - intros Htest. rewrite Htest. simpl.
    set (s1 := State.onActions _ t).
    assert (calledEvent R (State.actions s1) (ActionObject.type action) ev path) as H1
      by apply calledEvent_here.
    clearbody s1.
    assert (forall l, rel s1 (forEachPure (addChooseBranch node transition) l s1))
      as Hloop.
    { intros l. apply related_loop; auto. intros. apply rel_addChooseBranch. }
    destruct (bool_decide _); [|exact H1].
    destruct (ActionObject.conds action) as [conds|]; [|exact H1].
    destruct (Hloop conds) as (_ & Ha & _). eapply calledEvent_up; eauto.
  - intros conds branch Htype Hconds Hbranch.
    rewrite Htype, Hconds. rewrite bool_decide_eq_true_2 by reflexivity.
    set (s1 := if negb _ then _ else t). clearbody s1.
    split; intros n Hn.
    + apply (forEachPure_reaches _ rel
               (fun u => calledEvent R (State.guards u) n ev path) conds branch);
        [intros y u; apply rel_addChooseBranch|apply rel_refl|apply rel_trans
        |apply (upward_guards (fun im => calledEvent R im n ev path));
         intros a b; apply calledEvent_up
        |intros u; now apply addChooseBranch_calls
        |exact Hbranch].
    + apply (forEachPure_reaches _ rel
               (fun u => calledEvent R (State.actions u) n ev path) conds branch);
        [intros y u; apply rel_addChooseBranch|apply rel_refl|apply rel_trans
        |apply (upward_actions (fun im => calledEvent R im n ev path));
         intros a b; apply calledEvent_up
        |intros u; now apply addChooseBranch_calls
        |exact Hbranch].
Qed.

Lemma visitTransition_calls s s' :
  visitTransition node transition s = Ok s' ->
  (forall n, guardCauseOf transition n -> calledEvent R (State.guards s') n ev path)
  /\ (forall n, actionCauseOf transition n -> calledEvent R (State.actions s') n ev path)
  /\ (forall n, serviceCauseOf transition n ->
        calledEvent R (State.services s') n ev path).
Proof.
  unfold visitTransition.
  destruct (addSources transition s) as [s1|e] eqn:H1; simpl; [|discriminate].
  intros [= <-].
  set (s2 := addTransitionGuard node transition s1).
  set (s3 := addTargetInvokes node transition s2).
  assert (rel s3 (forEachPure (addTransitionAction node transition)
                    (Transition.actions transition) s3)) as (Hg & Ha & Hs & _).
  { apply related_loop; auto. intros. apply rel_addTransitionAction. }
  assert (forall (P : State.t -> Prop) action,
            action ∈ Transition.actions transition -> upward P ->
            (forall u, P (addTransitionAction node transition action u)) ->
            P (forEachPure (addTransitionAction node transition)
                 (Transition.actions transition) s3)) as Hreach.
  { intros P action Hin Hup Hstep.
    apply (forEachPure_reaches _ rel P (Transition.actions transition) action);
      [intros y u; apply rel_addTransitionAction|apply rel_refl|apply rel_trans
      |exact Hup|exact Hstep|exact Hin]. }
  split; [|split].
  - intros n [(cond & Hcond & <- & Hne & Hncond)|(branch & Hbranch & Hguard)].
    + eapply calledEvent_up; [exact Hg|].
      destruct (rel_addTargetInvokes node transition s2) as (Hg2 & _).
      eapply calledEvent_up; [exact Hg2|].
      unfold s2, addTransitionGuard. rewrite Hcond.
      destruct (Guard.name cond) eqn:Hname; [now destruct Hne|]. simpl.
      rewrite bool_decide_eq_false_2 by exact Hncond. simpl. apply calledEvent_here.
    + destruct Hbranch as (action & conds & Hin & Htype & Hconds & Hb).
      apply (Hreach (fun u => calledEvent R (State.guards u) n ev path) action Hin).
      * apply (upward_guards (fun im => calledEvent R im _ _ _)). intros a b. apply calledEvent_up.
      * intros u.
        now apply (proj2 (addTransitionAction_calls action u) conds branch).
  - intros n [(action & Hin & <- & Htest)|(branch & Hbranch & Haction)].
    + apply (Hreach (fun u => calledEvent R (State.actions u) _ ev path) action Hin).
      * apply (upward_actions (fun im => calledEvent R im _ _ _)). intros a b. apply calledEvent_up.
      * intros u. now apply addTransitionAction_calls.
    + destruct Hbranch as (action & conds & Hin & Htype & Hconds & Hb).
      apply (Hreach (fun u => calledEvent R (State.actions u) n ev path) action Hin).
      * apply (upward_actions (fun im => calledEvent R im _ _ _)). intros a b. apply calledEvent_up.
      * intros u.
        now apply (proj2 (addTransitionAction_calls action u) conds branch).
  - intros n (targets & targetNode & service & Htarget & Htin & Hin & Hsrc).
    eapply calledEvent_up; [exact Hs|].
    unfold s3, addTargetInvokes. rewrite Htarget. simpl.
    apply (loop_calledEvent _ _ targetNode); auto.
    + intros y im. apply loop_related; auto.
      intros z im'. destruct (InvokeDefinition.src z); auto.
    + intros im. apply (loop_calledEvent _ _ service); auto.
      * intros z im'. destruct (InvokeDefinition.src z); auto.
      * intros im'. rewrite Hsrc. apply calledEvent_here.
Qed.
End CallsOfOneTransition.

Lemma visitNodeActions_calls s s' :
  visitNodeActions node s = Ok s' ->
  (forall n, actionOccursAt node n ->
     calledItem R (State.actions s') n (StateNode.path node))
  /\ (forall n e, entryCauseAt (State.nodeMap s) node n e ->
        calledEvent R (State.actions s') n e (StateNode.path node)).
Proof.
  unfold visitNodeActions. set (s1 := State.onActions _ s). intros Hrun.
  assert (forall l t t',
            forEach (addEntrySources node) l t = Ok t' -> rel t t') as Hrel.
  { intros l t t'. apply related_forEach; auto.
    intros. eapply rel_addEntrySources; eauto. }
  split.
  - intros n (action & Hin & <- & Htest & Hexec).
    destruct (Hrel _ _ _ Hrun) as (_ & Ha & _). eapply calledItem_up; [exact Ha|].
    unfold s1. simpl. apply (loop_calledItem _ _ action); auto.
    + intros y im. destruct (_ || _); auto.
    + intros im. rewrite Htest, Hexec. simpl. apply calledItem_here.
  - intros n e [(action & Hin & <-) (entry & Hentry & He)].
    destruct (forEach_elem _ _ _ _ _ Hin Hrun)
      as (l1 & l2 & t & t' & _ & Ht & Hstep & Hrest).
    destruct (Hrel _ _ _ Hrest) as (_ & Ha & _). eapply calledEvent_up; [exact Ha|].
    assert (State.nodeMap t = State.nodeMap s) as Hnm.
    { revert Ht.
      apply (forEach_invariant _ (fun u => State.nodeMap u = State.nodeMap s));
        [|reflexivity].
      intros y u u' _ IH Hy. rewrite <- IH. eapply addEntrySources_nodeMap, Hy. }
    unfold addEntrySources in Hstep. rewrite Hnm, Hentry in Hstep.
    injection Hstep as <-. simpl.
    apply (loop_calledEvent _ _ e); auto. intros im. apply calledEvent_here.
Qed.
End CallsOfOneNode.

(** Every call that a state node of the machine gives rise to has been
    made when the passes end. *)
Lemma traverse_calls machine s node :
  traverse machine = Ok s ->
  visited machine node ->
  (forall n e, guardCauseAt node n e ->
     calledEvent R (State.guards s) n e (StateNode.path node))
  /\ (forall n e, actionCauseAt node n e ->
        calledEvent R (State.actions s) n e (StateNode.path node))
  /\ (forall n e, entryCauseAt (State.nodeMap s) node n e ->
        calledEvent R (State.actions s) n e (StateNode.path node))
  /\ (forall n e, serviceCauseAt node n e ->
        calledEvent R (State.services s) n e (StateNode.path node))
  /\ (forall n e, delayCauseAt node n e ->
        calledEvent R (State.delays s) n e (StateNode.path node))
  /\ (forall n, actionOccursAt node n ->
        calledItem R (State.actions s) n (StateNode.path node))
  /\ (forall n, serviceOccursAt node n ->
        calledItem R (State.services s) n (StateNode.path node))
  /\ (forall n, activityOccursAt node n ->
        calledItem R (State.activities s) n (StateNode.path node))
  /\ (forall n, delayOccursAt node n ->
        calledItem R (State.delays s) n (StateNode.path node)).
Proof.
  intros Hrun Hvisited.
  assert (forall P : State.t -> Prop, upward P ->
            (forall t t', visitNode node t = Ok t' -> P t') -> P s) as Hfirst.
  { intros P. now apply after_visitNode with (machine := machine). }
  assert (forall (P : State.t -> Prop) transition,
            transition ∈ StateNode.transitions node -> upward P ->
            (forall t t', visitTransition node transition t = Ok t' -> P t') -> P s)
    as Htransition.
  { intros P transition Hin Hup Hstep. apply Hfirst; [exact Hup|].
    intros t t' Hnode. now apply (after_visitTransition P node transition t t'). }
  assert (forall P : State.t -> Prop, upward P ->
            isInitialOrRoot node = true ->
            (forall t, P (addInitEvents node t)) -> P s) as Hinit.
  { intros P Hup Hroot Hstep. apply Hfirst; [exact Hup|].
    intros t t' Hnode. now apply (after_addInitEvents P node t t'). }
  assert (forall P : State.t -> Prop, upward P ->
            (forall t, P (addOccurrences node t)) -> P s) as Hocc.
  { intros P Hup Hstep. apply Hfirst; [exact Hup|].
    intros t t' Hnode. now apply (after_addOccurrences P node t t'). }
  assert (forall P : State.t -> Prop, upward P ->
            (forall t t', State.nodeMap t = State.nodeMap s ->
                          visitNodeActions node t = Ok t' -> P t') -> P s) as Hsecond.
  { intros P. now apply after_visitNodeActions with (machine := machine). }
  pose proof (fun n e p => upward_guards (fun im => calledEvent R im n e p)
                             (fun a b => calledEvent_up a b n e p)) as Ug.
  pose proof (fun n e p => upward_actions (fun im => calledEvent R im n e p)
                             (fun a b => calledEvent_up a b n e p)) as Ua.
  pose proof (fun n e p => upward_services (fun im => calledEvent R im n e p)
                             (fun a b => calledEvent_up a b n e p)) as Us.
  pose proof (fun n e p => upward_delays (fun im => calledEvent R im n e p)
                             (fun a b => calledEvent_up a b n e p)) as Ud.
  pose proof (fun n p => upward_actions (fun im => calledItem R im n p)
                           (fun a b => calledItem_up a b n p)) as Ia.
  pose proof (fun n p => upward_services (fun im => calledItem R im n p)
                           (fun a b => calledItem_up a b n p)) as Is.
  pose proof (fun n p => upward_activities (fun im => calledItem R im n p)
                           (fun a b => calledItem_up a b n p)) as Iv.
  pose proof (fun n p => upward_delays (fun im => calledItem R im n p)
                           (fun a b => calledItem_up a b n p)) as Id.
  repeat apply conj.
  - intros n e (transition & Hin & <- & Hcause).
    apply (Htransition _ transition Hin (Ug _ _ _)).
    intros t t' Hstep. now apply (visitTransition_calls node transition t t' Hstep).
  - intros n e [(-> & Hroot & Hne & action & Hin & <-)|(transition & Hin & <- & Hcause)].
    + apply (Hinit _ (Ua _ _ _) Hroot). intros t.
      now apply (addInitEvents_calls node t Hroot).
    + apply (Htransition _ transition Hin (Ua _ _ _)).
      intros t t' Hstep. now apply (visitTransition_calls node transition t t' Hstep).
  - intros n e Hcause. apply (Hsecond _ (Ua _ _ _)).
    intros t t' Hnm Hstep. apply (visitNodeActions_calls node t t' Hstep).
    now rewrite Hnm.
  - intros n e [(-> & Hroot & Hocc')|(transition & Hin & <- & Hcause)].
    + apply (Hinit _ (Us _ _ _) Hroot). intros t.
      now apply (addInitEvents_calls node t Hroot).
    + apply (Htransition _ transition Hin (Us _ _ _)).
      intros t t' Hstep. now apply (visitTransition_calls node transition t t' Hstep).
  - intros n e (-> & Hroot & Hocc').
    apply (Hinit _ (Ud _ _ _) Hroot). intros t.
    now apply (addInitEvents_calls node t Hroot).
  - intros n Hocc'. apply (Hsecond _ (Ia _ _)).
    intros t t' _ Hstep. now apply (visitNodeActions_calls node t t' Hstep).
  - intros n Hocc'. apply (Hocc _ (Is _ _)). intros t.
    now apply (addOccurrences_calls node t).
  - intros n Hocc'. apply (Hocc _ (Iv _ _)). intros t.
    now apply (addOccurrences_calls node t).
  - intros n Hocc'. apply (Hocc _ (Id _ _)). intros t.
    now apply (addOccurrences_calls node t).
Qed.
End RegistryCalls.

(** ** The states of the carrying nodes are listed *)

Lemma statesGrow_refl this : statesGrow this this.
Proof. intros n v H. exact H. Qed.

Lemma statesGrow_trans a b c : statesGrow a b -> statesGrow b c -> statesGrow a c.
Proof. intros Hab Hbc n v H. auto. Qed.

Lemma statesGrow_addItem n p this : statesGrow this (ItemMap.addItem n p this).
Proof.
  intros n' v H. rewrite statesOf_addItem.
  destruct (decide (n = n')); [|exact H]. apply states_add_elem. now right.
Qed.

Lemma statesGrow_addEventToItem n e p this :
  statesGrow this (ItemMap.addEventToItem n e p this).
Proof. intros n' v H. rewrite statesOf_addEventToItem. now apply statesGrow_addItem. Qed.

Lemma calledItem_state this n p :
  calledItem statesGrow this n p -> pathToStateValue p ∈ statesOf this n.
Proof.
  intros [this0 H]. apply H. rewrite statesOf_addItem, decide_True by reflexivity.
  apply states_add_elem. now left.
Qed.

Lemma calledEvent_state this n e p :
  calledEvent statesGrow this n e p -> pathToStateValue p ∈ statesOf this n.
Proof.
  intros [this0 H]. apply H.
  rewrite statesOf_addEventToItem, statesOf_addItem, decide_True by reflexivity.
  apply states_add_elem. now left.
Qed.

Lemma statesOf_reportsState this n v :
  v ∈ statesOf this n -> hasDot n = false ->
  reportsState (ItemMap.toDataShape this) n (JSON_stringify v).
Proof.
  unfold statesOf. intros Hv Hdot.
  destruct (obj_get n (ItemMap.map this)) as [data|] eqn:Hdata;
    [|now apply elem_of_nil in Hv].
  exists (lineOf (ItemMap.checkIfOptional this) (n, data)).
  split; [|split; [reflexivity|]].
  - apply toDataShape_line. exists (n, data). split; [|auto].
    now apply obj_get_Some_elem.
  - simpl. rewrite filter_truthy_JSON.
    apply list_elem_of_In, in_map, list_elem_of_In, Hv.
Qed.

(** The state value of every carrying node is in the registry at the end
    of the two passes. *)
Lemma traverse_states_listed machine s node :
  traverse machine = Ok s ->
  visited machine node ->
  let v := pathToStateValue (StateNode.path node) in
  (forall n, guardAt node n -> v ∈ statesOf (State.guards s) n)
  /\ (forall n, actionAt machine node n -> v ∈ statesOf (State.actions s) n)
  /\ (forall n, serviceAt node n -> v ∈ statesOf (State.services s) n)
  /\ (forall n, activityOccursAt node n -> v ∈ statesOf (State.activities s) n)
  /\ (forall n, delayOccursAt node n -> v ∈ statesOf (State.delays s) n).
Proof.
  intros Hrun Hvisited v.
  destruct (traverse_calls statesGrow statesGrow_refl statesGrow_trans
              statesGrow_addItem statesGrow_addEventToItem machine s node Hrun
              Hvisited)
    as (Eg & Ea & Ee & Es & Ed & Ia & Is & Iv & Id).
  split; [|split; [|split; [|split]]]; intros n.
  - intros (transition & Hin & Hcause).
    apply (calledEvent_state _ _ (Transition.eventType transition)), Eg.
    exists transition. auto.
  - intros [Hocc|[(transition & Hin & Hcause)
                 |(action & Hin & Htype & [[Hne Hroot]|[e Hsource]])]].
    + now apply calledItem_state, Ia.
    + apply (calledEvent_state _ _ (Transition.eventType transition)), Ea.
      right. exists transition. auto.
    + apply (calledEvent_state _ _ "xstate.init"), Ea. left.
      split; [reflexivity|]. split; [exact Hroot|]. split; [exact Hne|eauto].
    + apply (calledEvent_state _ _ e), Ee. split; [eauto|].
      destruct Hsource as (source & transition & Hv & Ht & targets & targetNode
                           & Htarget & Htin & <- & <-).
      eapply traverse_sources; eauto.
  - intros [Hocc|(transition & Hin & Hcause)].
    + now apply calledItem_state, Is.
    + apply (calledEvent_state _ _ (Transition.eventType transition)), Es.
      right. exists transition. auto.
  - intros Hocc. now apply calledItem_state, Iv.
  - intros Hocc. now apply calledItem_state, Id.
Qed.

(** X25: for every state node of the machine, the JSON text of the state
    value of its path is listed on the line of every item that the node
    carries, when the name of the item has no dot: a guard of one of its
    transitions; an action that it carries in the sense of X16; a service
    that it invokes or that a target of one of its transitions invokes; an
    activity or a delay that it has.  With X16 the states of a line are
    those of the carrying nodes, no more and no less. *)
Theorem carrying_nodes_are_listed {Matches : Type}
  (getTransitionsFromNode : StateNode.t -> list string)
  (getMatchesStates : StateNode.t -> Matches)
  (fuel : nat) (machine : Machine.t) (report : IntrospectMachineResult.t Matches)
  (node : StateNode.t) (name : string) :
  introspectMachine getTransitionsFromNode getMatchesStates fuel machine
  = Some (Ok report) ->
  visited machine node ->
  hasDot name = false ->
  let state := JSON_stringify (pathToStateValue (StateNode.path node)) in
  (guardAt node name ->
   reportsState (IntrospectMachineResult.guards report) name state)
  /\ (actionAt machine node name ->
      reportsState (IntrospectMachineResult.actions report) name state)
  /\ (serviceAt node name ->
      reportsState (IntrospectMachineResult.services report) name state)
  /\ (activityOccursAt node name ->
      reportsState (IntrospectMachineResult.activities report) name state)
  /\ (delayOccursAt node name ->
      reportsState (IntrospectMachineResult.delays report) name state).
Proof.
  intros (s & subState & Hrun & _ & ->)%introspectMachine_Ok Hvisited Hdot. simpl.
  destruct (traverse_states_listed machine s node Hrun Hvisited)
    as (Hg & Ha & Hs & Hv & Hd).
  repeat split; intros H; apply statesOf_reportsState; auto.
Qed.

Lemma carrying_nodes_are_listed_witness :
  exists report,
    introspectMachine noTransitions noMatches 2 lightMachine = Some (Ok report)
    /\ reportsState (IntrospectMachineResult.services report) "alarm"
         (quoteJSON "green").
Proof.
  assert (exists report,
             introspectMachine noTransitions noMatches 2 lightMachine = Some (Ok report))
    as [report Hrun] by (eexists; vm_compute; reflexivity).
  exists report. split; [exact Hrun|].
  apply (carrying_nodes_are_listed noTransitions noMatches 2 lightMachine report
           lightGreen "alarm" Hrun); [vm_compute; reflexivity|reflexivity|].
  right. exists lightTimer. split; [left|].
  exists [lightTarget], lightTarget, invokeAlarm.
  split; [reflexivity|]. split; [left|]. split; [left|reflexivity].
Defined.

(** * Properties of [writeToTypegenFile] *)

(** ** The path of the typegen file *)

Lemma replaceExtension_unfold s :
  replaceExtension s
  = if matchesHere s then ".typegen.ts"
    else match s with
         | EmptyString => EmptyString
         | String c rest => String c (replaceExtension rest)
         end.
Proof. destruct s; reflexivity. Qed.

Lemma hasDot_app a b : hasDot (a +:+ b) = hasDot a || hasDot b.
Proof.
  induction a as [|c a IH]; simpl; [reflexivity|].
  destruct (Ascii.eqb c "."); [reflexivity|exact IH].
Qed.

Lemma extensions_no_dot ext : ext ∈ extensions -> hasDot ext = false.
Proof.
  unfold extensions. intros H.
  repeat (apply elem_of_cons in H as [->|H]; [reflexivity|]).
  now apply elem_of_nil in H.
Qed.

Lemma matchesHere_spec s :
  matchesHere s = true <-> exists ext, ext ∈ extensions /\ s = "." +:+ ext.
Proof.
  destruct s as [|c rest]; unfold matchesHere.
  - split; [discriminate|]. now intros (ext & _ & ?).
  - rewrite andb_true_iff, existsb_exists. split.
    + intros [->%Ascii.eqb_eq (ext & Hin & ->%String.eqb_eq)].
      exists ext. split; [now apply list_elem_of_In|reflexivity].
    + intros (ext & Hin & [= -> ->]). split; [reflexivity|].
      exists ext. split; [now apply list_elem_of_In|apply String.eqb_refl].
Qed.

Lemma replaceExtension_swap stem ext :
  ext ∈ extensions ->
  replaceExtension (stem +:+ String "." ext) = stem +:+ ".typegen.ts".
Proof.
  intros Hext. induction stem as [|c stem IH].
  - change (EmptyString +:+ String "." ext) with (String "." ext).
    rewrite replaceExtension_unfold.
    assert (matchesHere (String "." ext) = true) as ->; [|reflexivity].
    apply matchesHere_spec. exists ext. split; [exact Hext|reflexivity].
  - change (String c stem +:+ String "." ext)
      with (String c (stem +:+ String "." ext)).
    rewrite replaceExtension_unfold.
    destruct (matchesHere (String c (stem +:+ String "." ext))) eqn:Hm.
    + apply matchesHere_spec in Hm as (ext' & Hext' & Heq).
      injection Heq as -> Heq. change (stem +:+ String "." ext = ext') in Heq.
      subst ext'.
      apply extensions_no_dot in Hext'. rewrite hasDot_app in Hext'.
      simpl in Hext'. now rewrite orb_true_r in Hext'.
    + now rewrite IH.
Qed.

(** X19: for a path that ends with a dot and one of the extensions
    [cjs], [mjs], [js], [tsx], [ts], [jsx], whatever comes before that
    dot, also other dots, the typegen file is the path with [.typegen.ts]
    in place of the dot and the extension. *)
Theorem pathToSave_swaps_extension (stem ext : string) :
  ext ∈ extensions ->
  pathToSave (stem +:+ "." +:+ ext) = stem +:+ ".typegen.ts".
Proof.
  intros Hext. unfold pathToSave.
  replace (stem +:+ "." +:+ ext) with (stem +:+ String "." ext).
  - now apply replaceExtension_swap.
  - induction stem as [|c stem IH]; [reflexivity|].
    change (String c (stem +:+ String "." ext) = String c (stem +:+ "." +:+ ext)).
    now f_equal.
Qed.

Lemma pathToSave_swaps_extension_witness :
  pathToSave ("/src/app.machine" +:+ "." +:+ "tsx") = "/src/app.machine.typegen.ts".
Proof.
  apply (pathToSave_swaps_extension "/src/app.machine" "tsx").
  unfold extensions. do 3 right. left.
Defined.

Lemma endsWith_self suffix : endsWith suffix suffix = true.
Proof. destruct suffix; simpl; [reflexivity|]. now rewrite Ascii.eqb_refl, String.eqb_refl. Qed.

Lemma hasListedExtension_rest c rest :
  hasListedExtension (String c rest) = false -> hasListedExtension rest = false.
Proof.
  unfold hasListedExtension. intros H.
  apply not_true_iff_false. intros (ext & Hin & Hends)%existsb_exists.
  apply not_true_iff_false in H. apply H, existsb_exists.
  exists ext. split; [exact Hin|].
  change (endsWith ("." +:+ ext) (String c rest))
    with (String.eqb (String c rest) ("." +:+ ext) || endsWith ("." +:+ ext) rest).
  rewrite Hends. apply orb_true_r.
Qed.

Lemma hasListedExtension_matchesHere s :
  hasListedExtension s = false -> matchesHere s = false.
Proof.
  intros H. apply not_true_iff_false. intros (ext & Hin & ->)%matchesHere_spec.
  apply not_true_iff_false in H. apply H, existsb_exists.
  exists ext. split; [now apply list_elem_of_In|apply endsWith_self].
Qed.

Lemma replaceExtension_other s :
  hasListedExtension s = false -> replaceExtension s = s.
Proof.
  induction s as [|c rest IH]; intros H.
  - reflexivity.
  - rewrite replaceExtension_unfold, (hasListedExtension_matchesHere _ H).
    now rewrite IH by (eapply hasListedExtension_rest, H).
Qed.

(** X20: a path that does not end with a dot and one of the six
    extensions is its own typegen path: the regular expression does not
    match, and [replace] returns the path as it is.  So is a path that ends
    with the extension in capitals, or with [.typegen.ts] cut short. *)
Theorem pathToSave_keeps_other_paths (filePath : string) :
  hasListedExtension filePath = false -> pathToSave filePath = filePath.
Proof. intros H. unfold pathToSave. now apply replaceExtension_other. Qed.

Lemma pathToSave_keeps_other_paths_witness :
  pathToSave "/src/app.machine.mts" = "/src/app.machine.mts".
Proof. apply pathToSave_keeps_other_paths. vm_compute. reflexivity. Defined.

(** ** The calls that [writeToTypegenFile] makes *)

Section WriteToTypegenFile.
Context {Config Exn Rest : Type}.
Variable world : World.t Config Exn Rest.
Variable filePath : string.
Variable event : TypegenEvent.t Rest.

Let run := writeToTypegenFile world filePath event.
Let typed := existsb TypegenMachine.hasTypesNode (TypegenEvent.machines event).

Lemma run_cases :
  (exists e, World.resolveConfig world filePath = Rejected e
             /\ run = ([], Rejected e))
  \/ (exists config,
        World.resolveConfig world filePath = Fulfilled config
        /\ ((typed = false /\ run = ([Unlink (pathToSave filePath)], Fulfilled tt))
            \/ (typed = true
                /\ ((exists e,
                       World.getTypegenOutput world event = Rejected e
                       /\ run = ([ConsoleLog e], Fulfilled tt))
                    \/ (exists output,
                          World.getTypegenOutput world event = Fulfilled output
                          /\ ((exists e,
                                 World.format world output config = Rejected e
                                 /\ run = ([ConsoleLog e], Fulfilled tt))
                              \/ (exists data,
                                    World.format world output config = Fulfilled data
                                    /\ ((World.writeFile world (pathToSave filePath)
                                           data = Fulfilled tt
                                         /\ run
                                            = ([WriteFile (pathToSave filePath) data],
                                               Fulfilled tt))
                                        \/ (exists e,
                                              World.writeFile world
                                                (pathToSave filePath) data
                                              = Rejected e
                                              /\ run
                                                 = ([WriteFile (pathToSave filePath)
                                                       data;
                                                     ConsoleLog e],
                                                    Fulfilled tt)))))))))).
Proof.
  unfold run, typed, writeToTypegenFile.
  destruct (World.resolveConfig world filePath) as [config|e]; [right|left; eauto].
  exists config. split; [reflexivity|].
  destruct (existsb _ _); [right|left].
  - split; [reflexivity|].
    destruct (World.getTypegenOutput world event) as [output|e]; [right|left; eauto].
    exists output. split; [reflexivity|].
    destruct (World.format world output config) as [data|e]; [right|left; eauto].
    exists data. split; [reflexivity|].
    destruct (World.writeFile world _ data) as [[]|e]; [left; auto|right; eauto].
  - split; [reflexivity|]. now destruct (World.unlink world _).
Qed.
End WriteToTypegenFile.

Ltac run_cases world filePath event :=
  let e := fresh "e" in
  let Hrun := fresh "Hrun" in
  destruct (run_cases world filePath event)
    as [(e & ? & Hrun)
       |(? & ? & [[? Hrun]
                 |[? [(e & ? & Hrun)
                     |(? & ? & [(e & ? & Hrun)
                               |(? & ? & [[? Hrun]|(e & ? & Hrun)])])]]])];
  rewrite Hrun; simpl.

(** X21: [writeToTypegenFile] calls [fs] at most once, and only on the
    typegen path: [writeFile] only when a machine of the event has a types
    node, [unlink] only when none has. *)
Theorem writeToTypegenFile_touches_one_path {Config Exn Rest : Type}
  (world : World.t Config Exn Rest) (filePath : string)
  (event : TypegenEvent.t Rest) :
  let effects := fst (writeToTypegenFile world filePath event) in
  let typed := existsb TypegenMachine.hasTypesNode (TypegenEvent.machines event) in
  (touchedPaths effects = [] \/ touchedPaths effects = [pathToSave filePath])
  /\ (forall path data, WriteFile path data ∈ effects -> typed = true)
  /\ (forall path, Unlink path ∈ effects -> typed = false).
Proof.
  run_cases world filePath event; (split; [auto|]); split; intros;
    repeat match goal with
      | H : _ ∈ [] |- _ => now apply elem_of_nil in H
      | H : _ ∈ _ :: _ |- _ => apply elem_of_cons in H as [H|H]; [discriminate H|]
      end;
    auto.
Qed.

Lemma writeToTypegenFile_touches_one_path_witness :
  touchedPaths (fst (writeToTypegenFile scenarioWorld "/src/app.machine.ts" typedEvent))
  = ["/src/app.machine.typegen.ts"]
  /\ (touchedPaths
        (fst (writeToTypegenFile scenarioWorld "/src/app.machine.ts" typedEvent)) = []
      \/ touchedPaths
           (fst (writeToTypegenFile scenarioWorld "/src/app.machine.ts" typedEvent))
         = [pathToSave "/src/app.machine.ts"]).
Proof.
  split; [vm_compute; reflexivity|].
  apply (writeToTypegenFile_touches_one_path scenarioWorld "/src/app.machine.ts"
           typedEvent).
Defined.

(** X22: the promise of [writeToTypegenFile] is rejected exactly when
    that of [prettier.resolveConfig] is, with the same error, and then no
    file is touched and nothing is logged; whatever else fails, the
    promise is fulfilled. *)
Theorem writeToTypegenFile_rejects_with_resolveConfig {Config Exn Rest : Type}
  (world : World.t Config Exn Rest) (filePath : string)
  (event : TypegenEvent.t Rest) (e : Exn) :
  (snd (writeToTypegenFile world filePath event) = Rejected e
   <-> World.resolveConfig world filePath = Rejected e)
  /\ (World.resolveConfig world filePath = Rejected e ->
      writeToTypegenFile world filePath event = ([], Rejected e)).
Proof.
  unfold writeToTypegenFile.
  destruct (World.resolveConfig world filePath) as [config|e'].
  - split; [|discriminate]. split; [|discriminate].
    destruct (existsb _ _).
    + destruct (World.getTypegenOutput world event); [|discriminate].
      destruct (World.format world _ _); [|discriminate].
      destruct (World.writeFile world _ _); discriminate.
    + destruct (World.unlink world _); discriminate.
  - simpl. split; [split|]; now intros [= ->].
Qed.

Lemma writeToTypegenFile_rejects_with_resolveConfig_witness :
  writeToTypegenFile scenarioWorld "/locked/app.machine.ts" typedEvent
  = ([], Rejected "EACCES").
Proof.
  apply (writeToTypegenFile_rejects_with_resolveConfig scenarioWorld
           "/locked/app.machine.ts" typedEvent "EACCES").
  vm_compute. reflexivity.
Defined.

(** X23: the console shows at most one error, and only when a machine
    has a types node: the exception of [getTypegenOutput], of
    [prettier.format], or of [fs.writeFile] on the typegen path.  An error
    of [fs.unlink] is never shown. *)
Theorem writeToTypegenFile_logs {Config Exn Rest : Type}
  (world : World.t Config Exn Rest) (filePath : string)
  (event : TypegenEvent.t Rest) :
  let effects := fst (writeToTypegenFile world filePath event) in
  (length (logged effects) <= 1)%nat
  /\ forall e,
       e ∈ logged effects ->
       existsb TypegenMachine.hasTypesNode (TypegenEvent.machines event) = true
       /\ (World.getTypegenOutput world event = Rejected e
           \/ (exists output config, World.format world output config = Rejected e)
           \/ exists data,
                World.writeFile world (pathToSave filePath) data = Rejected e).
Proof.
  run_cases world filePath event; (split; [lia|]); intros e' He';
    repeat match goal with
      | H : _ ∈ [] |- _ => now apply elem_of_nil in H
      | H : _ ∈ _ :: _ |- _ => apply elem_of_cons in H as [->|H]
      end;
    (split; [assumption|]); eauto.
Qed.

Lemma writeToTypegenFile_logs_witness :
  logged (fst (writeToTypegenFile scenarioWorld "/src/app.machine.ts" untypedEvent)) = []
  /\ (length
        (logged
           (fst (writeToTypegenFile scenarioWorld "/src/app.machine.ts" untypedEvent)))
      <= 1)%nat.
Proof.
  split; [vm_compute; reflexivity|].
  apply (writeToTypegenFile_logs scenarioWorld "/src/app.machine.ts" untypedEvent).
Defined.

(** X24: when the path does not end with one of the six extensions, the
    typegen path is the path itself: with no types node in the event,
    [writeToTypegenFile] unlinks the very file it was called for. *)
Theorem unlisted_extension_unlinks_the_file_itself {Config Exn Rest : Type}
  (world : World.t Config Exn Rest) (filePath : string)
  (event : TypegenEvent.t Rest) (config : option Config) :
  hasListedExtension filePath = false ->
  World.resolveConfig world filePath = Fulfilled config ->
  existsb TypegenMachine.hasTypesNode (TypegenEvent.machines event) = false ->
  writeToTypegenFile world filePath event = ([Unlink filePath], Fulfilled tt).
Proof.
  intros Hext Hconfig Htyped. unfold writeToTypegenFile.
  unfold pathToSave. rewrite Hconfig, Htyped, (replaceExtension_other _ Hext).
  now destruct (World.unlink world filePath).
Qed.

Lemma unlisted_extension_unlinks_the_file_itself_witness :
  writeToTypegenFile scenarioWorld "/src/app.machine.mts" untypedEvent
  = ([Unlink "/src/app.machine.mts"], Fulfilled tt).
Proof.
  apply (unlisted_extension_unlinks_the_file_itself scenarioWorld
           "/src/app.machine.mts" untypedEvent None);
    vm_compute; reflexivity.
Defined.
